(** * Serial Studio terminal widget: the VT-100 / ANSI escape decoder

    A shallow embedding of [src/UI/Widgets/Terminal.cpp]:
    - [AnsiEscapeCodeHandler::parseText], the streaming escape decoder, with
      its two nested loops, the pending-text buffer and the SGR colour codes;
    - the calls the decoder and [Terminal] make on the [QPlainTextEdit]
      document (erase line, clear, insert at the end, block limit);
    - [Terminal::scrollToBottom].

    Characters are 8-bit ([ascii]); a [QString] is a [string].  The decoder's
    side effects on the text edit are returned as the call it made, and
    [Terminal::addText] applies them to the document in program order. *)

From Stdlib Require Import ZArith QArith Qround List String Ascii Bool.
From Stdlib Require Import Lia.
From Stdlib Require SpecFloat.
Import ListNotations.

Local Open Scope string_scope.
Local Open Scope Z_scope.

(** ** QString operations used by the decoder *)

Module QStr.

Definition isEmpty (s : string) : bool :=
  match s with EmptyString => true | String _ _ => false end.

(** [QString::left(n)]. *)
Fixpoint left (n : nat) (s : string) : string :=
  match n, s with
  | S n', String c s' => String c (left n' s')
  | _, _ => EmptyString
  end.

(** [QString::remove(0, n)]. *)
Fixpoint remove0 (n : nat) (s : string) : string :=
  match n, s with
  | S n', String _ s' => remove0 n' s'
  | _, _ => s
  end.

(** [QString::at(i)]; [None] stands for an index outside the string. *)
Definition at_ (i : nat) (s : string) : option ascii := String.get i s.

(** [s.startsWith(pre)]. *)
Fixpoint startsWith (s pre : string) {struct pre} : bool :=
  match pre, s with
  | EmptyString, _ => true
  | String a pre', String b s' => Ascii.eqb a b && startsWith s' pre'
  | String _ _, EmptyString => false
  end.

(** [s.indexOf(c)] for a character; [None] is Qt's [-1]. *)
Fixpoint indexOfChar (c : ascii) (s : string) : option nat :=
  match s with
  | EmptyString => None
  | String b s' =>
      if Ascii.eqb b c then Some O else option_map S (indexOfChar c s')
  end.

(** [s.indexOf(sub)] for a string; [None] is Qt's [-1]. *)
Fixpoint indexOf (sub s : string) : option nat :=
  if startsWith s sub then Some O
  else match s with
       | EmptyString => None
       | String _ s' => option_map S (indexOf sub s')
       end.

Definition contains (s sub : string) : bool :=
  match indexOf sub s with Some _ => true | None => false end.

(** [QChar::toUpper] on the letters a-z.  The other characters are left
    alone: no case mapping produces one of the characters '2', 'J', 'K'
    the decoder looks for in the upper-cased text. *)
Definition upperChar (c : ascii) : ascii :=
  let n := nat_of_ascii c in
  if (Nat.leb 97 n && Nat.leb n 122)%bool then ascii_of_nat (n - 32) else c.

Fixpoint toUpper (s : string) : string :=
  match s with
  | EmptyString => EmptyString
  | String c s' => String (upperChar c) (toUpper s')
  end.

(** [QChar::isDigit] on 8-bit characters: the decimal digits. *)
Definition isDigit (c : ascii) : bool :=
  let n := nat_of_ascii c in (Nat.leb 48 n && Nat.leb n 57)%bool.

(** Value of a string of decimal digits, [None] when the string is empty
    or holds another character. *)
Fixpoint digitsValue (acc : Z) (s : string) : option Z :=
  match s with
  | EmptyString => Some acc
  | String c s' =>
      if isDigit c
      then digitsValue (acc * 10 + Z.of_nat (nat_of_ascii c - 48)) s'
      else None
  end.

Definition parseDecimal (s : string) : option Z :=
  if isEmpty s then None else digitsValue 0 s.

(** [QString::toUInt()]: 0 when the conversion fails, which for a digit
    string means the value does not fit 32 unsigned bits. *)
Definition toUInt (s : string) : Z :=
  match parseDecimal s with
  | Some v => if v <=? 4294967295 then v else 0
  | None => 0
  end.

(** [QString::toInt()]: 0 when the value does not fit a signed 32-bit int. *)
Definition toInt (s : string) : Z :=
  match parseDecimal s with
  | Some v => if v <=? 2147483647 then v else 0
  | None => 0
  end.

(** Concatenation of the texts of a list of strings. *)
Definition concat (l : list string) : string :=
  fold_left String.append l EmptyString.

End QStr.

(** ** Colours and character formats *)

Module Style.

(** A [QColor]: an RGB triple, or the invalid colour [QColor()]. *)
Inductive QColor : Type :=
| InvalidColor
| Rgb (r g b : Z).

Definition inByte (v : Z) : bool := (0 <=? v) && (v <=? 255).

(** [QColor(r, g, b)]: invalid when a channel is outside 0..255. *)
Definition mkColor (r g b : Z) : QColor :=
  if inByte r && inByte g && inByte b then Rgb r g b else InvalidColor.

(** [ansiColor(uint code)], lines 586-594. *)
Definition ansiColor (code : Z) : QColor :=
  if code <? 8 then
    let red := if Z.land code 1 =? 0 then 0 else 170 in
    let green := if Z.land code 2 =? 0 then 0 else 170 in
    let blue := if Z.land code 4 =? 0 then 0 else 170 in
    mkColor red green blue
  else InvalidColor.

(** Modelled from the spec: [QColor::lighter(factor)] is a Qt function
    that is not part of the sources; the spec gives its effect on the
    palette colours as "each channel scaled by 1.5 and clamped to 255". *)
Definition lighter (factor : Z) (c : QColor) : QColor :=
  match c with
  | InvalidColor => InvalidColor
  | Rgb r g b =>
      Rgb (Z.min 255 (r * factor / 100)) (Z.min 255 (g * factor / 100))
          (Z.min 255 (b * factor / 100))
  end.

(** 32-bit wrap-around of the unsigned arithmetic, and its reading as a
    signed [int]. *)
Definition wrapU32 (v : Z) : Z := v mod 4294967296.
Definition asInt32 (v : Z) : Z :=
  if v <? 2147483648 then v else v - 4294967296.

(** Colour of a 256-colour palette index, lines 849-876. *)
Definition paletteColor (index : Z) : QColor :=
  if index <? 8 then ansiColor index
  else if index <? 16 then lighter 150 (ansiColor (index - 8))
  else if index <? 232 then
    let o := index - 16 in
    mkColor ((o / 36) * 51) (((o / 6) mod 6) * 51) ((o mod 6) * 51)
  else
    let grey := asInt32 (wrapU32 ((index - 232) * 11)) in
    mkColor grey grey grey.

(** The attributes of [QTextCharFormat] the decoder touches.  A brush that
    was never set is [None]. *)
Record QTextCharFormat : Type := mkFormat {
  foreground : option QColor;
  background : option QColor;
  bold : bool
}.

Definition setForeground (c : option QColor) (f : QTextCharFormat) :=
  mkFormat c (background f) (bold f).
Definition setBackground (c : option QColor) (f : QTextCharFormat) :=
  mkFormat (foreground f) c (bold f).
(** [setFontWeight(QFont::Bold)]. *)
Definition setBold (f : QTextCharFormat) :=
  mkFormat (foreground f) (background f) true.

(** [QTextCharFormat()]: nothing set. *)
Definition defaultFormat : QTextCharFormat := mkFormat None None false.

Record FormattedText : Type := mkText {
  text : string;
  format : QTextCharFormat
}.

End Style.

(** ** The escape decoder, [AnsiEscapeCodeHandler] *)

Module Ansi.
Import QStr Style.

Definition ESC : ascii := "027"%char.
Definition BEL : ascii := "007"%char.
Definition backslash : ascii := "092"%char.

(** [const QString escape = "\x1b["]. *)
Definition escape : string := String ESC "[".
Definition semicolon : ascii := ";"%char.
Definition colorTerminator : string := "m".
Definition eraseToEol : string := "K".

(** The member variables of the handler. *)
Record Handler : Type := mkHandler {
  m_previousFormatClosed : bool;
  m_waitingForTerminator : bool;
  m_alternateTerminator : string;
  m_previousFormat : QTextCharFormat;
  m_pendingText : string
}.

(** A handler that holds no pending text, waits for no terminator and
    has its format scope closed. *)
Definition idleHandler : Handler :=
  mkHandler true false EmptyString defaultFormat EmptyString.

(** [endFormatScope()], lines 903-906. *)
Definition endFormatScope (h : Handler) : Handler :=
  mkHandler true (m_waitingForTerminator h) (m_alternateTerminator h)
            (m_previousFormat h) (m_pendingText h).

(** [setFormatScope(charFormat)], lines 908-912. *)
Definition setFormatScope (f : QTextCharFormat) (h : Handler) : Handler :=
  mkHandler false (m_waitingForTerminator h) (m_alternateTerminator h)
            f (m_pendingText h).

Definition withPending (p : string) (h : Handler) : Handler :=
  mkHandler (m_previousFormatClosed h) (m_waitingForTerminator h)
            (m_alternateTerminator h) (m_previousFormat h) p.

Definition withWaiting (w : bool) (alt : string) (h : Handler) : Handler :=
  mkHandler (m_previousFormatClosed h) w alt (m_previousFormat h)
            (m_pendingText h).

(** The calls [parseText] makes on the text edit before it returns. *)
Inductive TextEditCall : Type :=
| ClearCurrentLine   (* the cursor sequence of lines 720-727 *)
| ClearScreen.       (* [textEdit->clear()], line 734 *)

(** The handler together with the local variables of [parseText] that
    live across loop iterations. *)
Record Locals : Type := mkLocals {
  handler : Handler;
  outputData : list FormattedText;
  charFormat : QTextCharFormat
}.

Definition pending (l : Locals) : string := m_pendingText (handler l).

Definition setPending (p : string) (l : Locals) : Locals :=
  mkLocals (withPending p (handler l)) (outputData l) (charFormat l).
Definition appendPending (p : string) (l : Locals) : Locals :=
  setPending (pending l ++ p) l.
Definition clearPending (l : Locals) : Locals := setPending EmptyString l.

(** [outputData << FormattedText(t, charFormat)]. *)
Definition emit (t : string) (l : Locals) : Locals :=
  mkLocals (handler l) (outputData l ++ [mkText t (charFormat l)])%list
           (charFormat l).

Definition setWaiting (w : bool) (alt : string) (l : Locals) : Locals :=
  mkLocals (withWaiting w alt (handler l)) (outputData l) (charFormat l).

(** [charFormat.setXxx(...); setFormatScope(charFormat);] *)
Definition restyle (f : QTextCharFormat -> QTextCharFormat) (l : Locals)
  : Locals :=
  let cf := f (charFormat l) in
  mkLocals (setFormatScope cf (handler l)) (outputData l) cf.

(** [charFormat = input.format; endFormatScope();] with [inputFormat]
    standing for [input.format], the one part of [input] the loops read. *)
Definition resetFormat (inputFormat : QTextCharFormat) (l : Locals) : Locals :=
  mkLocals (endFormatScope (handler l)) (outputData l) inputFormat.

(** What one pass through a loop body does next. *)
Inductive Step : Type :=
| Again (l : Locals) (s : string)    (* next iteration of this loop *)
| Leave (l : Locals) (s : string)    (* the loop is left *)
| Exit (h : Handler) (out : list FormattedText) (call : TextEditCall)
                                     (* a return statement in the loop *)
| Crash                              (* an index outside a list or string *)
| NoFuel.

(** A [while] loop over the locals and [strippedText]. *)
Fixpoint loop (body : Locals -> string -> Step) (fuel : nat)
         (l : Locals) (s : string) : Step :=
  match fuel with
  | O => NoFuel
  | S fuel' =>
      match body l s with
      | Again l' s' => loop body fuel' l' s'
      | r => r
      end
  end.

(** The digit-scanning loop, lines 746-768.  It returns the numbers, the
    pending text and what is left of [strippedText]. *)
Fixpoint scanNumbers (strNumber : string) (numbers : list string)
         (pend : string) (s : string) : list string * string * string :=
  match s with
  | EmptyString => (numbers, pend, s)
  | String c s' =>
      if isDigit c then
        scanNumbers (strNumber ++ String c "") numbers
                    (pend ++ String c "") s'
      else
        let numbers' :=
          if isEmpty strNumber then numbers
          else (numbers ++ [strNumber])%list in
        if isEmpty strNumber || negb (Ascii.eqb c semicolon)
        then (numbers', pend, s)
        else scanNumbers "" numbers' (pend ++ String c "") s'
  end.

(** The [for] loop over the numbers, lines 789-892.  The list argument is
    the part of [numbers] from index [i] on; [None] is an access
    [numbers.at(k)] with [k >= numbers.size()]. *)
Fixpoint applyCodes (inputFormat : QTextCharFormat) (numbers : list string)
         (l : Locals) : option Locals :=
  match numbers with
  | [] => Some l
  | n :: rest =>
      let code := toUInt n in
      if (30 <=? code) && (code <=? 37) then
        applyCodes inputFormat rest
          (restyle (setForeground (Some (ansiColor (code - 30)))) l)
      else if (40 <=? code) && (code <=? 47) then
        applyCodes inputFormat rest
          (restyle (setBackground (Some (ansiColor (code - 40)))) l)
      else if code =? 0 then
        applyCodes inputFormat rest (resetFormat inputFormat l)
      else if code =? 1 then
        applyCodes inputFormat rest (restyle setBold l)
      else if code =? 39 then
        applyCodes inputFormat rest
          (restyle (setForeground (foreground inputFormat)) l)
      else if code =? 49 then
        applyCodes inputFormat rest
          (restyle (setBackground (background inputFormat)) l)
      else if (code =? 38) || (code =? 48) then
        match rest with
        | [] => Some l                    (* ++i >= numbers.size(): break *)
        | mode :: rest1 =>
            if toInt mode =? 2 then
              match rest1 with
              | r :: g :: b :: rest2 =>   (* (i + 3) < numbers.size() *)
                  let color := mkColor (toInt r) (toInt g) (toInt b) in
                  applyCodes inputFormat rest2
                    (restyle (if code =? 38
                              then setForeground (Some color)
                              else setBackground (Some color)) l)
              | _ => Some l               (* i += 3 ends the loop *)
              end
            else if toInt mode =? 5 then
              match rest1 with
              | [] => None                (* numbers.at(i + 1), unchecked *)
              | idx :: rest2 =>
                  let color := paletteColor (toUInt idx) in
                  applyCodes inputFormat rest2
                    (restyle (if code =? 38
                              then setForeground (Some color)
                              else setBackground (Some color)) l)
              end
            else applyCodes inputFormat rest1 l
        end
      else applyCodes inputFormat rest l
  end.

(** The switch on the character after a lone ESC, lines 677-701. *)
Definition isIgnoredLetter (c : ascii) : bool :=
  Ascii.eqb c backslash || Ascii.eqb c "N" || Ascii.eqb c "O".
Definition isStringLetter (c : ascii) : bool :=
  Ascii.eqb c "P" || Ascii.eqb c "X" || Ascii.eqb c "^" || Ascii.eqb c "_".

(** The switch of lines 677-701 on the character after an escape character
    that does not begin ESC [. *)
Definition escapeLetter (l : Locals) (s : string) : Step :=
  match at_ 1 s with
  | None => Crash
  | Some c1 =>
      if isIgnoredLetter c1 then Leave l (remove0 2 s)
      else if Ascii.eqb c1 "]" then
        Leave (setWaiting true (String BEL "") l) (remove0 2 s)
      else if isStringLetter c1 then
        Leave (setWaiting true (m_alternateTerminator (handler l)) l)
              (remove0 2 s)
      else
        (* not a control sequence *)
        Again (emit (left 1 s) (clearPending l)) (remove0 1 s)
  end.

(** The sequence behind ESC [, lines 714-892: [l1] holds the locals after
    the introducer went into the pending text, [s1] is [strippedText]
    after the introducer was removed. *)
Definition controlSequence (inputFormat : QTextCharFormat) (l1 : Locals)
           (s1 : string) : Step :=
  let upperCase := toUpper s1 in
  if contains upperCase "2K" then
    Exit (handler l1) (outputData l1) ClearCurrentLine
  else if contains upperCase "2J" then
    Exit (handler l1) [] ClearScreen
  else if startsWith s1 eraseToEol then
    Again (clearPending l1) (remove0 1 s1)
  else
    let '(numbers, pend, s2) := scanNumbers "" [] (pending l1) s1 in
    let l2 := setPending pend l1 in
    if isEmpty s2 then Leave l2 s2
    else if negb (startsWith s2 colorTerminator) then
      Leave (clearPending l2) (remove0 1 s2)
    else
      let l3 := clearPending l2 in
      let s3 := remove0 1 s2 in
      let l4 := match numbers with
                | [] => resetFormat inputFormat l3
                | _ :: _ => l3
                end in
      match applyCodes inputFormat numbers l4 with
      | None => Crash
      | Some l5 => Again l5 s3
      end.

(** Body of the inner loop, lines 666-893. *)
Definition innerBody (inputFormat : QTextCharFormat) (l : Locals)
           (s : string) : Step :=
  match s with
  | EmptyString => Leave l s
  | String c0 _ =>
    if negb (Ascii.eqb ESC c0) then Leave l s
    else if startsWith escape s then
      (* control sequence is not complete *)
      Leave (appendPending s l) EmptyString
    else if negb (startsWith s escape) then escapeLetter l s
    else
      controlSequence inputFormat
                      (appendPending (left (length escape) s) l)
                      (remove0 (length escape) s)
  end.

Definition innerLoop (inputFormat : QTextCharFormat) (l : Locals) (s : string)
  : Step :=
  loop (innerBody inputFormat) (S (length s)) l s.

(** The string-argument skipping at the head of the outer loop, lines
    632-652: [Leave] is a [break], [Again] carries on in the body. *)
Definition skipStringArgument (l : Locals) (s : string) : Step :=
  if m_waitingForTerminator (handler l) then
    let st := String ESC (String backslash "") in
    let alt := m_alternateTerminator (handler l) in
    let '(terminator, terminatorPos) :=
      match indexOf st s with
      | Some p => (st, Some p)
      | None => if negb (isEmpty alt) then (alt, indexOf alt s)
                else (st, None)
      end in
    match terminatorPos with
    | None => Leave (setPending s l) s
    | Some p =>
        let l' := setWaiting false EmptyString l in
        let s' := remove0 (p + length terminator) s in
        if isEmpty s' then Leave l' s' else Again l' s'
    end
  else Again l s.

(** Body of the outer loop, lines 629-894. *)
Definition outerBody (inputFormat : QTextCharFormat) (l : Locals) (s : string)
  : Step :=
  if isEmpty s then Leave l s
  else if negb (isEmpty (pending l)) then Leave l s
  else
    match skipStringArgument l s with
    | Again l1 s1 =>
        match indexOfChar ESC s1 with
        | None => Leave (emit s1 l1) s1
        | Some escapePos =>
            let '(l2, s2) :=
              match escapePos with
              | O => (l1, s1)
              | S _ => (emit (left escapePos s1) l1, remove0 escapePos s1)
              end in
            match at_ 0 s2 with
            | None => Crash
            | Some c =>
                if negb (Ascii.eqb c ESC) then Leave l2 s2
                else
                  match innerLoop inputFormat l2 s2 with
                  | Leave l3 s3 => Again l3 s3
                  | r => r
                  end
            end
        end
    | r => r
    end.

(** A run as the decoder emits it: not empty, and either free of escape
    characters or the lone escape character of the "not a control
    sequence" branch. *)
Definition literalRun (t : FormattedText) : Prop :=
  text t <> EmptyString
  /\ (indexOfChar ESC (text t) = None \/ text t = String ESC EmptyString).

(** What a call of [parseText] leaves behind. *)
Inductive Outcome : Type :=
| Parsed (h : Handler) (out : list FormattedText)
         (call : option TextEditCall)
| IndexOutOfRange
| OutOfFuel.

(** [AnsiEscapeCodeHandler::parseText], lines 596-896. *)
Definition parseText (h : Handler) (input : FormattedText) : Outcome :=
  let charFormat :=
    if m_previousFormatClosed h then format input else m_previousFormat h in
  let strippedText := m_pendingText h ++ text input in
  let l := mkLocals (withPending EmptyString h) [] charFormat in
  match loop (outerBody (format input)) (S (length strippedText)) l
             strippedText with
  | Leave l' _ => Parsed (handler l') (outputData l') None
  | Exit h' out call => Parsed h' out (Some call)
  | Crash => IndexOutOfRange
  | Again _ _ | NoFuel => OutOfFuel
  end.

End Ansi.

(** ** The text edit, its document and the [Terminal] item *)

Module Widget.
Import QStr Style Ansi.

Definition newline : ascii := "010"%char.

(** The blocks a text is cut into at its newline characters. *)
Fixpoint splitLines (cur : string) (s : string) : list string :=
  match s with
  | EmptyString => [cur]
  | String c s' =>
      if Ascii.eqb c newline then cur :: splitLines EmptyString s'
      else splitLines (cur ++ String c "") s'
  end.

(** A [QTextCursor]: an anchor and a position in the document, each a
    block index and a column.  The cursor calls below are the ones
    [parseText] makes at lines 720-727, with the effect Qt documents for
    them on lines that are not wrapped. *)
Record QTextCursor : Type := mkCursor {
  anchor : nat * nat;
  position : nat * nat
}.

(** Modelled from the spec: [QPlainTextEdit] and its [QTextDocument] are
    Qt classes that are not part of the sources.  The document is the
    "ordered sequence of blocks (a block = one logical line)", "bounded by
    maxBlockCount (<= 0 means unbounded)", the bound being "enforced by
    trimming oldest blocks". *)
Record QPlainTextEdit : Type := mkEdit {
  blocks : list string;
  maximumBlockCount : Z;
  textCursor : QTextCursor
}.

Definition blockCount (e : QPlainTextEdit) : Z :=
  Z.of_nat (List.length (blocks e)).

Definition block (i : nat) (bs : list string) : string :=
  nth i bs EmptyString.

(** Position of [QTextCursor::End]. *)
Definition endPosition (bs : list string) : nat * nat :=
  (Nat.pred (List.length bs),
   String.length (block (Nat.pred (List.length bs)) bs)).

Inductive MoveOperation : Type := End | StartOfLine.
Inductive MoveMode : Type := MoveAnchor | KeepAnchor.

(** [moveCursor(operation, mode)]. *)
Definition moveCursor (op : MoveOperation) (mode : MoveMode)
           (e : QPlainTextEdit) : QPlainTextEdit :=
  let target :=
    match op with
    | End => endPosition (blocks e)
    | StartOfLine => (fst (position (textCursor e)), O)
    end in
  let anchor' :=
    match mode with
    | MoveAnchor => target
    | KeepAnchor => anchor (textCursor e)
    end in
  mkEdit (blocks e) (maximumBlockCount e) (mkCursor anchor' target).

Definition positionLeb (p q : nat * nat) : bool :=
  Nat.ltb (fst p) (fst q)
  || (Nat.eqb (fst p) (fst q) && Nat.leb (snd p) (snd q)).

(** [textCursor().removeSelectedText()]: the text between anchor and
    position goes, both ends of the cursor land on its start. *)
Definition removeSelectedText (e : QPlainTextEdit) : QPlainTextEdit :=
  let c := textCursor e in
  let '(from, to) :=
    if positionLeb (anchor c) (position c)
    then (anchor c, position c) else (position c, anchor c) in
  let bs := blocks e in
  let merged :=
    left (snd from) (block (fst from) bs)
    ++ remove0 (snd to) (block (fst to) bs) in
  mkEdit (firstn (fst from) bs ++ merged :: skipn (S (fst to)) bs)%list
         (maximumBlockCount e) (mkCursor from from).

(** [textCursor().deletePreviousChar()]: with a selection the selected
    text goes; without one the character before the cursor goes, which at
    the start of a block is the block separator, so that the block joins
    the one before it; at the start of the document nothing happens. *)
Definition deletePreviousChar (e : QPlainTextEdit) : QPlainTextEdit :=
  let c := textCursor e in
  let bs := blocks e in
  if negb (Nat.eqb (fst (anchor c)) (fst (position c))
           && Nat.eqb (snd (anchor c)) (snd (position c)))
  then removeSelectedText e
  else
    match position c with
    | (b, S col) =>
        let line := block b bs in
        let line' := left col line ++ remove0 (S col) line in
        mkEdit (firstn b bs ++ line' :: skipn (S b) bs)%list
               (maximumBlockCount e) (mkCursor (b, col) (b, col))
    | (S b, O) =>
        let p := (b, String.length (block b bs)) in
        let joined := block b bs ++ block (S b) bs in
        mkEdit (firstn b bs ++ joined :: skipn (S (S b)) bs)%list
               (maximumBlockCount e) (mkCursor p p)
    | (O, O) => e
    end.

Definition setTextCursor (c : QTextCursor) (e : QPlainTextEdit) :=
  mkEdit (blocks e) (maximumBlockCount e) c.

(** The erase-line sequence of [parseText], lines 720-727. *)
Definition eraseCurrentLine (e : QPlainTextEdit) : QPlainTextEdit :=
  let storedCursor := textCursor e in
  let e1 := moveCursor End MoveAnchor e in
  let e2 := moveCursor StartOfLine MoveAnchor e1 in
  let e3 := moveCursor End KeepAnchor e2 in
  let e4 := removeSelectedText e3 in
  let e5 := deletePreviousChar e4 in
  setTextCursor storedCursor e5.

(** Modelled from the spec: [QPlainTextEdit::clear()] "removes all
    blocks, leaving one empty block". *)
Definition clear (e : QPlainTextEdit) : QPlainTextEdit :=
  mkEdit [EmptyString] (maximumBlockCount e) (mkCursor (O, O) (O, O)).

Definition applyCall (c : TextEditCall) (e : QPlainTextEdit) :=
  match c with
  | ClearCurrentLine => eraseCurrentLine e
  | ClearScreen => clear e
  end.

(** Modelled from the spec: the block limit of [QTextDocument], "if
    maxBlockCount > 0 and block count exceeds it, remove oldest blocks
    until the invariant holds" (lines 192-197 say the same: "blocks are
    removed from the beginning of the document"). *)
Definition enforceBlockLimit (maxBlockCount : Z) (bs : list string)
  : list string :=
  if (0 <? maxBlockCount) && (maxBlockCount <? Z.of_nat (List.length bs))
  then skipn (List.length bs - Z.to_nat maxBlockCount) bs
  else bs.

(** Modelled from the spec: text inserted at the end of the document,
    before the limit applies: "TextRun events append to the current (last)
    block, creating a new block on an embedded newline". *)
Definition appendText (t : string) (bs : list string) : list string :=
  match splitLines EmptyString t with
  | [] => bs
  | first :: more =>
      let continued := last bs EmptyString ++ first in
      (removelast bs ++ continued :: more)%list
  end.

(** [cursor.movePosition(End); cursor.insertText(text)], lines 538-542. *)
Definition insertText (t : string) (e : QPlainTextEdit) : QPlainTextEdit :=
  mkEdit (enforceBlockLimit (maximumBlockCount e) (appendText t (blocks e)))
         (maximumBlockCount e) (textCursor e).

(** [Terminal::setMaximumBlockCount], lines 491-497. *)
Definition setMaximumBlockCount (maxBlockCount : Z) (e : QPlainTextEdit) :=
  mkEdit (enforceBlockLimit maxBlockCount (blocks e)) maxBlockCount
         (textCursor e).

(** The members of [Terminal] the text path uses. *)
Record Terminal : Type := mkTerminal {
  m_textEdit : QPlainTextEdit;
  m_escapeCodeHandler : Handler
}.

(** [Terminal::vt100Processing], lines 558-569; the handler's [textEdit]
    is the terminal's own text edit.  [None] when [parseText] does not
    come back. *)
Definition vt100Processing (data : string) (t : Terminal)
  : option (string * Terminal) :=
  match parseText (m_escapeCodeHandler t)
                  (mkText data defaultFormat) with
  | Parsed h formattedText call =>
      let edit :=
        match call with
        | Some c => applyCall c (m_textEdit t)
        | None => m_textEdit t
        end in
      let cleanLine := QStr.concat (map text formattedText) in
      Some (cleanLine, mkTerminal edit (endFormatScope h))
  | _ => None
  end.

(** [Terminal::addText], lines 530-552, up to the scrolling. *)
Definition addText (txt : string) (enableVt100 : bool) (t : Terminal)
  : option Terminal :=
  let processed :=
    if enableVt100 then vt100Processing txt t else Some (txt, t) in
  match processed with
  | Some (textToInsert, t') =>
      Some (mkTerminal (insertText textToInsert (m_textEdit t'))
                       (m_escapeCodeHandler t'))
  | None => None
  end.

(** The calls [scrollToBottom] makes on the vertical scroll bar. *)
Inductive BarCall : Type :=
| SetMinimum (v : Z)
| SetMaximum (v : Z)
| SetValue (v : Z).

(** A [double] (Qt's [qreal]): an IEEE 754 binary64 number, with the
    arithmetic of the standard library's specification of floating-point
    numbers (53 bits of precision, round to nearest, ties to even). *)
Definition double : Type := SpecFloat.spec_float.
Definition dadd : double -> double -> double := SpecFloat.SFadd 53 1024.
Definition dsub : double -> double -> double := SpecFloat.SFsub 53 1024.
Definition ddiv : double -> double -> double := SpecFloat.SFdiv 53 1024.
Definition dleb : double -> double -> bool := SpecFloat.SFleb.
Definition zero : double := SpecFloat.S754_zero false.

(** The constant [0.5], that is 2^52 * 2^-53. *)
Definition half : double :=
  SpecFloat.S754_finite false 4503599627370496 (-53).

(** The values of a 32-bit [int]. *)
Definition inInt (v : Z) : bool :=
  (-2147483648 <=? v) && (v <=? 2147483647).

(** The conversion of an [int] to [double], which is exact. *)
Definition ofInt (v : Z) : double :=
  SpecFloat.binary_normalize 53 1024 v 0 false.

(** The conversion [int(d)]: the fractional part is discarded; [None]
    when [d] is not a number, is infinite or its integral part is not
    the value of an [int], where the conversion is undefined. *)
Definition intOf (d : double) : option Z :=
  match d with
  | SpecFloat.S754_zero _ => Some 0
  | SpecFloat.S754_finite s m e =>
      let v := SpecFloat.cond_Zopp s (Z.shiftl (Zpos m) e) in
      if inInt v then Some v else None
  | _ => None
  end.

(** The rational number a finite [double] stands for. *)
Definition valueOf (d : double) : option Q :=
  match d with
  | SpecFloat.S754_zero _ => Some 0%Q
  | SpecFloat.S754_finite s m e =>
      Some (inject_Z (SpecFloat.cond_Zopp s (Zpos m)) * Qpower 2 e)%Q
  | _ => None
  end.

(** [qRound(double d)] of Qt, which is not part of the sources:
    [d >= 0.0 ? int(d + 0.5) : int(d - 0.5)], the sum taken in [double]. *)
Definition qRound (d : double) : option Z :=
  if dleb zero d then intOf (dadd d half) else intOf (dsub d half).

(** [Terminal::scrollToBottom], lines 457-481: [height] is the item's
    height, a [qreal]; [fontHeight] is [fontMetrics().height()] and
    [lineCount] the document's block count, both [int].  The result is the
    calls made on the scroll bar, or [None] when a conversion to [int] is
    undefined or [lineCount - visibleLines + 2] overflows. *)
Definition scrollToBottom (height : double) (fontHeight : Z) (lineCount : Z)
  : option (list BarCall) :=
  match qRound (ddiv height (ofInt fontHeight)) with
  | None => None
  | Some visibleLines =>
      if visibleLines <=? 0 then Some []
      else if visibleLines <? lineCount then
        let value := lineCount - visibleLines + 2 in
        if inInt value
        then Some [SetMinimum 0; SetMaximum lineCount; SetValue value]
        else None
      else Some [SetMinimum 0; SetMaximum lineCount; SetValue 0]
  end.

(** The autoscroll rule in the words of the specification, with
    [viewportLines = floor(viewportHeight / lineHeight)]: [None] is "no
    scroll update", [Some v] the scroll offset. *)
Definition specScrollOffset (viewportHeight : Q) (lineHeight : Z)
           (totalBlocks : Z) : option Z :=
  let viewportLines := Qfloor (viewportHeight / inject_Z lineHeight) in
  if viewportLines <=? 0 then None
  else if viewportLines <? totalBlocks
       then Some (totalBlocks - viewportLines + 2)
       else Some 0.

(** The scroll offset [scrollToBottom] asks for. *)
Definition requestedOffset (calls : list BarCall) : option Z :=
  fold_left (fun acc c => match c with SetValue v => Some v | _ => acc end)
            calls None.

End Widget.

(** ** The colour tables in the words of the specification *)

Module SpecWords.
Import Style.

(** "for index i in [0,7], red = 170 if bit0 set else 0, green = 170 if
    bit1 set else 0, blue = 170 if bit2 set else 0". *)
Definition lowIntensity (i : Z) : QColor :=
  Rgb (if Z.testbit i 0 then 170 else 0)
      (if Z.testbit i 1 then 170 else 0)
      (if Z.testbit i 2 then 170 else 0).

(** "each channel scaled by 1.5 and clamped to 255". *)
Definition scaled (channel : Z) : Z := Z.min 255 (channel * 3 / 2).

Definition highIntensity (i : Z) : QColor :=
  match lowIntensity i with
  | Rgb r g b => Rgb (scaled r) (scaled g) (scaled b)
  | InvalidColor => InvalidColor
  end.

(** The 256-colour mapping: 0..7, 8..15, the 6x6x6 cube 16..231 and the
    greyscale ramp 232..255. *)
Definition palette (index : Z) : QColor :=
  if index <=? 7 then lowIntensity index
  else if index <=? 15 then highIntensity (index - 8)
  else if index <=? 231 then
    let o := index - 16 in
    Rgb ((o / 36) * 51) (((o / 6) mod 6) * 51) ((o mod 6) * 51)
  else
    let grey := (index - 232) * 11 in
    Rgb grey grey grey.

End SpecWords.

Import QStr Style Ansi Widget.

(** ** Predicates on the state of the two loops *)

(** Inside the inner loop nothing is pending and no string argument is
    being skipped. *)
Definition quiet (l : Locals) : Prop :=
  pending l = EmptyString /\ m_waitingForTerminator (handler l) = false.

(** A return statement leaves the introducer ESC [ in the pending text. *)
Definition exitsWithIntroducer (r : Step) : Prop :=
  match r with
  | Exit h _ _ =>
      m_pendingText h = escape /\ m_waitingForTerminator h = false
  | _ => True
  end.

(** The runs a step carries. *)
Definition runsOf (r : Step) : list FormattedText :=
  match r with
  | Again l _ | Leave l _ => outputData l
  | Exit _ out _ => out
  | _ => []
  end.

(** The locals after the literal text [t] in front of an escape character
    has been emitted. *)
Definition afterText (t : string) (l : Locals) : Locals :=
  if isEmpty t then l else emit t l.

(** The locals with the runs [o] in front of the emitted ones. *)
Definition addRuns (o : list FormattedText) (l : Locals) : Locals :=
  mkLocals (handler l) (o ++ outputData l)%list (charFormat l).

(** A step with the runs [o] in front of the ones it carries; the
    clear-screen return carries none. *)
Definition prefixRuns (o : list FormattedText) (r : Step) : Step :=
  match r with
  | Again l s => Again (addRuns o l) s
  | Leave l s => Leave (addRuns o l) s
  | Exit h out ClearCurrentLine => Exit h (o ++ out)%list ClearCurrentLine
  | Exit h out ClearScreen => Exit h out ClearScreen
  | Crash => Crash
  | NoFuel => NoFuel
  end.

(** No erase marker in the upper-cased text. *)
Definition unmarked (s : string) : Prop :=
  contains (toUpper s) "2K" = false /\ contains (toUpper s) "2J" = false.

(** No erase marker in [s] followed by the chunk [c2], no bell in [s]. *)
Definition clean (c2 : string) (s : string) : Prop :=
  contains (toUpper (s ++ c2)) "2K" = false
  /\ contains (toUpper (s ++ c2)) "2J" = false
  /\ indexOfChar BEL s = None.

Definition isSuffix (s' s : string) : Prop := exists pre, s = pre ++ s'.

(** The text a step hands on is a suffix of the text it was given. *)
Definition stepSuffix (s : string) (r : Step) : Prop :=
  match r with
  | Again _ s' | Leave _ s' => isSuffix s' s
  | _ => True
  end.

Definition noExit (r : Step) : Prop :=
  match r with Exit _ _ _ => False | _ => True end.

(** The alternate terminator is unset or the bell, and [charFormat] is the
    format the handler fields stand for. *)
Definition steady (inputFormat : QTextCharFormat) (l : Locals) : Prop :=
  (m_alternateTerminator (handler l) = EmptyString
   \/ m_alternateTerminator (handler l) = String BEL EmptyString)
  /\ charFormat l
     = if m_previousFormatClosed (handler l) then inputFormat
       else m_previousFormat (handler l).

Definition stepSteady (inputFormat : QTextCharFormat) (r : Step) : Prop :=
  match r with
  | Again l _ | Leave l _ => steady inputFormat l
  | _ => True
  end.

(** The locals a later call starts from: the pending text is taken into
    the buffer, no run has been emitted. *)
Definition resume (l : Locals) : Locals :=
  mkLocals (withPending EmptyString (handler l)) [] (charFormat l).

(** The outer body behind the string-argument skipping. *)
Definition afterSkip (inputFormat : QTextCharFormat) (l1 : Locals)
           (s1 : string) : Step :=
  match indexOfChar ESC s1 with
  | None => Leave (emit s1 l1) s1
  | Some p =>
      match innerLoop inputFormat (afterText (left p s1) l1)
                      (remove0 p s1) with
      | Leave a b => Again a b
      | r => r
      end
  end.

(** One pass of the outer body over [s] followed by [c2] does what a pass
    of a later call does that starts from the pending text of [l']. *)
Definition resumed (inputFormat : QTextCharFormat) (c2 : string)
           (l : Locals) (s : string) (l' : Locals) : Prop :=
  outerBody inputFormat l (s ++ c2)
  = prefixRuns (outputData l')
               (outerBody inputFormat (resume l') (pending l' ++ c2)).

(** The outcome of a later call with the runs [o] of an earlier call in
    front. *)
Definition withEarlierRuns (o : list FormattedText) (r : Outcome) : Outcome :=
  match r with
  | Parsed h out call => Parsed h (o ++ out)%list call
  | r => r
  end.

(** The outcome of a call on the text behind the literal text whose run is
    [o]; a clear-screen return drops the runs emitted before it. *)
Definition withRunsBefore (o : list FormattedText) (r : Outcome) : Outcome :=
  match r with
  | Parsed h out (Some ClearScreen) => Parsed h out (Some ClearScreen)
  | Parsed h out call => Parsed h (o ++ out)%list call
  | r => r
  end.

(** ** Definitions for the further properties *)

(** [charFormat] as [parseText] initialises it, line 618. *)
Definition initialFormat (h : Handler) (inputFormat : QTextCharFormat)
  : QTextCharFormat :=
  if m_previousFormatClosed h then inputFormat else m_previousFormat h.

(** The locals when the outer loop is entered. *)
Definition entry (h : Handler) (inputFormat : QTextCharFormat) : Locals :=
  mkLocals (withPending EmptyString h) [] (initialFormat h inputFormat).

(** What [parseText] returns for the way the outer loop ended. *)
Definition outcome (r : Step) : Outcome :=
  match r with
  | Leave l' _ => Parsed (handler l') (outputData l') None
  | Exit h' out call => Parsed h' out (Some call)
  | Crash => IndexOutOfRange
  | Again _ _ | NoFuel => OutOfFuel
  end.

Fixpoint allDigits (s : string) : bool :=
  match s with
  | EmptyString => true
  | String c s' => isDigit c && allDigits s'
  end.

(** A number of a control sequence: one decimal digit or more. *)
Definition isNumber (s : string) : bool := negb (isEmpty s) && allDigits s.

(** The parameter text of a control sequence: the numbers with a semicolon
    between two of them. *)
Fixpoint parameters (numbers : list string) : string :=
  match numbers with
  | [] => EmptyString
  | n :: rest =>
      match rest with
      | [] => n
      | _ :: _ => n ++ String semicolon (parameters rest)
      end
  end.

(** The handler after the [for] loop of lines 783-892 ran over [numbers],
    entered from a handler with nothing pending; [None] as for
    [applyCodes]. *)
Definition sgr (inputFormat : QTextCharFormat) (numbers : list string)
           (h : Handler) : option Handler :=
  let l := entry h inputFormat in
  option_map handler
    (applyCodes inputFormat numbers
       match numbers with
       | [] => resetFormat inputFormat l
       | _ :: _ => l
       end).

(** The string terminator ESC \ of line 635. *)
Definition stringTerminator : string := String ESC (String backslash "").

(** The handler once the terminator of a string argument was found, lines
    647-648, with nothing pending. *)
Definition afterTerminator (h : Handler) : Handler :=
  withWaiting false EmptyString (withPending EmptyString h).

(** The terminator [term] the skipping of lines 632-652 finds at [p] in
    [s]: the string terminator, or failing that the alternate one. *)
Definition finds (alt s term : string) (p : nat) : Prop :=
  (indexOf stringTerminator s = Some p /\ term = stringTerminator)
  \/ (indexOf stringTerminator s = None /\ alt <> EmptyString
      /\ indexOf alt s = Some p /\ term = alt).

(** The text holds a '5' in front of the final 'm' of a control sequence,
    next to it or with one semicolon between the two. *)
Definition fiveBeforeTerminator (s : string) : bool :=
  contains s "5m" || contains s "5;m".

(** [Subsequence t s]: [t] is [s] with some of its characters left out. *)
Inductive Subsequence : string -> string -> Prop :=
| Subsequence_end : Subsequence EmptyString EmptyString
| Subsequence_keep (c : ascii) (t s : string) :
    Subsequence t s -> Subsequence (String c t) (String c s)
| Subsequence_skip (c : ascii) (t s : string) :
    Subsequence t s -> Subsequence t (String c s).

(** The text of a list of runs, as [vt100Processing] accumulates it. *)
Definition textOf (runs : list FormattedText) : string :=
  QStr.concat (map text runs).

(** The characters the digit scan of lines 748-768 reads. *)
Fixpoint allParameters (s : string) : bool :=
  match s with
  | EmptyString => true
  | String c s' => (isDigit c || Ascii.eqb c semicolon) && allParameters s'
  end.

(** The start of a sequence that may still be completed: nothing, the
    escape character, or the introducer with digits and semicolons. *)
Definition partialSequence (p : string) : bool :=
  startsWith escape p
  || (startsWith p escape
      && allParameters (remove0 (String.length escape) p)).

(** The pending text of a handler that skips no string argument is the
    start of a sequence. *)
Definition holdsPartialSequence (h : Handler) : Prop :=
  m_waitingForTerminator h = false ->
  partialSequence (m_pendingText h) = true.

(** What a handler holds when a call has returned: nothing pending; or
    the start of the introducer; or the introducer and parameter text the
    digit scan read to its end; or, while a string argument is skipped,
    text without a terminator. *)
Definition settled (h : Handler) : Prop :=
  m_pendingText h = EmptyString
  \/ (m_waitingForTerminator h = false
      /\ startsWith escape (m_pendingText h) = true)
  \/ (m_waitingForTerminator h = false
      /\ exists ds numbers,
           m_pendingText h = escape ++ ds
           /\ ds <> EmptyString
           /\ unmarked ds
           /\ startsWith ds eraseToEol = false
           /\ scanNumbers EmptyString [] escape ds
              = (numbers, escape ++ ds, EmptyString))
  \/ (m_waitingForTerminator h = true
      /\ indexOf stringTerminator (m_pendingText h) = None
      /\ (m_alternateTerminator h = EmptyString
          \/ indexOf (m_alternateTerminator h) (m_pendingText h) = None)).

(** A run, a handler, the locals and a step with the formats taken
    out. *)
Definition plainRun (t : FormattedText) : FormattedText :=
  mkText (text t) defaultFormat.

Definition plainHandler (h : Handler) : Handler :=
  mkHandler true (m_waitingForTerminator h) (m_alternateTerminator h)
            defaultFormat (m_pendingText h).

Definition plainLocals (l : Locals) : Locals :=
  mkLocals (plainHandler (handler l)) (map plainRun (outputData l))
           defaultFormat.

Definition plainStep (r : Step) : Step :=
  match r with
  | Again l s => Again (plainLocals l) s
  | Leave l s => Leave (plainLocals l) s
  | Exit h out call => Exit (plainHandler h) (map plainRun out) call
  | Crash => Crash
  | NoFuel => NoFuel
  end.

Definition plainOutcome (r : Outcome) : Outcome :=
  match r with
  | Parsed h out call => Parsed (plainHandler h) (map plainRun out) call
  | r => r
  end.

(** Two results of [addText] with the same document and handlers that
    differ in their formats at most. *)
Definition sameDocument (a b : option Terminal) : Prop :=
  match a, b with
  | Some t1, Some t2 =>
      m_textEdit t1 = m_textEdit t2
      /\ plainHandler (m_escapeCodeHandler t1)
         = plainHandler (m_escapeCodeHandler t2)
  | None, None => True
  | _, _ => False
  end.

(** One attribute of a format set, the other two as they were. *)
Definition foregroundSet (c : option QColor) (f f' : QTextCharFormat)
  : Prop :=
  foreground f' = c /\ background f' = background f /\ bold f' = bold f.

Definition backgroundSet (c : option QColor) (f f' : QTextCharFormat)
  : Prop :=
  background f' = c /\ foreground f' = foreground f /\ bold f' = bold f.

Definition boldSet (f f' : QTextCharFormat) : Prop :=
  bold f' = true
  /\ foreground f' = foreground f /\ background f' = background f.

(** A handler with its format scope open on the format [f']. *)
Definition scopeOpenOn (f' : QTextCharFormat) (h h' : Handler) : Prop :=
  m_previousFormat h' = f'
  /\ m_previousFormatClosed h' = false
  /\ m_waitingForTerminator h' = m_waitingForTerminator h
  /\ m_alternateTerminator h' = m_alternateTerminator h
  /\ m_pendingText h' = m_pendingText h.

(** ** The scroll bar policy of the terminal *)

Module View.

(** [Qt::ScrollBarPolicy], the two values the terminal sets. *)
Inductive ScrollBarPolicy : Type :=
| ScrollBarAlwaysOff
| ScrollBarAlwaysOn.

(** [qCeil(double)], [int(std::ceil(v))]: a double is a rational; [None]
    when the ceiling is no [int]. *)
Definition qCeil (v : Q) : option Z :=
  let c := Qceiling v in
  if (-2147483648 <=? c) && (c <=? 2147483647) then Some c else None.

(** [Terminal::updateScrollbarVisibility], lines 502-515: [ratio] is the
    double [height() / fontMetrics().height()], [lineCount] the block
    count of the document; the result is the policy the text edit is
    given. *)
Definition updateScrollbarVisibility (autoscroll : bool) (ratio : Q)
           (lineCount : Z) : option ScrollBarPolicy :=
  match qCeil ratio with
  | None => None
  | Some visibleLines =>
      Some (if autoscroll || (lineCount <=? visibleLines)
            then ScrollBarAlwaysOff else ScrollBarAlwaysOn)
  end.

End View.

Import View.

(** Two ways a loop can end that agree on the handler, on the joined text
    of the runs and on the call on the text edit. *)
Definition sameTextStep (a b : Step) : Prop :=
  match a, b with
  | Leave l1 _, Leave l2 _ =>
      handler l1 = handler l2
      /\ textOf (outputData l1) = textOf (outputData l2)
  | Exit h1 o1 c1, Exit h2 o2 c2 =>
      h1 = h2 /\ textOf o1 = textOf o2 /\ c1 = c2
  | Crash, Crash => True
  | _, _ => False
  end.

(** Two outcomes of [parseText] that agree on the handler, on the joined
    text of the runs and on the call on the text edit, or fail alike. *)
Definition sameText (a b : Outcome) : Prop :=
  match a, b with
  | Parsed h1 o1 c1, Parsed h2 o2 c2 =>
      h1 = h2 /\ textOf o1 = textOf o2 /\ c1 = c2
  | IndexOutOfRange, IndexOutOfRange => True
  | _, _ => False
  end.

(** The outer loop with the fuel its text asks for. *)
Definition outerLoop (inputFormat : QTextCharFormat) (l : Locals)
           (s : string) : Step :=
  loop (outerBody inputFormat) (S (String.length s)) l s.

(** ** Proof steps shared by the case analyses *)

(** Case analysis on the tests of a hypothesis. *)
Ltac split_ifs :=
  repeat match goal with
         | H : context [if ?b then _ else _] |- _ => destruct b eqn:?
         | H : context [match ?x with Some _ => _ | None => _ end] |- _ =>
             destruct x eqn:?
         end.

(** Case analysis along the branches of the inner body, for a goal that
    mentions [innerBody input l s]. *)
Ltac inner_cases s :=
  unfold innerBody, escapeLetter, controlSequence;
  let c0 := fresh "c0" in
  let s0 := fresh "s0" in
  destruct s as [|c0 s0];
  [ idtac
  | destruct (negb (Ascii.eqb ESC c0)) eqn:Hesc;
    [ idtac
    | destruct (startsWith escape (String c0 s0)) eqn:Hinc;
      [ idtac
      | destruct (negb (startsWith (String c0 s0) escape)) eqn:Hcsi;
        [ let c1 := fresh "c1" in
          destruct (at_ 1 (String c0 s0)) as [c1|] eqn:Hc1;
          [ destruct (isIgnoredLetter c1) eqn:Hign;
            [ idtac
            | destruct (Ascii.eqb c1 "]") eqn:Hosc;
              [ idtac | destruct (isStringLetter c1) eqn:Hstr ] ]
          | idtac ]
        | destruct (contains (toUpper (remove0 (String.length escape)
                                               (String c0 s0))) "2K")
                   eqn:H2K;
          [ idtac
          | destruct (contains (toUpper (remove0 (String.length escape)
                                                 (String c0 s0))) "2J")
                     eqn:H2J;
            [ idtac
            | destruct (startsWith (remove0 (String.length escape)
                                            (String c0 s0)) eraseToEol)
                       eqn:HK;
              [ idtac
              | let numbers := fresh "numbers" in
                let pend := fresh "pend" in
                let s2 := fresh "s2" in
                destruct (scanNumbers "" []
                            (pending (appendPending
                                        (left (String.length escape)
                                              (String c0 s0)) _))
                            (remove0 (String.length escape) (String c0 s0)))
                  as [[numbers pend] s2] eqn:Hscan;
                destruct (isEmpty s2) eqn:Hs2;
                [ idtac
                | destruct (negb (startsWith s2 colorTerminator)) eqn:Hm;
                  [ idtac
                  | match goal with
                    | |- context [applyCodes ?i ?n ?x] =>
                        let l5 := fresh "l5" in
                        destruct (applyCodes i n x) as [l5|] eqn:Hcodes
                    end ] ] ] ] ] ] ] ] ].

(** * Properties *)

(** ** Strings *)

Section StringFacts.

Lemma isEmpty_true (s : string) : isEmpty s = true <-> s = EmptyString.
Proof. destruct s; simpl; split; congruence. Qed.

Lemma isEmpty_false (s : string) : isEmpty s = false <-> s <> EmptyString.
Proof. destruct s; simpl; split; congruence. Qed.

Lemma append_empty_r (s : string) : s ++ "" = s.
Proof. induction s; simpl; congruence. Qed.

Lemma append_assoc (a b c : string) : (a ++ b) ++ c = a ++ (b ++ c).
Proof. induction a; simpl; congruence. Qed.

Lemma length_append (a b : string) :
  String.length (a ++ b) = (String.length a + String.length b)%nat.
Proof. induction a; simpl; congruence. Qed.

Lemma left_append (a b : string) : left (String.length a) (a ++ b) = a.
Proof. induction a; simpl; [destruct b|]; congruence. Qed.

Lemma remove0_append (a b : string) : remove0 (String.length a) (a ++ b) = b.
Proof. induction a; simpl; [destruct b|]; congruence. Qed.

Lemma remove0_length (n : nat) (s : string) :
  String.length (remove0 n s) = (String.length s - n)%nat.
Proof.
  revert s; induction n; intros [|c s]; simpl; auto.
Qed.

Lemma left_remove0 (n : nat) (s : string) : left n s ++ remove0 n s = s.
Proof.
  revert s; induction n; intros [|c s]; simpl; auto.
  now rewrite IHn.
Qed.

Lemma indexOfChar_append (c : ascii) (t rest : string) :
  indexOfChar c t = None ->
  indexOfChar c (t ++ String c rest) = Some (String.length t).
Proof.
  induction t as [|b t IH]; simpl.
  - now rewrite Ascii.eqb_refl.
  - destruct (Ascii.eqb b c); [discriminate|].
    destruct (indexOfChar c t); [discriminate|].
    intros _. now rewrite IH.
Qed.

Lemma indexOfChar_bound (c : ascii) (s : string) (n : nat) :
  indexOfChar c s = Some n -> (n < String.length s)%nat.
Proof.
  revert n; induction s as [|b s IH]; simpl; intros n; [discriminate|].
  destruct (Ascii.eqb b c).
  - intros [= <-]. lia.
  - destruct (indexOfChar c s) as [m|]; simpl; [|discriminate].
    intros [= <-]. specialize (IH m eq_refl). lia.
Qed.

Lemma indexOfChar_left (c : ascii) (s : string) (n : nat) :
  indexOfChar c s = Some n -> indexOfChar c (left n s) = None.
Proof.
  revert n; induction s as [|b s IH]; simpl; intros n; [discriminate|].
  destruct (Ascii.eqb b c) eqn:E.
  - now intros [= <-].
  - destruct (indexOfChar c s) as [m|]; simpl; [|discriminate].
    intros [= <-]. simpl. rewrite E. now rewrite (IH m eq_refl).
Qed.

Lemma indexOfChar_at (c : ascii) (s : string) (n : nat) :
  indexOfChar c s = Some n -> at_ 0 (remove0 n s) = Some c.
Proof.
  revert n; induction s as [|b s IH]; simpl; intros n; [discriminate|].
  destruct (Ascii.eqb b c) eqn:E.
  - intros [= <-]. simpl. apply Ascii.eqb_eq in E. now subst.
  - destruct (indexOfChar c s) as [m|]; simpl; [|discriminate].
    intros [= <-]. simpl. now apply IH.
Qed.

Lemma concat_from (acc : string) (l : list string) :
  fold_left String.append l acc = acc ++ QStr.concat l.
Proof.
  unfold QStr.concat. revert acc.
  induction l as [|x l IH]; intros acc; simpl.
  - now rewrite append_empty_r.
  - rewrite IH. rewrite (IH x). now rewrite append_assoc.
Qed.


End StringFacts.

(** ** Loops *)

Section LoopFacts.

Variable body : Locals -> string -> Step.

(** A loop whose body shortens the text on every [Again] ends before the
    fuel does. *)
Hypothesis body_progress :
  forall l s l' s',
    body l s = Again l' s' -> (String.length s' < String.length s)%nat.
Hypothesis body_no_fuel : forall l s, body l s <> NoFuel.

Lemma loop_fuel (fuel : nat) (l : Locals) (s : string) :
  (String.length s < fuel)%nat ->
  loop body fuel l s <> NoFuel
  /\ forall fuel', (String.length s < fuel')%nat ->
                   loop body fuel' l s = loop body fuel l s.
Proof.
  revert l s. induction fuel as [|fuel IH]; intros l s Hlen; [lia|].
  simpl. destruct (body l s) as [l' s'| | | |] eqn:E.
  - pose proof (body_progress _ _ _ _ E) as Hp.
    destruct (IH l' s' ltac:(lia)) as [Hnf Heq].
    split; [exact Hnf|].
    intros [|fuel'] Hf; [lia|]. simpl. rewrite E. apply Heq. lia.
  - split; [discriminate|]. intros [|fuel'] Hf; [lia|]. simpl. now rewrite E.
  - split; [discriminate|]. intros [|fuel'] Hf; [lia|]. simpl. now rewrite E.
  - split; [discriminate|]. intros [|fuel'] Hf; [lia|]. simpl. now rewrite E.
  - now apply body_no_fuel in E.
Qed.

Lemma loop_never_again (fuel : nat) (l : Locals) (s : string) l' s' :
  loop body fuel l s <> Again l' s'.
Proof.
  revert l s. induction fuel as [|fuel IH]; intros l s; simpl; [discriminate|].
  destruct (body l s) eqn:E; try discriminate. apply IH.
Qed.

End LoopFacts.

(** An invariant of the locals that every pass of the body keeps holds when
    the loop is left, and a property of the returned runs that every
    [return] establishes holds for the loop. *)
Lemma loop_invariant (body : Locals -> string -> Step)
      (P : Locals -> string -> Prop) (R : Step -> Prop) :
  (forall l s l' s', P l s -> body l s = Again l' s' -> P l' s') ->
  (forall l s r, P l s -> body l s = r ->
                 match r with Again _ _ => True | _ => R r end) ->
  R NoFuel ->
  forall fuel l s, P l s -> R (loop body fuel l s).
Proof.
  intros Hagain Hother Hnf fuel.
  induction fuel as [|fuel IH]; intros l s HP; simpl; [exact Hnf|].
  destruct (body l s) as [l' s'| | | |] eqn:E.
  - apply IH. eapply Hagain; eauto.
  - apply (Hother _ _ _ HP E).
  - apply (Hother _ _ _ HP E).
  - apply (Hother _ _ _ HP E).
  - apply (Hother _ _ _ HP E).
Qed.

(** ** Termination of the two loops *)

Lemma Again_inj l s l' s' : Again l s = Again l' s' -> l' = l /\ s' = s.
Proof. intros [= -> ->]. auto. Qed.

Lemma Leave_inj l s l' s' : Leave l s = Leave l' s' -> l' = l /\ s' = s.
Proof. intros [= -> ->]. auto. Qed.

Section Termination.

Variable input : QTextCharFormat.

Lemma scanNumbers_suffix (s strNumber pend : string) (numbers : list string)
      numbers' pend' s' :
  scanNumbers strNumber numbers pend s = (numbers', pend', s') ->
  pend' ++ s' = pend ++ s /\ (String.length s' <= String.length s)%nat.
Proof.
  revert strNumber pend numbers.
  induction s as [|c s IH]; intros strNumber pend numbers; simpl.
  - intros [= <- <- <-]. split; auto.
  - destruct (isDigit c).
    + intros H. apply IH in H as [H1 H2]. split; [|lia].
      rewrite H1, append_assoc. reflexivity.
    + destruct (isEmpty strNumber || negb (Ascii.eqb c semicolon)).
      * intros [= <- <- <-]. split; auto.
      * intros H. apply IH in H as [H1 H2]. split; [|lia].
        rewrite H1, append_assoc. reflexivity.
Qed.

(** One pass of the inner body: what is left of the text. *)
Lemma innerBody_shrinks (l : Locals) (s : string) :
  match innerBody input l s with
  | Again _ s' => (String.length s' < String.length s)%nat
  | Leave _ s' =>
      (String.length s' <= String.length s)%nat
      /\ (at_ 0 s = Some ESC -> (String.length s' < String.length s)%nat)
  | NoFuel => False
  | _ => True
  end.
Proof.
  destruct (innerBody input l s) as [l' s'|l' s'| | |] eqn:E; auto;
    unfold innerBody, escapeLetter, controlSequence in E; destruct s as [|c0 s0]; try discriminate.
  - (* Again *)
    destruct (negb (Ascii.eqb ESC c0)); [discriminate|].
    destruct (startsWith escape (String c0 s0)); [discriminate|].
    destruct (negb (startsWith (String c0 s0) escape)).
    + destruct (at_ 1 (String c0 s0)); [|discriminate].
      split_ifs; try discriminate.
      apply Again_inj in E as [-> ->]. simpl. lia.
    + destruct (contains _ "2K"); [discriminate|].
      destruct (contains _ "2J"); [discriminate|].
      destruct (startsWith _ eraseToEol).
      * apply Again_inj in E as [-> ->]. rewrite !remove0_length. simpl. lia.
      * destruct (scanNumbers _ _ _ _) as [[numbers pend] s2] eqn:Es.
        apply scanNumbers_suffix in Es as [_ Hlen].
        rewrite remove0_length in Hlen.
        destruct (isEmpty s2) eqn:Hs2; [discriminate|].
        destruct (negb (startsWith s2 colorTerminator)); [discriminate|].
        destruct (applyCodes _ _ _); [|discriminate].
        apply Again_inj in E as [-> ->]. rewrite remove0_length.
        destruct s2; [discriminate|]. simpl in *. lia.
  - apply Leave_inj in E as [-> ->]. split; [lia|]. discriminate.
  - (* Leave *)
    destruct (negb (Ascii.eqb ESC c0)) eqn:Hesc.
    { apply Leave_inj in E as [-> ->]. split; [lia|]. unfold at_. simpl.
      intros [= ->]. discriminate. }
    destruct (startsWith escape (String c0 s0)).
    { apply Leave_inj in E as [-> ->]. simpl. split; lia. }
    destruct (negb (startsWith (String c0 s0) escape)).
    + destruct (at_ 1 (String c0 s0)) eqn:Hat; [|discriminate].
      assert (Hlen : (String.length (remove0 2 (String c0 s0))
                      < String.length (String c0 s0))%nat)
        by (rewrite remove0_length; simpl; lia).
      split_ifs; try discriminate; apply Leave_inj in E as [-> ->]; split; lia.
    + destruct (contains _ "2K"); [discriminate|].
      destruct (contains _ "2J"); [discriminate|].
      destruct (startsWith _ eraseToEol); [discriminate|].
      destruct (scanNumbers _ _ _ _) as [[numbers pend] s2] eqn:Es.
      apply scanNumbers_suffix in Es as [_ Hlen].
      rewrite remove0_length in Hlen. simpl in Hlen.
      destruct (isEmpty s2).
      { apply Leave_inj in E as [-> ->]. simpl. split; lia. }
      destruct (negb (startsWith s2 colorTerminator)).
      { apply Leave_inj in E as [-> ->]. rewrite remove0_length. simpl. split; lia. }
      destruct (applyCodes _ _ _); discriminate.
  - (* NoFuel *)
    destruct (negb (Ascii.eqb ESC c0)); [discriminate|].
    destruct (startsWith escape (String c0 s0)); [discriminate|].
    destruct (negb (startsWith (String c0 s0) escape)).
    + destruct (at_ 1 (String c0 s0)); [|discriminate].
      split_ifs; discriminate.
    + destruct (contains _ "2K"); [discriminate|].
      destruct (contains _ "2J"); [discriminate|].
      destruct (startsWith _ eraseToEol); [discriminate|].
      destruct (scanNumbers _ _ _ _) as [[numbers pend] s2].
      destruct (isEmpty s2); [discriminate|].
      destruct (negb (startsWith s2 colorTerminator)); [discriminate|].
      destruct (applyCodes _ _ _); discriminate.
Qed.

Lemma innerBody_progress l s l' s' :
  innerBody input l s = Again l' s' ->
  (String.length s' < String.length s)%nat.
Proof. intros E. pose proof (innerBody_shrinks l s) as H. now rewrite E in H. Qed.

Lemma innerBody_no_fuel l s : innerBody input l s <> NoFuel.
Proof. intros E. pose proof (innerBody_shrinks l s) as H. now rewrite E in H. Qed.

(** The inner loop never runs out of fuel and gives back a shorter text
    when it was entered at an escape character. *)
Lemma innerLoop_shrinks (fuel : nat) (l : Locals) (s : string) :
  (String.length s < fuel)%nat ->
  match loop (innerBody input) fuel l s with
  | Leave _ s' =>
      (String.length s' <= String.length s)%nat
      /\ (at_ 0 s = Some ESC -> (String.length s' < String.length s)%nat)
  | NoFuel | Again _ _ => False
  | _ => True
  end.
Proof.
  revert l s. induction fuel as [|fuel IH]; intros l s Hf; [lia|].
  simpl. pose proof (innerBody_shrinks l s) as Hb.
  destruct (innerBody input l s) as [l1 s1| | | |]; auto.
  specialize (IH l1 s1 ltac:(lia)).
  destruct (loop (innerBody input) fuel l1 s1); auto.
  split; [lia|]. intros _. lia.
Qed.

Lemma skipStringArgument_shrinks (l : Locals) (s : string) :
  match skipStringArgument l s with
  | Again _ s' =>
      (String.length s' <= String.length s)%nat /\ s' <> EmptyString
      \/ s' = s
  | Leave _ _ => True
  | _ => False
  end.
Proof.
  unfold skipStringArgument.
  destruct (m_waitingForTerminator (handler l)); [|now right].
  destruct (indexOf _ s) as [p|].
  - destruct (isEmpty (remove0 _ s)) eqn:E; auto.
    left. rewrite remove0_length. split; [lia|]. now apply isEmpty_false.
  - destruct (negb (isEmpty _)).
    + destruct (indexOf _ s) as [p|]; auto.
      destruct (isEmpty (remove0 _ s)) eqn:E; auto.
      left. rewrite remove0_length. split; [lia|]. now apply isEmpty_false.
    + auto.
Qed.

Lemma outerBody_shrinks (l : Locals) (s : string) :
  match outerBody input l s with
  | Again _ s' => (String.length s' < String.length s)%nat
  | NoFuel => False
  | _ => True
  end.
Proof.
  unfold outerBody.
  destruct (isEmpty s) eqn:Hs; auto.
  destruct (negb (isEmpty (pending l))); auto.
  pose proof (skipStringArgument_shrinks l s) as Hk.
  destruct (skipStringArgument l s) as [l1 s1| | | |]; auto.
  assert (Hl1 : (String.length s1 <= String.length s)%nat)
    by (destruct Hk as [[? _]| ->]; lia).
  destruct (indexOfChar ESC s1) as [escapePos|] eqn:Hi; auto.
  pose proof (indexOfChar_bound _ _ _ Hi) as Hb.
  pose proof (indexOfChar_at _ _ _ Hi) as Hat.
  assert (Hs2 : forall l2 s2,
    (match escapePos with
     | O => (l1, s1)
     | S _ => (emit (left escapePos s1) l1, remove0 escapePos s1)
     end) = (l2, s2) ->
    s2 = remove0 escapePos s1).
  { intros l2 s2. destruct escapePos; intros [= _ <-]; auto. }
  destruct (match escapePos with O => _ | S _ => _ end) as [l2 s2].
  specialize (Hs2 l2 s2 eq_refl). subst s2. rewrite Hat.
  replace (negb (Ascii.eqb ESC ESC)) with false by reflexivity.
  unfold innerLoop.
  pose proof (innerLoop_shrinks
                (S (String.length (remove0 escapePos s1))) l2
                (remove0 escapePos s1) ltac:(lia)) as Hin.
  destruct (loop _ _ l2 _); auto; try contradiction.
  destruct Hin as [_ Hin]. specialize (Hin Hat).
  rewrite remove0_length in Hin. lia.
Qed.

Lemma outerBody_progress l s l' s' :
  outerBody input l s = Again l' s' ->
  (String.length s' < String.length s)%nat.
Proof. intros E. pose proof (outerBody_shrinks l s) as H. now rewrite E in H. Qed.

Lemma outerBody_no_fuel l s : outerBody input l s <> NoFuel.
Proof. intros E. pose proof (outerBody_shrinks l s) as H. now rewrite E in H. Qed.

End Termination.

(** [parseText] comes back on every handler state and every chunk: the
    fuel of the model is never used up. *)
Lemma parseText_returns (h : Handler) (input : FormattedText) :
  parseText h input <> OutOfFuel.
Proof.
  unfold parseText.
  set (s := m_pendingText h ++ text input).
  set (l := mkLocals _ _ _).
  destruct (loop_fuel (outerBody (format input))
                      (outerBody_progress (format input))
                      (outerBody_no_fuel (format input))
                      (S (String.length s)) l s ltac:(lia)) as [Hnf _].
  destruct (loop (outerBody (format input)) (S (String.length s)) l s)
  eqn:E;
    try discriminate.
  - now apply loop_never_again in E.
  - congruence.
Qed.

(** ** The colour codes *)


Lemma paletteColor_table (n : nat) :
  (n < 256)%nat -> paletteColor (Z.of_nat n) = SpecWords.palette (Z.of_nat n).
Proof.
  intros H.
  do 256 (destruct n as [|n]; [vm_compute; reflexivity|]). lia.
Qed.

Lemma paletteColor_spec (index : Z) :
  0 <= index <= 255 -> paletteColor index = SpecWords.palette index.
Proof.
  intros H. rewrite <- (Z2Nat.id index) by lia.
  apply paletteColor_table. lia.
Qed.



(** C6: a 256-colour selection 38;5;index (foreground) or 48;5;index
    (background) with index in 0..255 assigns the colour of the
    specification's piecewise mapping: low intensity for 0..7, low intensity
    of index-8 scaled by 1.5 and clamped for 8..15, the 6x6x6 cube for
    16..231 and the grey ramp (index-232)*11 for 232..255; the other
    attributes of the format stay as they are.  ESC[38;5;20mX gives "X"
    with the cube colour of index 20, which is (0,0,204). *)
Theorem palette_selection_matches_spec :
  (forall (input : QTextCharFormat) (sel mode idx : string)
          (rest : list string) (l : Locals),
      toInt mode = 5 -> 0 <= toUInt idx <= 255 ->
      (toUInt sel = 38 ->
       exists l',
         applyCodes input (sel :: mode :: idx :: rest) l
         = applyCodes input rest l'
         /\ foreground (charFormat l')
            = Some (SpecWords.palette (toUInt idx))
         /\ background (charFormat l') = background (charFormat l)
         /\ bold (charFormat l') = bold (charFormat l)
         /\ handler l' = setFormatScope (charFormat l') (handler l)
         /\ outputData l' = outputData l)
      /\ (toUInt sel = 48 ->
          exists l',
            applyCodes input (sel :: mode :: idx :: rest) l
            = applyCodes input rest l'
            /\ background (charFormat l')
               = Some (SpecWords.palette (toUInt idx))
            /\ foreground (charFormat l') = foreground (charFormat l)
            /\ bold (charFormat l') = bold (charFormat l)
            /\ handler l' = setFormatScope (charFormat l') (handler l)
            /\ outputData l' = outputData l))
  /\ (exists (h : Handler) (run : FormattedText),
         parseText idleHandler
                   (mkText (escape ++ "38;5;20mX") defaultFormat)
         = Parsed h [run] None
         /\ text run = "X"
         /\ foreground (format run) = Some (SpecWords.palette 20)
         /\ SpecWords.palette 20 = Rgb 0 0 204
         /\ background (format run) = None
         /\ bold (format run) = false
         /\ m_previousFormat h = format run
         /\ m_previousFormatClosed h = false).
Proof.
  split.
  - intros input sel mode idx rest l Hmode Hidx.
    split; intros Hsel.
    + exists (restyle (setForeground
                         (Some (SpecWords.palette (toUInt idx)))) l).
      split; [|repeat split].
      simpl; rewrite Hsel, Hmode; simpl.
      rewrite paletteColor_spec by lia; reflexivity.
    + exists (restyle (setBackground
                         (Some (SpecWords.palette (toUInt idx)))) l).
      split; [|repeat split].
      simpl; rewrite Hsel, Hmode; simpl.
      rewrite paletteColor_spec by lia; reflexivity.
  - do 2 eexists. split; [reflexivity|]. repeat split.
Qed.

Lemma palette_selection_matches_spec_witness :
  exists l',
    applyCodes defaultFormat ["38"; "5"; "20"]
               (mkLocals idleHandler [] defaultFormat)
    = applyCodes defaultFormat [] l'
    /\ foreground (charFormat l') = Some (SpecWords.palette (toUInt "20"))
    /\ background (charFormat l') = None
    /\ bold (charFormat l') = false
    /\ handler l' = setFormatScope (charFormat l') idleHandler
    /\ outputData l' = [].
Proof.
  apply (proj1 (proj1 palette_selection_matches_spec
                      defaultFormat "38" "5" "20" []
                      (mkLocals idleHandler [] defaultFormat)
                      eq_refl ltac:(vm_compute; split; discriminate))).
  reflexivity.
Defined.

(** ** Out-of-range access in the 256-colour branch *)

(** C1: the sequence ESC[38;5m (and ESC[48;5m) ends its parameter list
    right after the mode selector 5; the 256-colour branch then reads
    [numbers.at(i + 1)] one past the end of the list, so the call does not
    produce an event list.  The RGB branch next to it checks the length and
    returns. *)
Theorem palette_selector_without_index_out_of_range
        (closed : bool) (alt : string) (prev base : QTextCharFormat) :
  parseText (mkHandler closed false alt prev EmptyString)
            (mkText (escape ++ "38;5m") base) = IndexOutOfRange
  /\ parseText (mkHandler closed false alt prev EmptyString)
               (mkText (escape ++ "48;5m") base) = IndexOutOfRange
  /\ applyCodes base ["38"; "5"]
                (mkLocals (mkHandler closed false alt prev EmptyString) []
                          base) = None
  /\ parseText (mkHandler closed false alt prev EmptyString)
               (mkText (escape ++ "38;2m") base)
     = Parsed (mkHandler closed false alt prev EmptyString) [] None.
Proof. destruct closed; repeat split; reflexivity. Qed.

(** ** Plain text *)

(** C3, as amended: a non-empty chunk without an escape character, fed to
    a handler with no pending text, a closed format scope and no string
    argument being skipped, gives exactly one run: the chunk itself in the
    caller's style, and the handler is unchanged; the concatenated texts of
    the runs are the chunk. *)
Theorem plain_chunk_single_run (h : Handler) (input : FormattedText) :
  text input <> EmptyString ->
  indexOfChar ESC (text input) = None ->
  m_pendingText h = EmptyString ->
  m_previousFormatClosed h = true ->
  m_waitingForTerminator h = false ->
  parseText h input = Parsed h [mkText (text input) (format input)] None
  /\ QStr.concat (map text [mkText (text input) (format input)])
     = text input.
Proof.
  destruct h as [closed waiting alt prev pend].
  destruct input as [t f]. simpl.
  intros Ht Hesc -> -> ->. split; [|reflexivity].
  unfold parseText. simpl.
  destruct t as [|c t]; [contradiction|].
  unfold outerBody, skipStringArgument. simpl isEmpty. simpl negb.
  cbv iota. simpl m_waitingForTerminator. cbv iota.
  rewrite Hesc. reflexivity.
Qed.

Lemma plain_chunk_single_run_witness :
  parseText idleHandler (mkText "hello" defaultFormat)
  = Parsed idleHandler [mkText "hello" defaultFormat] None
  /\ QStr.concat (map text [mkText "hello" defaultFormat]) = "hello".
Proof.
  apply (plain_chunk_single_run idleHandler (mkText "hello" defaultFormat));
    [discriminate | reflexivity | reflexivity | reflexivity | reflexivity].
Defined.

(** C3 as stated fails: after the chunk ESC ] the handler has no pending
    text and a closed format scope, yet it skips a string argument, and the
    plain chunk "abc" is kept back instead of being returned as a run. *)
Lemma plain_chunk_swallowed_while_waiting :
  let h := mkHandler true true (String BEL "") defaultFormat EmptyString in
  parseText idleHandler (mkText (String ESC "]") defaultFormat)
  = Parsed h [] None
  /\ m_pendingText h = EmptyString
  /\ m_previousFormatClosed h = true
  /\ indexOfChar ESC "abc" = None
  /\ parseText h (mkText "abc" defaultFormat)
     = Parsed (withPending "abc" h) [] None
  /\ ~ (forall (h : Handler) (input : FormattedText),
           text input <> EmptyString ->
           indexOfChar ESC (text input) = None ->
           m_pendingText h = EmptyString ->
           m_previousFormatClosed h = true ->
           exists h', parseText h input
                      = Parsed h' [mkText (text input) (format input)] None).
Proof.
  repeat split.
  intros H.
  destruct (H (mkHandler true true (String BEL "") defaultFormat EmptyString)
              (mkText "abc" defaultFormat))
    as [h' Hh']; try reflexivity; discriminate.
Qed.

(** ** Scrolling to the bottom *)

(** The conversions and the rounding on values that are exact: 30 as a
    [double] stands for the number 30; 1.5 rounds to 2; the greatest
    [double] below 0.5 rounds to 1, since adding 0.5 to it gives 1.0 in
    [double]; 3000000000 has no [int]. *)
Lemma qRound_examples :
  (exists q, valueOf (ofInt 30) = Some q /\ (q == 30 # 1)%Q)
  /\ qRound (ddiv (ofInt 30) (ofInt 20)) = Some 2
  /\ qRound (SpecFloat.S754_finite false 9007199254740991 (-54)) = Some 1
  /\ qRound (ofInt 3000000000) = None.
Proof.
  split; [|repeat split].
  eexists. split; [reflexivity|]. reflexivity.
Qed.

(** What [scrollToBottom] does once the number of visible lines is
    known. *)
Lemma scrollToBottom_cases
      (height : double) (fontHeight lineCount visibleLines : Z) :
  qRound (ddiv height (ofInt fontHeight)) = Some visibleLines ->
  (visibleLines <= 0 -> scrollToBottom height fontHeight lineCount = Some [])
  /\ (0 < visibleLines -> visibleLines < lineCount ->
      lineCount - visibleLines + 2 <= 2147483647 ->
      scrollToBottom height fontHeight lineCount
      = Some [SetMinimum 0; SetMaximum lineCount;
              SetValue (lineCount - visibleLines + 2)])
  /\ (0 < visibleLines -> lineCount <= visibleLines ->
      scrollToBottom height fontHeight lineCount
      = Some [SetMinimum 0; SetMaximum lineCount; SetValue 0]).
Proof.
  intros Hq. unfold scrollToBottom. rewrite Hq. repeat split.
  - intros Hv. now replace (visibleLines <=? 0) with true
      by (symmetry; apply Z.leb_le; lia).
  - intros Hv Hl Hfit.
    replace (visibleLines <=? 0) with false
      by (symmetry; apply Z.leb_gt; lia).
    replace (visibleLines <? lineCount) with true
      by (symmetry; apply Z.ltb_lt; lia).
    cbv zeta. unfold inInt.
    replace (-2147483648 <=? lineCount - visibleLines + 2) with true
      by (symmetry; apply Z.leb_le; lia).
    now replace (lineCount - visibleLines + 2 <=? 2147483647) with true
      by (symmetry; apply Z.leb_le; lia).
  - intros Hv Hl.
    replace (visibleLines <=? 0) with false
      by (symmetry; apply Z.leb_gt; lia).
    now replace (visibleLines <? lineCount) with false
      by (symmetry; apply Z.ltb_ge; lia).
Qed.

(** C9, as amended: for a quotient height / line height that is not
    negative, with [visibleLines] the quotient plus 0.5 cut to an [int]
    (quotient and sum taken in [double]; this is [qRound]) rather than the
    quotient rounded down, [scrollToBottom] leaves the scroll bar alone
    when [visibleLines <= 0], asks for the offset
    [lineCount - visibleLines + 2] when [lineCount > visibleLines] (and
    the offset is an [int]), and for 0 otherwise. *)
Theorem scrollToBottom_rounded_line_count
        (height : double) (fontHeight lineCount visibleLines : Z) :
  let quotient := ddiv height (ofInt fontHeight) in
  dleb zero quotient = true ->
  intOf (dadd quotient half) = Some visibleLines ->
  (visibleLines <= 0 -> scrollToBottom height fontHeight lineCount = Some [])
  /\ (0 < visibleLines -> visibleLines < lineCount ->
      lineCount - visibleLines + 2 <= 2147483647 ->
      scrollToBottom height fontHeight lineCount
      = Some [SetMinimum 0; SetMaximum lineCount;
              SetValue (lineCount - visibleLines + 2)])
  /\ (0 < visibleLines -> lineCount <= visibleLines ->
      scrollToBottom height fontHeight lineCount
      = Some [SetMinimum 0; SetMaximum lineCount; SetValue 0]).
Proof.
  intros quotient Hsign Hsum.
  apply scrollToBottom_cases. fold quotient.
  unfold qRound. now rewrite Hsign.
Qed.

Lemma scrollToBottom_rounded_line_count_witness :
  scrollToBottom (ofInt 30) 20 12
  = Some [SetMinimum 0; SetMaximum 12; SetValue (12 - 2 + 2)].
Proof.
  apply (scrollToBottom_rounded_line_count (ofInt 30) 20 12 2);
    [reflexivity | reflexivity | reflexivity | reflexivity | discriminate].
Defined.

(** C9 as stated fails: a viewport 30 high with lines 20 high has the
    quotient 1.5, which [qRound] takes to two visible lines, so a document
    of two blocks is scrolled to offset 0, where the rounded-down count of
    one line gives offset 3. *)
Lemma scrollToBottom_not_floor :
  (exists q, valueOf (ofInt 30) = Some q /\ (q == 30 # 1)%Q)
  /\ scrollToBottom (ofInt 30) 20 2
     = Some [SetMinimum 0; SetMaximum 2; SetValue 0]
  /\ requestedOffset [SetMinimum 0; SetMaximum 2; SetValue 0] = Some 0
  /\ specScrollOffset (30 # 1) 20 2 = Some 3
  /\ option_map requestedOffset (scrollToBottom (ofInt 30) 20 2)
     <> Some (specScrollOffset (30 # 1) 20 2).
Proof.
  split; [eexists; split; reflexivity|].
  repeat split. discriminate.
Qed.

(** ** The block limit of the document *)

Section BlockLimit.

Lemma enforceBlockLimit_bound (m : Z) (bs : list string) :
  0 < m -> Z.of_nat (List.length (enforceBlockLimit m bs)) <= m.
Proof.
  intros Hm. unfold enforceBlockLimit.
  destruct (0 <? m) eqn:H0; simpl.
  - destruct (m <? Z.of_nat (List.length bs)) eqn:H1.
    + apply Z.ltb_lt in H1. rewrite length_skipn. lia.
    + apply Z.ltb_ge in H1. lia.
  - apply Z.ltb_ge in H0. lia.
Qed.

Lemma enforceBlockLimit_recent (m : Z) (bs : list string) :
  0 < m -> m <= Z.of_nat (List.length bs) ->
  enforceBlockLimit m bs = skipn (List.length bs - Z.to_nat m) bs
  /\ Z.of_nat (List.length (enforceBlockLimit m bs)) = m.
Proof.
  intros Hm Hl. unfold enforceBlockLimit.
  replace (0 <? m) with true by (symmetry; now apply Z.ltb_lt). simpl.
  destruct (m <? Z.of_nat (List.length bs)) eqn:H1.
  - split; [reflexivity|]. rewrite length_skipn. lia.
  - apply Z.ltb_ge in H1.
    replace (List.length bs - Z.to_nat m)%nat with O by lia.
    split; [reflexivity|]. lia.
Qed.

Lemma enforceBlockLimit_suffix (m : Z) (bs : list string) :
  exists dropped, bs = (dropped ++ enforceBlockLimit m bs)%list.
Proof.
  unfold enforceBlockLimit.
  destruct ((0 <? m) && (m <? Z.of_nat (List.length bs))).
  - eexists. symmetry. apply firstn_skipn.
  - now exists [].
Qed.

Lemma enforceBlockLimit_unbounded (m : Z) (bs : list string) :
  m <= 0 -> enforceBlockLimit m bs = bs.
Proof.
  intros Hm. unfold enforceBlockLimit.
  now replace (0 <? m) with false by (symmetry; apply Z.ltb_ge; lia).
Qed.

Lemma removeSelectedText_limit (e : QPlainTextEdit) :
  maximumBlockCount (removeSelectedText e) = maximumBlockCount e.
Proof.
  unfold removeSelectedText.
  now destruct (positionLeb _ _).
Qed.

Lemma deletePreviousChar_limit (e : QPlainTextEdit) :
  maximumBlockCount (deletePreviousChar e) = maximumBlockCount e.
Proof.
  unfold deletePreviousChar.
  destruct (negb _).
  - apply removeSelectedText_limit.
  - destruct (position (textCursor e)) as [[|b] [|col]]; reflexivity.
Qed.

Lemma applyCall_limit (c : TextEditCall) (e : QPlainTextEdit) :
  maximumBlockCount (applyCall c e) = maximumBlockCount e.
Proof.
  destruct c; [|reflexivity].
  unfold applyCall, eraseCurrentLine, setTextCursor.
  cbn [maximumBlockCount].
  now rewrite deletePreviousChar_limit, removeSelectedText_limit.
Qed.

End BlockLimit.

(** ** Invariants of the decoder loops *)

Section ColourCodes.

Variable input : QTextCharFormat.

Lemma startsWith_left (s pre : string) :
  startsWith s pre = true -> left (String.length pre) s = pre.
Proof.
  revert s. induction pre as [|a pre IH]; intros [|b s]; simpl; auto;
    try discriminate.
  intros H. apply andb_true_iff in H as [Hab Hs].
  apply Ascii.eqb_eq in Hab. subst. now rewrite IH.
Qed.

(** A property of the locals that the two style updates keep is kept by
    the whole loop over the colour codes. *)
Lemma applyCodes_preserves (P : Locals -> Prop) :
  (forall f l, P l -> P (restyle f l)) ->
  (forall l, P l -> P (resetFormat input l)) ->
  forall (numbers : list string) (l l' : Locals),
    P l -> applyCodes input numbers l = Some l' -> P l'.
Proof.
  intros Hstyle Hreset numbers.
  remember (List.length numbers) as n eqn:Hn.
  revert numbers Hn.
  induction n as [n IH] using lt_wf_ind.
  intros numbers Hn l l' HP. destruct numbers as [|c rest]; simpl.
  - now intros [= <-].
  - assert (Hrest : forall r l0,
               (List.length r <= List.length rest)%nat ->
               P l0 -> applyCodes input r l0 = Some l' -> P l').
    { intros r l0 Hr H0 Hcall.
      apply (IH (List.length r)) in Hcall; auto. simpl in Hn. lia. }
    destruct ((30 <=? toUInt c) && (toUInt c <=? 37));
      [apply Hrest; auto|].
    destruct ((40 <=? toUInt c) && (toUInt c <=? 47));
      [apply Hrest; auto|].
    destruct (toUInt c =? 0); [apply Hrest; auto|].
    destruct (toUInt c =? 1); [apply Hrest; auto|].
    destruct (toUInt c =? 39); [apply Hrest; auto|].
    destruct (toUInt c =? 49); [apply Hrest; auto|].
    destruct ((toUInt c =? 38) || (toUInt c =? 48));
      [|apply Hrest; auto].
    destruct rest as [|mode rest1]; [now intros [= <-]|].
    destruct (toInt mode =? 2).
    { destruct rest1 as [|r [|g [|b rest2]]];
        try (now intros [= <-]).
      destruct (toUInt c =? 38); apply Hrest; simpl; auto; lia. }
    destruct (toInt mode =? 5).
    { destruct rest1 as [|idx rest2]; [discriminate|].
      destruct (toUInt c =? 38); apply Hrest; simpl; auto; lia. }
    apply Hrest; simpl; auto.
Qed.

(** The colour codes touch the format and the format scope only. *)
Lemma applyCodes_frame (numbers : list string) (l l' : Locals) :
  applyCodes input numbers l = Some l' ->
  outputData l' = outputData l
  /\ m_pendingText (handler l') = m_pendingText (handler l)
  /\ m_waitingForTerminator (handler l')
     = m_waitingForTerminator (handler l)
  /\ m_alternateTerminator (handler l')
     = m_alternateTerminator (handler l).
Proof.
  apply (applyCodes_preserves
           (fun x => outputData x = outputData l
                     /\ m_pendingText (handler x) = m_pendingText (handler l)
                     /\ m_waitingForTerminator (handler x)
                        = m_waitingForTerminator (handler l)
                     /\ m_alternateTerminator (handler x)
                        = m_alternateTerminator (handler l)));
    auto.
Qed.

End ColourCodes.

Section PendingText.

Variable input : QTextCharFormat.

(** *** What is pending when the decoder returns early *)

Lemma innerBody_quiet (l : Locals) (s : string) :
  quiet l ->
  match innerBody input l s with
  | Again l' _ => quiet l'
  | r => exitsWithIntroducer r
  end.
Proof.
  intros [Hp Hw]. inner_cases s; simpl; auto.
  - split; auto.
  - unfold pending in *. simpl. rewrite Hp. simpl.
    apply negb_false_iff in Hcsi. apply startsWith_left in Hcsi.
    simpl in Hcsi. auto.
  - unfold pending in *. simpl. rewrite Hp. simpl.
    apply negb_false_iff in Hcsi. apply startsWith_left in Hcsi.
    simpl in Hcsi. auto.
  - split; auto.
  - apply applyCodes_frame in Hcodes as (_ & H1 & H2 & _).
    unfold quiet, pending. rewrite H1, H2.
    destruct numbers; simpl; auto.
Qed.

Lemma innerLoop_quiet (fuel : nat) (l : Locals) (s : string) :
  quiet l -> exitsWithIntroducer (loop (innerBody input) fuel l s).
Proof.
  intros Hq.
  apply (loop_invariant (innerBody input) (fun x _ => quiet x)
                        exitsWithIntroducer); simpl; auto.
  - intros l0 s0 l' s' H0 E.
    pose proof (innerBody_quiet l0 s0 H0) as H. now rewrite E in H.
  - intros l0 s0 r H0 E.
    pose proof (innerBody_quiet l0 s0 H0) as H. rewrite E in H.
    now destruct r.
Qed.

Lemma skipStringArgument_quiet (l : Locals) (s : string) :
  pending l = EmptyString ->
  match skipStringArgument l s with
  | Again l' _ => quiet l'
  | Leave _ _ => True
  | _ => False
  end.
Proof.
  intros Hp. unfold skipStringArgument.
  destruct (m_waitingForTerminator (handler l)) eqn:Hw; [|now split].
  destruct (indexOf _ s) as [p|].
  - destruct (isEmpty (remove0 _ s)); auto. now split.
  - destruct (negb (isEmpty _)); auto.
    destruct (indexOf _ s) as [p|]; auto.
    destruct (isEmpty (remove0 _ s)); auto. now split.
Qed.

Lemma outerBody_quiet (l : Locals) (s : string) :
  exitsWithIntroducer (outerBody input l s).
Proof.
  unfold outerBody.
  destruct (isEmpty s); simpl; auto.
  destruct (negb (isEmpty (pending l))) eqn:Hp; simpl; auto.
  apply negb_false_iff, isEmpty_true in Hp.
  pose proof (skipStringArgument_quiet l s Hp) as Hk.
  destruct (skipStringArgument l s) as [l1 s1| | | |]; simpl; auto;
    try contradiction.
  destruct (indexOfChar ESC s1) as [escapePos|]; simpl; auto.
  assert (Hq : quiet (fst (match escapePos with
                           | O => (l1, s1)
                           | S _ => (emit (left escapePos s1) l1,
                                     remove0 escapePos s1)
                           end)))
    by (destruct escapePos; auto).
  destruct (match escapePos with O => _ | S _ => _ end) as [l2 s2].
  simpl in Hq.
  destruct (at_ 0 s2); simpl; auto.
  destruct (negb _); simpl; auto.
  unfold innerLoop.
  pose proof (innerLoop_quiet (S (String.length s2)) l2 s2 Hq) as Hin.
  destruct (loop _ _ l2 s2); simpl; auto.
Qed.

Lemma outerLoop_quiet (fuel : nat) (l : Locals) (s : string) :
  exitsWithIntroducer (loop (outerBody input) fuel l s).
Proof.
  apply (loop_invariant (outerBody input) (fun _ _ => True)
                        exitsWithIntroducer); simpl; auto.
  intros l0 s0 r _ E. pose proof (outerBody_quiet l0 s0) as H.
  rewrite E in H. now destruct r.
Qed.

End PendingText.

(** C10: a call that ends in the erase-line branch returns with the
    two-character introducer ESC [ still in the pending text (and without
    a string argument being skipped); the next call puts those two
    characters in front of its chunk, so it behaves as if the chunk began
    with ESC [ and reads the chunk's first characters as parameters and
    terminator: after ESC[2K the chunk "hello" yields only "ello", and the
    chunk "31mX" yields "X" in red. *)
Theorem erase_line_keeps_introducer_pending :
  (forall (h : Handler) (input : FormattedText) (h' : Handler)
          (out : list FormattedText),
      parseText h input = Parsed h' out (Some ClearCurrentLine) ->
      m_pendingText h' = escape /\ m_waitingForTerminator h' = false)
  /\ (forall (h' : Handler) (next : FormattedText),
         m_pendingText h' = escape ->
         parseText h' next
         = parseText (withPending EmptyString h')
                     (mkText (escape ++ text next) (format next)))
  /\ parseText idleHandler (mkText (escape ++ "2K") defaultFormat)
     = Parsed (withPending escape idleHandler) [] (Some ClearCurrentLine)
  /\ parseText (withPending escape idleHandler)
               (mkText "hello" defaultFormat)
     = Parsed idleHandler [mkText "ello" defaultFormat] None
  /\ parseText (withPending escape idleHandler)
               (mkText "31mX" defaultFormat)
     = Parsed (setFormatScope
                 (setForeground (Some (Rgb 170 0 0)) defaultFormat)
                 idleHandler)
              [mkText "X" (setForeground (Some (Rgb 170 0 0))
                                         defaultFormat)] None.
Proof.
  split; [|split; [|repeat split]].
  - intros h input h' out. unfold parseText.
    pose proof (outerLoop_quiet (format input)
                  (S (String.length (m_pendingText h ++ text input)))
                  (mkLocals (withPending EmptyString h) []
                     (if m_previousFormatClosed h then format input
                      else m_previousFormat h))
                  (m_pendingText h ++ text input)) as Hq.
    destruct (loop _ _ _ _); try discriminate.
    intros [= <- _ _]. exact Hq.
  - intros [closed waiting alt prev pend] next. simpl. intros ->.
    reflexivity.
Qed.

Lemma erase_line_keeps_introducer_pending_witness :
  m_pendingText (withPending escape idleHandler) = escape
  /\ m_waitingForTerminator (withPending escape idleHandler) = false.
Proof.
  apply (proj1 erase_line_keeps_introducer_pending idleHandler
               (mkText (escape ++ "2K") defaultFormat)
               (withPending escape idleHandler) []).
  reflexivity.
Defined.

(** ** The runs a call returns *)

Section Runs.

Variable input : QTextCharFormat.

Lemma Forall_emit (t : string) (l : Locals) :
  Forall literalRun (outputData l) ->
  t <> EmptyString ->
  indexOfChar ESC t = None \/ t = String ESC EmptyString ->
  Forall literalRun (outputData (emit t l)).
Proof.
  intros Hl Ht Hesc. simpl. apply Forall_app. split; auto.
  constructor; [|constructor]. split; simpl; auto.
Qed.

Lemma innerBody_runs (l : Locals) (s : string) :
  Forall literalRun (outputData l) ->
  Forall literalRun (runsOf (innerBody input l s)).
Proof.
  intros Hl. inner_cases s; simpl; auto.
  - apply (Forall_emit _ (clearPending l)); auto; [discriminate|].
    right. apply negb_false_iff, Ascii.eqb_eq in Hesc. now subst.
  - apply applyCodes_frame in Hcodes as (H1 & _). rewrite H1.
    destruct numbers; simpl; auto.
Qed.

Lemma innerLoop_runs (fuel : nat) (l : Locals) (s : string) :
  Forall literalRun (outputData l) ->
  Forall literalRun (runsOf (loop (innerBody input) fuel l s)).
Proof.
  intros Hl.
  apply (loop_invariant (innerBody input)
           (fun x _ => Forall literalRun (outputData x))
           (fun r => Forall literalRun (runsOf r))); simpl; auto.
  - intros l0 s0 l' s' H0 E.
    pose proof (innerBody_runs l0 s0 H0) as H. now rewrite E in H.
  - intros l0 s0 r H0 E.
    pose proof (innerBody_runs l0 s0 H0) as H. rewrite E in H.
    now destruct r.
Qed.

Lemma skipStringArgument_runs (l : Locals) (s : string) :
  runsOf (skipStringArgument l s) = outputData l.
Proof.
  unfold skipStringArgument.
  destruct (m_waitingForTerminator (handler l)); auto.
  destruct (indexOf _ s) as [p|].
  - destruct (isEmpty (remove0 _ s)); auto.
  - destruct (negb (isEmpty _)); auto.
    destruct (indexOf _ s) as [p|]; auto.
    destruct (isEmpty (remove0 _ s)); auto.
Qed.

Lemma left_nonempty (n : nat) (s : string) :
  s <> EmptyString -> left (S n) s <> EmptyString.
Proof. destruct s; simpl; congruence. Qed.

Lemma outerBody_runs (l : Locals) (s : string) :
  Forall literalRun (outputData l) ->
  Forall literalRun (runsOf (outerBody input l s)).
Proof.
  intros Hl. unfold outerBody.
  destruct (isEmpty s) eqn:Hs; simpl; auto.
  destruct (negb (isEmpty (pending l))); simpl; auto.
  pose proof (skipStringArgument_runs l s) as Hr.
  pose proof (skipStringArgument_shrinks l s) as Hk.
  destruct (skipStringArgument l s) as [l1 s1| | | |]; simpl in *; auto;
    try (rewrite Hr; assumption).
  assert (Hs1 : s1 <> EmptyString).
  { destruct Hk as [[_ H]| ->]; auto. now apply isEmpty_false. }
  rewrite <- Hr in Hl.
  destruct (indexOfChar ESC s1) as [escapePos|] eqn:Hi; simpl.
  - assert (Hq : Forall literalRun
                   (outputData (fst (match escapePos with
                                     | O => (l1, s1)
                                     | S _ => (emit (left escapePos s1) l1,
                                               remove0 escapePos s1)
                                     end)))).
    { destruct escapePos; auto. cbn [fst].
      apply Forall_emit; auto.
      - now apply left_nonempty.
      - left. now apply indexOfChar_left. }
    destruct (match escapePos with O => _ | S _ => _ end) as [l2 s2].
    simpl in Hq.
    destruct (at_ 0 s2); simpl; auto.
    destruct (negb _); simpl; auto.
    unfold innerLoop.
    pose proof (innerLoop_runs (S (String.length s2)) l2 s2 Hq) as Hin.
    destruct (loop _ _ l2 s2); simpl in *; auto.
  - apply Forall_emit; auto.
Qed.

Lemma outerLoop_runs (fuel : nat) (l : Locals) (s : string) :
  Forall literalRun (outputData l) ->
  Forall literalRun (runsOf (loop (outerBody input) fuel l s)).
Proof.
  intros Hl.
  apply (loop_invariant (outerBody input)
           (fun x _ => Forall literalRun (outputData x))
           (fun r => Forall literalRun (runsOf r))); simpl; auto.
  - intros l0 s0 l' s' H0 E.
    pose proof (outerBody_runs l0 s0 H0) as H. now rewrite E in H.
  - intros l0 s0 r H0 E.
    pose proof (outerBody_runs l0 s0 H0) as H. rewrite E in H.
    now destruct r.
Qed.

End Runs.

(** ** Erasing the current line *)

Section EraseLine.

Lemma remove0_all (s : string) : remove0 (String.length s) s = EmptyString.
Proof. induction s; simpl; auto. Qed.

Lemma firstn_prefix (pre rest : list string) :
  firstn (List.length pre) (pre ++ rest)%list = pre.
Proof. induction pre; simpl; [now destruct rest|congruence]. Qed.

Lemma skipn_prefix (pre rest : list string) :
  skipn (List.length pre) (pre ++ rest)%list = rest.
Proof. induction pre; simpl; auto. Qed.

Lemma block_after_prefix (pre rest : list string) (x : string) :
  block (List.length pre) (pre ++ x :: rest)%list = x.
Proof. unfold block. induction pre; simpl; auto. Qed.

Lemma endPosition_last (pre : list string) (line : string) :
  endPosition (pre ++ [line])%list = (List.length pre, String.length line).
Proof.
  unfold endPosition. rewrite length_app. simpl.
  replace (Nat.pred (List.length pre + 1)) with (List.length pre) by lia.
  now rewrite block_after_prefix.
Qed.

Lemma positionLeb_same_block (b col : nat) : positionLeb (b, O) (b, col) = true.
Proof.
  unfold positionLeb. simpl. rewrite Nat.eqb_refl. simpl.
  now rewrite orb_true_r.
Qed.

(** The document after the selection from the start of the last line to
    the end has been removed: the last block is empty, the cursor sits at
    its start. *)
Lemma erase_selection (pre : list string) (line : string) (m : Z)
      (c : QTextCursor) :
  removeSelectedText
    (moveCursor End KeepAnchor
       (moveCursor StartOfLine MoveAnchor
          (moveCursor End MoveAnchor (mkEdit (pre ++ [line])%list m c))))
  = mkEdit (pre ++ [EmptyString])%list m
           (mkCursor (List.length pre, O) (List.length pre, O)).
Proof.
  unfold moveCursor. cbn [blocks maximumBlockCount textCursor position anchor].
  rewrite endPosition_last. cbn [fst snd].
  unfold removeSelectedText.
  cbn [blocks maximumBlockCount textCursor position anchor].
  rewrite positionLeb_same_block. cbn [fst snd].
  rewrite block_after_prefix, remove0_all, firstn_prefix.
  change (S (List.length pre)) with (1 + List.length pre)%nat.
  rewrite <- skipn_skipn, skipn_prefix. simpl. reflexivity.
Qed.

Lemma eraseCurrentLine_only_block (line : string) (m : Z) (c : QTextCursor) :
  blocks (eraseCurrentLine (mkEdit [line] m c)) = [EmptyString].
Proof.
  unfold eraseCurrentLine. cbv zeta.
  change [line] with ([] ++ [line])%list.
  rewrite erase_selection. reflexivity.
Qed.

Lemma block_second_after_prefix (pre : list string) (a b : string) :
  block (S (List.length pre)) (pre ++ [a; b])%list = b.
Proof. unfold block. induction pre; simpl; auto. Qed.

Lemma skipn_past_end (pre : list string) (a b : string) :
  skipn (S (S (List.length pre))) (pre ++ [a; b])%list = [].
Proof. induction pre; simpl; auto. Qed.

Lemma eraseCurrentLine_joins (pre : list string) (prev line : string)
      (m : Z) (c : QTextCursor) :
  blocks (eraseCurrentLine (mkEdit (pre ++ [prev; line])%list m c))
  = (pre ++ [prev])%list.
Proof.
  unfold eraseCurrentLine. cbv zeta.
  change (pre ++ [prev; line])%list with (pre ++ [prev] ++ [line])%list.
  rewrite app_assoc, erase_selection.
  unfold deletePreviousChar, setTextCursor.
  cbn [blocks maximumBlockCount textCursor position anchor fst snd].
  rewrite !Nat.eqb_refl. cbn [negb andb].
  rewrite length_app. cbn [List.length].
  replace (List.length pre + 1)%nat with (S (List.length pre)) by lia.
  cbn [blocks].
  rewrite <- app_assoc.
  change ([prev] ++ [EmptyString])%list with [prev; EmptyString].
  rewrite firstn_prefix, block_after_prefix, block_second_after_prefix,
    skipn_past_end, append_empty_r.
  reflexivity.
Qed.

End EraseLine.

Lemma applyCall_block_count (c : TextEditCall) (e : QPlainTextEdit) :
  blockCount (applyCall c e) <= Z.max 1 (blockCount e).
Proof.
  destruct e as [bs m cur]. unfold blockCount. destruct c; [|simpl; lia].
  cbn [applyCall blocks].
  destruct bs as [|b bs] using rev_ind; [simpl; lia|].
  clear IHbs. destruct bs as [|prev pre] using rev_ind.
  - change ([] ++ [b])%list with [b].
    rewrite eraseCurrentLine_only_block. simpl. lia.
  - clear IHpre. rewrite <- app_assoc.
    change ([prev] ++ [b])%list with [prev; b].
    rewrite eraseCurrentLine_joins, !length_app. simpl. lia.
Qed.

(** C8: with a positive [maximumBlockCount] the document holds at most
    that many blocks after every insertion at its end, after every
    [addText] and after the limit is set, and the erase calls keep a
    document within its limit; when the appended text takes the document
    to the limit or beyond, exactly the most recent [maximumBlockCount]
    blocks are left, the blocks removed being the oldest ones; a limit of
    zero or below removes nothing. *)
Theorem block_limit_fifo :
  (forall (t : string) (e : QPlainTextEdit),
      0 < maximumBlockCount e ->
      blockCount (insertText t e) <= maximumBlockCount e)
  /\ (forall (t : string) (e : QPlainTextEdit),
         let full := appendText t (blocks e) in
         0 < maximumBlockCount e ->
         maximumBlockCount e <= Z.of_nat (List.length full) ->
         blocks (insertText t e)
         = skipn (List.length full - Z.to_nat (maximumBlockCount e)) full
         /\ blockCount (insertText t e) = maximumBlockCount e)
  /\ (forall (t : string) (e : QPlainTextEdit),
         exists dropped,
           appendText t (blocks e)
           = (dropped ++ blocks (insertText t e))%list)
  /\ (forall (t : string) (e : QPlainTextEdit),
         maximumBlockCount e <= 0 ->
         blocks (insertText t e) = appendText t (blocks e))
  /\ (forall (txt : string) (vt100 : bool) (t t' : Terminal),
         addText txt vt100 t = Some t' ->
         0 < maximumBlockCount (m_textEdit t) ->
         blockCount (m_textEdit t') <= maximumBlockCount (m_textEdit t))
  /\ (forall (m : Z) (e : QPlainTextEdit),
         0 < m -> blockCount (setMaximumBlockCount m e) <= m)
  /\ (forall (c : TextEditCall) (e : QPlainTextEdit),
         0 < maximumBlockCount e ->
         blockCount e <= maximumBlockCount e ->
         blockCount (applyCall c e) <= maximumBlockCount e).
Proof.
  repeat split.
  - intros t e Hm. apply enforceBlockLimit_bound, Hm.
  - apply enforceBlockLimit_recent; assumption.
  - apply enforceBlockLimit_recent; assumption.
  - intros t e. apply enforceBlockLimit_suffix.
  - intros t e Hm. now apply enforceBlockLimit_unbounded.
  - intros txt vt100 t t' H Hm. unfold addText in H.
    destruct vt100.
    + unfold vt100Processing in H.
      destruct (parseText _ _) as [h out call| |]; try discriminate.
      injection H as <-. unfold blockCount. cbn [m_textEdit].
      assert (Hlim : maximumBlockCount
                       match call with
                       | Some c => applyCall c (m_textEdit t)
                       | None => m_textEdit t
                       end = maximumBlockCount (m_textEdit t))
        by (destruct call; [apply applyCall_limit | reflexivity]).
      unfold insertText. cbn [blocks]. rewrite Hlim.
      apply enforceBlockLimit_bound, Hm.
    + injection H as <-. apply enforceBlockLimit_bound, Hm.
  - intros m e Hm. apply enforceBlockLimit_bound, Hm.
  - intros c e Hm Hb. pose proof (applyCall_block_count c e). lia.
Qed.

Lemma block_limit_fifo_witness :
  blocks (insertText (String "c" (String newline "d"))
                     (mkEdit ["a"; "b"] 2 (mkCursor (O, O) (O, O))))
  = ["bc"; "d"]
  /\ blockCount (insertText (String "c" (String newline "d"))
                            (mkEdit ["a"; "b"] 2 (mkCursor (O, O) (O, O))))
     = 2.
Proof.
  destruct block_limit_fifo as [_ [Hrecent _]].
  apply (Hrecent (String "c" (String newline "d"))
                 (mkEdit ["a"; "b"] 2 (mkCursor (O, O) (O, O))));
    [reflexivity | discriminate].
Defined.

(** ** Reaching a control sequence *)

Section ReachSequence.

Variable input : QTextCharFormat.

(** One pass of the outer body over literal text followed by an escape
    character: the text is emitted and the inner loop takes over. *)
Lemma outerBody_text_then_escape (l : Locals) (t rest : string) :
  pending l = EmptyString ->
  m_waitingForTerminator (handler l) = false ->
  indexOfChar ESC t = None ->
  outerBody input l (t ++ String ESC rest)
  = match innerLoop input (afterText t l) (String ESC rest) with
    | Leave l3 s3 => Again l3 s3
    | r => r
    end.
Proof.
  intros Hp Hw Ht. unfold outerBody.
  replace (isEmpty (t ++ String ESC rest)) with false
    by (now destruct t).
  rewrite Hp. cbn [isEmpty negb].
  unfold skipStringArgument. rewrite Hw.
  rewrite (indexOfChar_append ESC t rest Ht).
  destruct t as [|c t].
  - reflexivity.
  - rewrite left_append, remove0_append. reflexivity.
Qed.

(** At ESC [ with "2K" somewhere in the upper-cased rest of the text, the
    inner body returns through the erase-line branch. *)
Lemma innerBody_erase_line (l : Locals) (rest : string) :
  contains (toUpper rest) "2K" = true ->
  innerBody input l (escape ++ rest)
  = Exit (handler (appendPending escape l)) (outputData l) ClearCurrentLine.
Proof.
  intros H. destruct rest as [|c rest]; [discriminate|].
  unfold innerBody, escapeLetter, controlSequence.
  change (escape ++ String c rest)
    with (String ESC (String "[" (String c rest))).
  change (negb (Ascii.eqb ESC ESC)) with false. cbv iota.
  change (startsWith escape (String ESC (String "[" (String c rest))))
    with false. cbv iota.
  change (startsWith (String ESC (String "[" (String c rest))) escape)
    with true. cbn [negb]. cbv iota.
  change (remove0 (String.length escape)
                  (String ESC (String "[" (String c rest))))
    with (String c rest).
  change (left (String.length escape)
               (String ESC (String "[" (String c rest))))
    with escape.
  cbv zeta. rewrite H. reflexivity.
Qed.

End ReachSequence.

(** C4, as amended: when a call reaches ESC [ and the upper-cased text
    after it contains "2K", the call makes the erase-line call on the text
    edit and returns what it had emitted, dropping the sequence; this holds
    for the inner loop body at any point of a call, and for a call whose
    buffer is literal text followed by such a sequence.  On a document
    whose only block is "hello" the erase-line call leaves one empty block
    and text appended afterwards is that block's content; when earlier
    blocks exist the last block is removed together with its line break,
    the block before it becomes the last one and appended text continues
    it. *)
Theorem erase_line_marker_clears_line :
  (forall (inputFormat : QTextCharFormat) (l : Locals) (rest : string),
      contains (toUpper rest) "2K" = true ->
      innerBody inputFormat l (escape ++ rest)
      = Exit (handler (appendPending escape l)) (outputData l)
             ClearCurrentLine)
  /\ (forall (h : Handler) (input : FormattedText) (t rest : string),
         m_waitingForTerminator h = false ->
         m_pendingText h ++ text input = t ++ escape ++ rest ->
         indexOfChar ESC t = None ->
         contains (toUpper rest) "2K" = true ->
         let style :=
           if m_previousFormatClosed h then format input
           else m_previousFormat h in
         parseText h input
         = Parsed (withPending escape h)
                  (if isEmpty t then [] else [mkText t style])
                  (Some ClearCurrentLine))
  /\ (forall (line : string) (m : Z) (c : QTextCursor),
         blocks (applyCall ClearCurrentLine (mkEdit [line] m c))
         = [EmptyString])
  /\ (forall (earlier : list string) (prev line : string) (m : Z)
             (c : QTextCursor),
         blocks (applyCall ClearCurrentLine
                           (mkEdit (earlier ++ [prev; line])%list m c))
         = (earlier ++ [prev])%list)
  /\ blocks (insertText "new"
               (applyCall ClearCurrentLine
                  (mkEdit ["hello"] 0 (mkCursor (O, O) (O, O)))))
     = ["new"]
  /\ blocks (insertText "new"
               (applyCall ClearCurrentLine
                  (mkEdit ["abc"; "hello"] 0 (mkCursor (O, O) (O, O)))))
     = ["abcnew"].
Proof.
  split; [|split; [|split; [|split; [|split]]]].
  - apply innerBody_erase_line.
  - intros h input t rest Hw Hbuf Ht H2K style.
    unfold parseText. rewrite Hbuf.
    set (l := mkLocals (withPending EmptyString h) [] style).
    cbn [loop].
    change (escape ++ rest) with (String ESC (String "[" rest)).
    rewrite outerBody_text_then_escape; auto.
    unfold innerLoop. cbn [loop].
    change (String ESC (String "[" rest)) with (escape ++ rest).
    rewrite innerBody_erase_line by exact H2K.
    destruct h as [closed waiting alt prev pend].
    destruct t; reflexivity.
  - intros. apply eraseCurrentLine_only_block.
  - intros. apply eraseCurrentLine_joins.
  - reflexivity.
  - reflexivity.
Qed.

Lemma erase_line_marker_clears_line_witness :
  innerBody defaultFormat (mkLocals idleHandler [] defaultFormat)
            (escape ++ "2K")
  = Exit (withPending escape idleHandler) [] ClearCurrentLine
  /\ parseText idleHandler (mkText ("ab" ++ escape ++ "2k") defaultFormat)
     = Parsed (withPending escape idleHandler)
              [mkText "ab" defaultFormat] (Some ClearCurrentLine).
Proof.
  destruct erase_line_marker_clears_line as [Hbody [Hcall _]].
  split.
  - apply (Hbody defaultFormat (mkLocals idleHandler [] defaultFormat) "2K").
    reflexivity.
  - apply (Hcall idleHandler (mkText ("ab" ++ escape ++ "2k") defaultFormat)
                 "ab" "2k"); reflexivity.
Defined.

(** C4 as stated fails on a document with an earlier block: erasing the
    line of the last block "hello" leaves the earlier block "abc" as the
    last block, not an empty block, and appended text continues "abc". *)
Lemma erase_line_joins_previous_block :
  let e := mkEdit ["abc"; "hello"] 0 (mkCursor (O, O) (O, O)) in
  last (blocks e) EmptyString = "hello"
  /\ blocks (applyCall ClearCurrentLine e) = ["abc"]
  /\ last (blocks (applyCall ClearCurrentLine e)) EmptyString
     <> EmptyString
  /\ blocks (insertText "new" (applyCall ClearCurrentLine e)) = ["abcnew"].
Proof. repeat split. discriminate. Qed.

(** ** Text with more text behind it *)

Section AppendFacts.

Lemma toUpper_append (a b : string) :
  toUpper (a ++ b) = toUpper a ++ toUpper b.
Proof. induction a; simpl; congruence. Qed.

Lemma startsWith_empty (s : string) : startsWith s EmptyString = true.
Proof. now destruct s. Qed.

Lemma startsWith_append (s pre c : string) :
  startsWith s pre = true -> startsWith (s ++ c) pre = true.
Proof.
  revert s. induction pre as [|a pre IH]; intros [|b s]; simpl; auto;
    try discriminate.
  intros H. apply andb_true_iff in H as [-> H]. simpl. now apply IH.
Qed.

Lemma startsWith_append_long (s pre c : string) :
  (String.length pre <= String.length s)%nat ->
  startsWith (s ++ c) pre = startsWith s pre.
Proof.
  revert s. induction pre as [|a pre IH]; intros [|b s]; simpl; auto.
  - lia.
  - intros H. rewrite IH by lia. reflexivity.
Qed.

(** [x.startsWith(s ++ c)] needs [x.startsWith(s)]. *)
Lemma startsWith_of_append (x s c : string) :
  startsWith x s = false -> startsWith x (s ++ c) = false.
Proof.
  revert x. induction s as [|a s IH]; intros x; simpl; [discriminate|].
  destruct x as [|b x]; auto.
  destruct (Ascii.eqb a b); simpl; auto.
Qed.

Lemma remove0_append_long (n : nat) (s c : string) :
  (n <= String.length s)%nat -> remove0 n (s ++ c) = remove0 n s ++ c.
Proof.
  revert s. induction n as [|n IH]; intros [|b s]; simpl; auto; try lia.
  intros H. apply IH. lia.
Qed.

Lemma left_append_long (n : nat) (s c : string) :
  (n <= String.length s)%nat -> left n (s ++ c) = left n s.
Proof.
  revert s. induction n as [|n IH]; intros [|b s]; simpl; auto; try lia.
  intros H. rewrite IH by lia. reflexivity.
Qed.

Lemma at_append (n : nat) (s c : string) (x : ascii) :
  at_ n s = Some x -> at_ n (s ++ c) = Some x.
Proof.
  unfold at_. revert n. induction s as [|b s IH]; intros [|n]; simpl; auto;
    discriminate.
Qed.

Lemma at_length (n : nat) (s : string) (x : ascii) :
  at_ n s = Some x -> (n < String.length s)%nat.
Proof.
  unfold at_. revert n. induction s as [|b s IH]; intros [|n]; simpl;
    try discriminate; try lia.
  intros H. apply IH in H. lia.
Qed.

Lemma indexOfChar_append_found (c : ascii) (s x : string) (n : nat) :
  indexOfChar c s = Some n -> indexOfChar c (s ++ x) = Some n.
Proof.
  revert n. induction s as [|b s IH]; intros n; simpl; [discriminate|].
  destruct (Ascii.eqb b c); auto.
  destruct (indexOfChar c s) as [m|]; simpl; [|discriminate].
  intros [= <-]. now rewrite (IH m eq_refl).
Qed.

Lemma indexOfChar_suffix (c : ascii) (pre s : string) :
  indexOfChar c (pre ++ s) = None -> indexOfChar c s = None.
Proof.
  induction pre as [|b pre IH]; simpl; auto.
  destruct (Ascii.eqb b c); [discriminate|].
  destruct (indexOfChar c (pre ++ s)); [discriminate|]. auto.
Qed.

Lemma startsWith_length (s pre : string) :
  startsWith s pre = true -> (String.length pre <= String.length s)%nat.
Proof.
  revert s. induction pre as [|a pre IH]; intros [|b s]; simpl;
    try discriminate; try lia.
  intros H. apply andb_true_iff in H as [_ H]. apply IH in H. lia.
Qed.

Lemma indexOf_bound (sub s : string) (n : nat) :
  indexOf sub s = Some n -> (n + String.length sub <= String.length s)%nat.
Proof.
  revert n. induction s as [|b s IH]; intros n; cbn [indexOf].
  - destruct (startsWith "" sub) eqn:E; [|discriminate].
    intros [= <-]. now apply startsWith_length in E.
  - destruct (startsWith (String b s) sub) eqn:E.
    + intros [= <-]. now apply startsWith_length in E.
    + destruct (indexOf sub s) as [m|]; simpl; [|discriminate].
      intros [= <-]. specialize (IH m eq_refl). lia.
Qed.

Lemma indexOf_append_found (sub s x : string) (n : nat) :
  indexOf sub s = Some n -> indexOf sub (s ++ x) = Some n.
Proof.
  revert n. induction s as [|b s IH]; intros n.
  - cbn [indexOf]. destruct (startsWith "" sub) eqn:E; [|discriminate].
    intros [= <-]. destruct sub; [|discriminate]. now destruct x.
  - cbn [indexOf append].
    destruct (startsWith (String b s) sub) eqn:E.
    + intros [= <-].
      change (String b (s ++ x)) with (String b s ++ x).
      now rewrite startsWith_append.
    + destruct (indexOf sub s) as [m|] eqn:Em; simpl; [|discriminate].
      intros [= <-]. rewrite (IH m eq_refl).
      apply indexOf_bound in Em.
      change (String b (s ++ x)) with (String b s ++ x).
      rewrite startsWith_append_long, E by (simpl; lia).
      reflexivity.
Qed.

Lemma contains_append (s x sub : string) :
  contains (s ++ x) sub = false -> contains s sub = false.
Proof.
  unfold contains. destruct (indexOf sub s) as [n|] eqn:E; auto.
  now rewrite (indexOf_append_found sub s x n E).
Qed.

Lemma indexOf_suffix (sub pre s : string) :
  indexOf sub (pre ++ s) = None -> indexOf sub s = None.
Proof.
  induction pre as [|b pre IH]; auto.
  cbn [indexOf append].
  destruct (startsWith (String b (pre ++ s)) sub); [discriminate|].
  destruct (indexOf sub (pre ++ s)); [discriminate|]. auto.
Qed.

Lemma contains_suffix (pre s sub : string) :
  contains (pre ++ s) sub = false -> contains s sub = false.
Proof.
  unfold contains. destruct (indexOf sub (pre ++ s)) eqn:E; [discriminate|].
  now rewrite (indexOf_suffix sub pre s E).
Qed.

Lemma indexOf_single_char (c : ascii) (s : string) :
  indexOfChar c s = None -> indexOf (String c "") s = None.
Proof.
  induction s as [|b s IH]; auto.
  cbn [indexOf indexOfChar startsWith].
  rewrite (Ascii.eqb_sym b c).
  destruct (Ascii.eqb c b); [discriminate|].
  destruct (indexOfChar c s); [discriminate|].
  intros _. cbn [andb]. now rewrite IH.
Qed.

End AppendFacts.

(** ** Runs emitted before a call's loops start *)

Section EarlierRuns.

Variable input : QTextCharFormat.
Variable o : list FormattedText.

Lemma applyCodes_commute (g : Locals -> Locals) :
  (forall f l, g (restyle f l) = restyle f (g l)) ->
  (forall l, g (resetFormat input l) = resetFormat input (g l)) ->
  forall (numbers : list string) (l : Locals),
    applyCodes input numbers (g l) = option_map g (applyCodes input numbers l).
Proof.
  intros Hstyle Hreset numbers.
  remember (List.length numbers) as n eqn:Hn.
  revert numbers Hn.
  induction n as [n IH] using lt_wf_ind.
  intros numbers Hn l. destruct numbers as [|c rest]; simpl; auto.
  assert (Hrest : forall r l0,
             (List.length r <= List.length rest)%nat ->
             applyCodes input r (g l0) = option_map g (applyCodes input r l0)).
  { intros r l0 Hr. apply (IH (List.length r)); auto. simpl in Hn. lia. }
  destruct ((30 <=? toUInt c) && (toUInt c <=? 37));
    [rewrite <- Hstyle; apply Hrest; auto|].
  destruct ((40 <=? toUInt c) && (toUInt c <=? 47));
    [rewrite <- Hstyle; apply Hrest; auto|].
  destruct (toUInt c =? 0); [rewrite <- Hreset; apply Hrest; auto|].
  destruct (toUInt c =? 1); [rewrite <- Hstyle; apply Hrest; auto|].
  destruct (toUInt c =? 39); [rewrite <- Hstyle; apply Hrest; auto|].
  destruct (toUInt c =? 49); [rewrite <- Hstyle; apply Hrest; auto|].
  destruct ((toUInt c =? 38) || (toUInt c =? 48));
    [|apply Hrest; auto].
  destruct rest as [|mode rest1]; auto.
  destruct (toInt mode =? 2).
  { destruct rest1 as [|r [|g0 [|b rest2]]]; auto.
    destruct (toUInt c =? 38); rewrite <- Hstyle; apply Hrest; simpl; lia. }
  destruct (toInt mode =? 5).
  { destruct rest1 as [|idx rest2]; auto.
    destruct (toUInt c =? 38); rewrite <- Hstyle; apply Hrest; simpl; lia. }
  apply Hrest; simpl; auto.
Qed.

Lemma emit_addRuns (t : string) (l : Locals) :
  emit t (addRuns o l) = addRuns o (emit t l).
Proof. unfold emit, addRuns. simpl. now rewrite app_assoc. Qed.

Lemma innerBody_addRuns (l : Locals) (s : string) :
  innerBody input (addRuns o l) s = prefixRuns o (innerBody input l s).
Proof.
  unfold innerBody, escapeLetter, controlSequence.
  destruct s as [|c0 s0]; auto.
  destruct (negb (Ascii.eqb ESC c0)); auto.
  destruct (startsWith escape (String c0 s0)); auto.
  destruct (negb (startsWith (String c0 s0) escape)).
  - destruct (at_ 1 (String c0 s0)) as [c1|]; auto.
    destruct (isIgnoredLetter c1); auto.
    destruct (Ascii.eqb c1 "]"); auto.
    destruct (isStringLetter c1); auto.
    change (clearPending (addRuns o l)) with (addRuns o (clearPending l)).
    now rewrite emit_addRuns.
  - destruct (contains _ "2K"); [simpl; auto|].
    destruct (contains _ "2J"); auto.
    destruct (startsWith _ eraseToEol); auto.
    change (pending (appendPending (left (String.length escape)
                                         (String c0 s0)) (addRuns o l)))
      with (pending (appendPending (left (String.length escape)
                                         (String c0 s0)) l)).
    destruct (scanNumbers _ _ _ _) as [[numbers pend] s2].
    destruct (isEmpty s2); auto.
    destruct (negb (startsWith s2 colorTerminator)); auto.
    match goal with
    | |- context [applyCodes input numbers ?x] =>
        match x with
        | context [addRuns] =>
            replace x with
              (addRuns o match numbers with
                       | [] => resetFormat input
                                 (clearPending
                                    (setPending pend
                                       (appendPending
                                          (left (String.length escape)
                                                (String c0 s0)) l)))
                       | _ :: _ =>
                           clearPending
                             (setPending pend
                                (appendPending
                                   (left (String.length escape)
                                         (String c0 s0)) l))
                       end)
            by (destruct numbers; reflexivity)
        end
    end.
    rewrite (applyCodes_commute (addRuns o)) by reflexivity.
    destruct (applyCodes input numbers _); reflexivity.
Qed.

Lemma loop_addRuns (body : Locals -> string -> Step) :
  (forall l s, body (addRuns o l) s = prefixRuns o (body l s)) ->
  forall fuel l s,
    loop body fuel (addRuns o l) s = prefixRuns o (loop body fuel l s).
Proof.
  intros Hbody fuel. induction fuel as [|fuel IH]; intros l s; simpl; auto.
  rewrite Hbody. destruct (body l s) as [l' s'| |h out [|]| |]; simpl; auto.
Qed.

Lemma skipStringArgument_addRuns (l : Locals) (s : string) :
  skipStringArgument (addRuns o l) s = prefixRuns o (skipStringArgument l s).
Proof.
  unfold skipStringArgument. cbn [addRuns handler].
  destruct (m_waitingForTerminator (handler l)); auto.
  destruct (indexOf _ s) as [p|].
  - destruct (isEmpty (remove0 _ s)); auto.
  - destruct (negb (isEmpty _)); auto.
    destruct (indexOf _ s) as [p|]; auto.
    destruct (isEmpty (remove0 _ s)); auto.
Qed.

Lemma outerBody_addRuns (l : Locals) (s : string) :
  outerBody input (addRuns o l) s = prefixRuns o (outerBody input l s).
Proof.
  unfold outerBody.
  destruct (isEmpty s); auto.
  change (pending (addRuns o l)) with (pending l).
  destruct (negb (isEmpty (pending l))); auto.
  rewrite skipStringArgument_addRuns.
  destruct (skipStringArgument l s) as [l1 s1| |h out [|]| |]; simpl; auto.
  destruct (indexOfChar ESC s1) as [escapePos|].
  - assert (H : (match escapePos with
                 | O => (addRuns o l1, s1)
                 | S _ => (emit (left escapePos s1) (addRuns o l1),
                           remove0 escapePos s1)
                 end)
                = (addRuns o (fst (match escapePos with
                                 | O => (l1, s1)
                                 | S _ => (emit (left escapePos s1) l1,
                                           remove0 escapePos s1)
                                 end)),
                   snd (match escapePos with
                        | O => (l1, s1)
                        | S _ => (emit (left escapePos s1) l1,
                                  remove0 escapePos s1)
                        end)))
      by (destruct escapePos; [reflexivity | now rewrite emit_addRuns]).
    rewrite H. clear H.
    destruct (match escapePos with O => _ | S _ => _ end) as [l2 s2].
    cbn [fst snd].
    destruct (at_ 0 s2); auto.
    destruct (negb _); auto.
    unfold innerLoop.
    rewrite (loop_addRuns (innerBody input) innerBody_addRuns).
    destruct (loop _ _ l2 s2) as [| |h out [|]| |]; reflexivity.
  - now rewrite emit_addRuns.
Qed.

Lemma outerLoop_addRuns (fuel : nat) (l : Locals) (s : string) :
  loop (outerBody input) fuel (addRuns o l) s
  = prefixRuns o (loop (outerBody input) fuel l s).
Proof. apply loop_addRuns, outerBody_addRuns. Qed.

End EarlierRuns.

(** ** A call on a chunk with more text behind it *)

Section Resume.

Variable input : QTextCharFormat.
Variable c2 : string.

Lemma clean_suffix (pre s : string) : clean c2 (pre ++ s) -> clean c2 s.
Proof.
  intros (H1 & H2 & H3). unfold clean.
  rewrite append_assoc, toUpper_append in H1, H2.
  repeat split.
  - now apply contains_suffix in H1.
  - now apply contains_suffix in H2.
  - now apply indexOfChar_suffix in H3.
Qed.

Lemma clean_remove0 (n : nat) (s : string) : clean c2 s -> clean c2 (remove0 n s).
Proof.
  intros H. apply (clean_suffix (left n s)). now rewrite left_remove0.
Qed.

Lemma scanNumbers_split (s strNumber pend : string) (numbers : list string)
      numbers' pend' s' :
  scanNumbers strNumber numbers pend s = (numbers', pend', s') ->
  exists consumed, s = consumed ++ s' /\ pend' = pend ++ consumed.
Proof.
  revert strNumber pend numbers.
  induction s as [|c s IH]; intros strNumber pend numbers; simpl.
  - intros [= <- <- <-]. exists EmptyString.
    split; [reflexivity | now rewrite append_empty_r].
  - destruct (isDigit c).
    + intros H. apply IH in H as (consumed & -> & ->).
      exists (String c consumed).
      split; [reflexivity | now rewrite append_assoc].
    + destruct (isEmpty strNumber || negb (Ascii.eqb c semicolon)).
      * intros [= <- <- <-]. exists EmptyString.
        split; [reflexivity | now rewrite append_empty_r].
      * intros H. apply IH in H as (consumed & -> & ->).
        exists (String c consumed).
        split; [reflexivity | now rewrite append_assoc].
Qed.

(** The digit scan stops at the same place when text follows, unless it
    ran to the end. *)
Lemma scanNumbers_append (s strNumber pend : string) (numbers : list string)
      numbers' pend' s' :
  scanNumbers strNumber numbers pend s = (numbers', pend', s') ->
  s' <> EmptyString ->
  scanNumbers strNumber numbers pend (s ++ c2) = (numbers', pend', s' ++ c2).
Proof.
  revert strNumber pend numbers.
  induction s as [|c s IH]; intros strNumber pend numbers; simpl.
  - intros [= <- <- <-]. contradiction.
  - destruct (isDigit c); [apply IH|].
    destruct (isEmpty strNumber || negb (Ascii.eqb c semicolon)).
    + intros [= <- <- <-]. reflexivity.
    + apply IH.
Qed.

Lemma escapeLetter_lockstep (l : Locals) (s : string) (c1 : ascii) :
  at_ 1 s = Some c1 ->
  match escapeLetter l s with
  | Again l' s' => escapeLetter l (s ++ c2) = Again l' (s' ++ c2)
  | Leave l' s' =>
      escapeLetter l (s ++ c2) = Leave l' (s' ++ c2)
      /\ pending l' = pending l
  | Exit _ _ _ => False
  | _ => True
  end.
Proof.
  intros Hc1. pose proof (at_length _ _ _ Hc1) as Hlen.
  unfold escapeLetter.
  rewrite (at_append 1 s c2 c1 Hc1), Hc1.
  rewrite !remove0_append_long, left_append_long by lia.
  destruct (isIgnoredLetter c1); auto.
  destruct (Ascii.eqb c1 "]"); auto.
  destruct (isStringLetter c1); auto.
Qed.

Lemma controlSequence_lockstep (l1 : Locals) (s1 : string) :
  s1 <> EmptyString ->
  contains (toUpper (s1 ++ c2)) "2K" = false ->
  contains (toUpper (s1 ++ c2)) "2J" = false ->
  match controlSequence input l1 s1 with
  | Again l' s' => controlSequence input l1 (s1 ++ c2) = Again l' (s' ++ c2)
  | Leave l' s' =>
      (pending l' = EmptyString
       /\ controlSequence input l1 (s1 ++ c2) = Leave l' (s' ++ c2))
      \/ (s' = EmptyString /\ l' = setPending (pending l1 ++ s1) l1)
  | Exit _ _ _ => False
  | _ => True
  end.
Proof.
  intros Hne H2K H2J. unfold controlSequence.
  rewrite H2K, H2J.
  rewrite toUpper_append in H2K, H2J.
  apply contains_append in H2K, H2J. rewrite H2K, H2J.
  assert (Hlen : (1 <= String.length s1)%nat)
    by (destruct s1; [contradiction | simpl; lia]).
  rewrite (startsWith_append_long s1 eraseToEol c2) by exact Hlen.
  destruct (startsWith s1 eraseToEol).
  { now rewrite remove0_append_long. }
  destruct (scanNumbers "" [] (pending l1) s1) as [[numbers pend] s2] eqn:Hscan.
  destruct (isEmpty s2) eqn:Hs2.
  { right. apply isEmpty_true in Hs2. subst s2. split; auto.
    apply scanNumbers_split in Hscan as (consumed & -> & ->).
    now rewrite append_empty_r. }
  apply isEmpty_false in Hs2.
  rewrite (scanNumbers_append _ _ _ _ _ _ _ Hscan Hs2).
  replace (isEmpty (s2 ++ c2)) with false by (now destruct s2).
  assert (Hlen2 : (1 <= String.length s2)%nat)
    by (destruct s2; [contradiction | simpl; lia]).
  rewrite (startsWith_append_long s2 colorTerminator c2) by exact Hlen2.
  rewrite remove0_append_long by exact Hlen2.
  destruct (negb (startsWith s2 colorTerminator)).
  { left. split; reflexivity. }
  destruct (applyCodes input numbers _); auto.
Qed.

Lemma innerBody_lockstep (l : Locals) (s : string) :
  quiet l ->
  contains (toUpper (s ++ c2)) "2K" = false ->
  contains (toUpper (s ++ c2)) "2J" = false ->
  match innerBody input l s with
  | Again l' s' => innerBody input l (s ++ c2) = Again l' (s' ++ c2)
  | Leave l' s' =>
      (pending l' = EmptyString
       /\ (s <> EmptyString ->
           innerBody input l (s ++ c2) = Leave l' (s' ++ c2)))
      \/ (s' = EmptyString /\ at_ 0 s = Some ESC /\ l' = setPending s l)
  | Exit _ _ _ => False
  | _ => True
  end.
Proof.
  intros [Hp Hw] H2K H2J.
  destruct s as [|c0 s0].
  { left. split; auto. intros H. contradiction. }
  unfold innerBody. cbn [append].
  destruct (negb (Ascii.eqb ESC c0)) eqn:Hesc.
  { left. split; auto. }
  apply negb_false_iff, Ascii.eqb_eq in Hesc. subst c0.
  change (String ESC (s0 ++ c2)) with (String ESC s0 ++ c2).
  destruct (startsWith escape (String ESC s0)) eqn:Hinc.
  { right. repeat split. unfold appendPending. now rewrite Hp. }
  rewrite (startsWith_of_append escape (String ESC s0) c2 Hinc).
  assert (Hlen : (2 <= String.length (String ESC s0))%nat).
  { destruct s0 as [|c s0]; [discriminate|]. simpl. lia. }
  rewrite (startsWith_append_long (String ESC s0) escape c2) by exact Hlen.
  destruct (negb (startsWith (String ESC s0) escape)) eqn:Hcsi.
  - destruct s0 as [|c1 s0]; [discriminate|].
    pose proof (escapeLetter_lockstep l (String ESC (String c1 s0)) c1 eq_refl)
      as Hl.
    destruct (escapeLetter l (String ESC (String c1 s0))); auto.
    left. destruct Hl as [Hl1 Hl2]. split; [congruence|auto].
  - apply negb_false_iff in Hcsi.
    rewrite left_append_long, remove0_append_long by exact Hlen.
    assert (Hrest : remove0 (String.length escape) (String ESC s0)
                    <> EmptyString).
    { destruct s0 as [|a [|b s0]]; try discriminate.
      exfalso. cbn [startsWith escape] in Hcsi, Hinc.
      rewrite Ascii.eqb_refl in Hcsi, Hinc.
      rewrite (Ascii.eqb_sym a "[") in Hinc. congruence. }
    assert (Hsplit : String ESC s0 ++ c2
                     = left (String.length escape) (String ESC s0)
                       ++ (remove0 (String.length escape) (String ESC s0)
                           ++ c2)).
    { now rewrite <- append_assoc, left_remove0. }
    rewrite Hsplit, toUpper_append in H2K, H2J.
    apply contains_suffix in H2K, H2J.
    pose proof (controlSequence_lockstep
                  (appendPending (left (String.length escape) (String ESC s0)) l)
                  _ Hrest H2K H2J) as Hl.
    destruct (controlSequence input _ (remove0 _ (String ESC s0))); auto.
    destruct Hl as [[Hl1 Hl2]|[Hl1 Hl2]]; [left; auto|right].
    repeat split; auto. rewrite Hl2.
    change (setPending ?p (appendPending ?x l)) with (setPending p l).
    change (pending (appendPending ?x l)) with (pending l ++ x).
    rewrite Hp. cbn [append]. now rewrite left_remove0.
Qed.

Lemma isSuffix_refl s : isSuffix s s.
Proof. now exists EmptyString. Qed.

Lemma isSuffix_trans a b c : isSuffix a b -> isSuffix b c -> isSuffix a c.
Proof.
  intros [p ->] [q ->]. exists (q ++ p). now rewrite append_assoc.
Qed.

Lemma isSuffix_remove0 n s : isSuffix (remove0 n s) s.
Proof. exists (left n s). now rewrite left_remove0. Qed.

Lemma isSuffix_empty s : isSuffix EmptyString s.
Proof. exists s. now rewrite append_empty_r. Qed.

Lemma isSuffix_length s' s : isSuffix s' s -> (String.length s' <= String.length s)%nat.
Proof. intros [p ->]. rewrite length_append. lia. Qed.

Lemma clean_isSuffix s' s : isSuffix s' s -> clean c2 s -> clean c2 s'.
Proof. intros [p ->]. apply clean_suffix. Qed.

Lemma innerBody_suffix (l : Locals) (s : string) :
  stepSuffix s (innerBody input l s).
Proof.
  inner_cases s; cbn [stepSuffix];
    auto using isSuffix_refl, isSuffix_empty, isSuffix_remove0.
  - eapply isSuffix_trans; [apply isSuffix_remove0|apply isSuffix_remove0].
  - apply scanNumbers_split in Hscan as (consumed & Hc & _).
    eapply isSuffix_trans; [|apply (isSuffix_remove0 (String.length escape))].
    rewrite Hc. now exists consumed.
  - apply scanNumbers_split in Hscan as (consumed & Hc & _).
    eapply isSuffix_trans; [apply isSuffix_remove0|].
    eapply isSuffix_trans; [|apply (isSuffix_remove0 (String.length escape))].
    rewrite Hc. now exists consumed.
  - apply scanNumbers_split in Hscan as (consumed & Hc & _).
    eapply isSuffix_trans; [apply isSuffix_remove0|].
    eapply isSuffix_trans; [|apply (isSuffix_remove0 (String.length escape))].
    rewrite Hc. now exists consumed.
Qed.

Lemma loop_suffix (body : Locals -> string -> Step) :
  (forall l s, stepSuffix s (body l s)) ->
  forall fuel l s, stepSuffix s (loop body fuel l s).
Proof.
  intros Hb fuel. induction fuel as [|fuel IH]; intros l s; simpl; auto.
  pose proof (Hb l s) as H.
  destruct (body l s) as [l1 s1| | | |]; auto.
  specialize (IH l1 s1). simpl in H.
  destruct (loop body fuel l1 s1); simpl in *; auto;
    eapply isSuffix_trans; eauto.
Qed.

Lemma skipStringArgument_suffix (l : Locals) (s : string) :
  stepSuffix s (skipStringArgument l s).
Proof.
  unfold skipStringArgument.
  destruct (m_waitingForTerminator (handler l)); simpl;
    auto using isSuffix_refl.
  destruct (indexOf _ s) as [p|].
  - destruct (isEmpty (remove0 _ s)); simpl; apply isSuffix_remove0.
  - destruct (negb (isEmpty _)); simpl; auto using isSuffix_refl.
    destruct (indexOf _ s) as [p|]; simpl; auto using isSuffix_refl.
    destruct (isEmpty (remove0 _ s)); simpl; apply isSuffix_remove0.
Qed.

Lemma outerBody_suffix (l : Locals) (s : string) :
  stepSuffix s (outerBody input l s).
Proof.
  unfold outerBody.
  destruct (isEmpty s); simpl; auto using isSuffix_refl.
  destruct (negb (isEmpty (pending l))); simpl; auto using isSuffix_refl.
  pose proof (skipStringArgument_suffix l s) as Hk.
  destruct (skipStringArgument l s) as [l1 s1| | | |]; simpl in *; auto.
  destruct (indexOfChar ESC s1) as [escapePos|]; simpl; auto.
  assert (Hs2 : isSuffix (snd (match escapePos with
                               | O => (l1, s1)
                               | S _ => (emit (left escapePos s1) l1,
                                         remove0 escapePos s1)
                               end)) s).
  { destruct escapePos; cbn [snd]; auto.
    eapply isSuffix_trans; [apply isSuffix_remove0|exact Hk]. }
  destruct (match escapePos with O => _ | S _ => _ end) as [l2 s2].
  simpl in Hs2.
  destruct (at_ 0 s2); simpl; auto.
  destruct (negb _); simpl; auto.
  unfold innerLoop.
  pose proof (loop_suffix (innerBody input) innerBody_suffix
                          (S (String.length s2)) l2 s2) as Hin.
  destruct (loop _ _ l2 s2); simpl in *; auto;
    eapply isSuffix_trans; eauto.
Qed.


Lemma unmarked_isSuffix s' s : isSuffix s' s -> unmarked s -> unmarked s'.
Proof.
  intros [p ->] [H1 H2]. rewrite toUpper_append in H1, H2.
  split; eapply contains_suffix; eauto.
Qed.

Lemma clean_unmarked s : clean c2 s -> unmarked (s ++ c2).
Proof. intros (H1 & H2 & _). now split. Qed.

Lemma innerBody_noExit (l : Locals) (s : string) :
  unmarked s -> noExit (innerBody input l s).
Proof.
  intros Hu.
  assert (Hr : forall n, unmarked (remove0 n s))
    by (intros n; eapply unmarked_isSuffix; [apply isSuffix_remove0|exact Hu]).
  inner_cases s; cbn [noExit]; auto.
  - destruct (Hr (String.length escape)) as [H _]. congruence.
  - destruct (Hr (String.length escape)) as [_ H]. congruence.
Qed.

Lemma loop_noExit (body : Locals -> string -> Step) :
  (forall l s, stepSuffix s (body l s)) ->
  (forall l s, unmarked s -> noExit (body l s)) ->
  forall fuel l s, unmarked s -> noExit (loop body fuel l s).
Proof.
  intros Hs Hb fuel l s Hu.
  apply (loop_invariant body (fun _ x => unmarked x) noExit); simpl; auto.
  - intros l0 s0 l' s' H0 E. pose proof (Hs l0 s0) as H. rewrite E in H.
    eapply unmarked_isSuffix; eauto.
  - intros l0 s0 r H0 E. pose proof (Hb l0 s0 H0) as H. rewrite E in H.
    now destruct r.
Qed.

Lemma outerBody_noExit (l : Locals) (s : string) :
  unmarked s -> noExit (outerBody input l s).
Proof.
  intros Hu.
  pose proof (outerBody_suffix l s) as Hsuf. revert Hsuf.
  unfold outerBody.
  destruct (isEmpty s); simpl; auto.
  destruct (negb (isEmpty (pending l))); simpl; auto.
  pose proof (skipStringArgument_suffix l s) as Hk.
  assert (Hne : noExit (skipStringArgument l s)).
  { unfold skipStringArgument.
    destruct (m_waitingForTerminator (handler l)); simpl; auto.
    destruct (indexOf _ s) as [p|].
    - destruct (isEmpty (remove0 _ s)); simpl; auto.
    - destruct (negb (isEmpty _)); simpl; auto.
      destruct (indexOf _ s) as [p|]; simpl; auto.
      destruct (isEmpty (remove0 _ s)); simpl; auto. }
  destruct (skipStringArgument l s) as [l1 s1| | | |]; simpl in *; auto.
  destruct (indexOfChar ESC s1) as [escapePos|]; simpl; auto.
  assert (Hs2 : isSuffix (snd (match escapePos with
                               | O => (l1, s1)
                               | S _ => (emit (left escapePos s1) l1,
                                         remove0 escapePos s1)
                               end)) s).
  { destruct escapePos; cbn [snd]; auto.
    eapply isSuffix_trans; [apply isSuffix_remove0|exact Hk]. }
  destruct (match escapePos with O => _ | S _ => _ end) as [l2 s2].
  simpl in Hs2.
  destruct (at_ 0 s2); simpl; auto.
  destruct (negb _); simpl; auto.
  unfold innerLoop.
  pose proof (loop_noExit (innerBody input) innerBody_suffix innerBody_noExit
                          (S (String.length s2)) l2 s2
                          (unmarked_isSuffix _ _ Hs2 Hu)) as Hin.
  destruct (loop _ _ l2 s2); simpl in *; auto.
Qed.

Lemma innerBody_steady (l : Locals) (s : string) :
  steady input l -> stepSteady input (innerBody input l s).
Proof.
  intros [Ha Hc].
  inner_cases s; cbn [stepSteady]; auto; try (split; auto; fail).
  eapply (applyCodes_preserves input (steady input)); eauto.
  - intros f0 l0 [H1 H2]. split; auto.
  - intros l0 [H1 H2]. split; auto.
  - destruct numbers; split; auto.
Qed.

Lemma skipStringArgument_steady (l : Locals) (s : string) :
  steady input l -> stepSteady input (skipStringArgument l s).
Proof.
  intros [Ha Hc]. unfold skipStringArgument.
  destruct (m_waitingForTerminator (handler l)); simpl; [|now split].
  destruct (indexOf _ s) as [p|].
  - destruct (isEmpty (remove0 _ s)); simpl; split; auto.
  - destruct (negb (isEmpty _)); simpl; [|now split].
    destruct (indexOf _ s) as [p|]; simpl; [|now split].
    destruct (isEmpty (remove0 _ s)); simpl; split; auto.
Qed.

Lemma loop_steady (body : Locals -> string -> Step) :
  (forall l s, steady input l -> stepSteady input (body l s)) ->
  forall fuel l s, steady input l -> stepSteady input (loop body fuel l s).
Proof.
  intros Hb fuel l s Hl.
  apply (loop_invariant body (fun x _ => steady input x) (stepSteady input)); simpl; auto.
  - intros l0 s0 l' s' H0 E. pose proof (Hb l0 s0 H0) as H.
    now rewrite E in H.
  - intros l0 s0 r H0 E. pose proof (Hb l0 s0 H0) as H. rewrite E in H.
    now destruct r.
Qed.

Lemma outerBody_steady (l : Locals) (s : string) :
  steady input l -> stepSteady input (outerBody input l s).
Proof.
  intros Hl. unfold outerBody.
  destruct (isEmpty s); simpl; auto.
  destruct (negb (isEmpty (pending l))); simpl; auto.
  pose proof (skipStringArgument_steady l s Hl) as Hk.
  destruct (skipStringArgument l s) as [l1 s1| | | |]; simpl in *; auto.
  destruct (indexOfChar ESC s1) as [escapePos|]; simpl;
    [|destruct Hk; split; auto].
  assert (Hq : steady input (fst (match escapePos with
                            | O => (l1, s1)
                            | S _ => (emit (left escapePos s1) l1,
                                      remove0 escapePos s1)
                            end)))
    by (destruct escapePos; cbn [fst]; auto; destruct Hk; split; auto).
  destruct (match escapePos with O => _ | S _ => _ end) as [l2 s2].
  simpl in Hq.
  destruct (at_ 0 s2); simpl; auto.
  destruct (negb _); simpl; auto.
  unfold innerLoop.
  pose proof (loop_steady (innerBody input) innerBody_steady
                          (S (String.length s2)) l2 s2 Hq) as Hin.
  destruct (loop _ _ l2 s2); simpl in *; auto.
Qed.


Lemma clearPending_setPending (p : string) (l : Locals) :
  pending l = EmptyString -> clearPending (setPending p l) = l.
Proof.
  destruct l as [[closed waiting alt prev pend] out cf].
  unfold pending. simpl. now intros ->.
Qed.

Lemma loop_S (body : Locals -> string -> Step) (fuel : nat) (l : Locals)
      (s : string) :
  loop body (S fuel) l s
  = match body l s with
    | Again l' s' => loop body fuel l' s'
    | r => r
    end.
Proof. reflexivity. Qed.

Lemma innerLoop_sim (fuel : nat) (l : Locals) (s : string) :
  (String.length s < fuel)%nat ->
  quiet l -> s <> EmptyString -> unmarked (s ++ c2) ->
  match loop (innerBody input) fuel l s with
  | Leave l' s' =>
      (s' <> EmptyString ->
       pending l' = EmptyString
       /\ forall fuel2,
           (String.length (s ++ c2) < fuel2)%nat ->
           loop (innerBody input) fuel2 l (s ++ c2) = Leave l' (s' ++ c2))
      /\ (s' = EmptyString -> pending l' <> EmptyString ->
          quiet (clearPending l')
          /\ at_ 0 (pending l') = Some ESC
          /\ forall fuel2,
              (String.length (s ++ c2) < fuel2)%nat ->
              loop (innerBody input) fuel2 l (s ++ c2)
              = loop (innerBody input)
                     (S (String.length (pending l' ++ c2)))
                     (clearPending l') (pending l' ++ c2))
  | Exit _ _ _ => False
  | _ => True
  end.
Proof.
  revert l s. induction fuel as [|fuel IH]; intros l s Hf Hq Hne Hu; [lia|].
  rewrite (loop_S _ fuel l s).
  pose proof (innerBody_lockstep l s Hq (proj1 Hu) (proj2 Hu)) as Hlock.
  pose proof (innerBody_quiet input l s Hq) as Hquiet.
  pose proof (innerBody_suffix l s) as Hsuf.
  pose proof (innerBody_shrinks input l s) as Hshr.
  destruct (innerBody input l s) as [l1 s1|l' s'| | |] eqn:E; auto.
  - (* the loop goes round *)
    cbn [stepSuffix] in Hsuf.
    destruct s1 as [|a s1].
    + (* nothing is left: the next pass leaves the loop *)
      destruct fuel as [|fuel]; [lia|]. rewrite loop_S. cbn [innerBody].
      destruct Hquiet as [Hp1 _].
      split; [intros H; contradiction|]. intros _ H. contradiction.
    + assert (Hu1 : unmarked (String a s1 ++ c2)).
      { destruct Hsuf as [pre Hpre]. rewrite Hpre, append_assoc in Hu.
        eapply unmarked_isSuffix; [|exact Hu]. now exists pre. }
      specialize (IH l1 (String a s1) ltac:(lia) Hquiet ltac:(discriminate)
                     Hu1).
      destruct (loop (innerBody input) fuel l1 (String a s1)); auto.
      destruct IH as [IH1 IH2]. split.
      * intros Hs. destruct (IH1 Hs) as [Hp Hw]. split; [exact Hp|].
        intros [|fuel2] Hf2; [lia|]. rewrite loop_S, Hlock.
        apply Hw. rewrite length_append in *. simpl in *. lia.
      * intros Hs Hp. destruct (IH2 Hs Hp) as (G1 & G2 & G3).
        split; [exact G1|]. split; [exact G2|].
        intros [|fuel2] Hf2; [lia|]. rewrite loop_S, Hlock.
        apply G3. rewrite length_append in *. simpl in *. lia.
  - (* the loop is left at once *)
    destruct Hlock as [[Hp Hw]|(Hs & Hat & Hl)].
    + split.
      * intros _. split; [exact Hp|].
        intros [|fuel2] Hf2; [lia|]. now rewrite loop_S, (Hw Hne).
      * intros _ H. contradiction.
    + subst s' l'. split; [intros H; contradiction|].
      intros _ _. destruct Hq as [Hp0 Hw0].
      rewrite (clearPending_setPending s l Hp0).
      change (pending (setPending s l)) with s.
      split; [now split|]. split; [exact Hat|].
      intros fuel2 Hf2.
      destruct (loop_fuel (innerBody input) (innerBody_progress input)
                          (innerBody_no_fuel input)
                          (S (String.length (s ++ c2))) l (s ++ c2)
                          ltac:(lia)) as [_ Hirr].
      apply Hirr. exact Hf2.
Qed.


Lemma addRuns_resume (l : Locals) :
  addRuns (outputData l) (resume l) = clearPending l.
Proof. unfold addRuns, resume, clearPending, setPending. simpl. now rewrite app_nil_r. Qed.

Lemma outerBody_unfold (l : Locals) (s : string) :
  outerBody input l s
  = if isEmpty s then Leave l s
    else if negb (isEmpty (pending l)) then Leave l s
    else match skipStringArgument l s with
         | Again l1 s1 => afterSkip input l1 s1
         | r => r
         end.
Proof.
  unfold outerBody, afterSkip.
  destruct (isEmpty s); auto.
  destruct (negb (isEmpty (pending l))); auto.
  destruct (skipStringArgument l s) as [l1 s1| | | |]; auto.
  destruct (indexOfChar ESC s1) as [p|] eqn:Hi; auto.
  pose proof (indexOfChar_at _ _ _ Hi) as Hat.
  destruct p as [|p].
  - cbn [left remove0] in *. unfold afterText. cbn [isEmpty].
    rewrite Hat. reflexivity.
  - destruct s1 as [|a s1]; [discriminate|].
    rewrite Hat. reflexivity.
Qed.

Lemma afterSkip_lockstep (l1 : Locals) (s1 : string) :
  quiet l1 -> s1 <> EmptyString -> unmarked (s1 ++ c2) ->
  match afterSkip input l1 s1 with
  | Again l' s' =>
      (s' <> EmptyString ->
       pending l' = EmptyString
       /\ afterSkip input l1 (s1 ++ c2) = Again l' (s' ++ c2))
      /\ (s' = EmptyString -> pending l' <> EmptyString ->
          afterSkip input l1 (s1 ++ c2)
          = prefixRuns (outputData l')
                       (outerBody input (resume l') (pending l' ++ c2)))
  | Leave l' _ => pending l' = EmptyString
  | Exit _ _ _ => False
  | _ => True
  end.
Proof.
  intros Hq Hne Hu. unfold afterSkip.
  destruct (indexOfChar ESC s1) as [p|] eqn:Hi; [|apply Hq].
  rewrite (indexOfChar_append_found ESC s1 c2 p Hi).
  pose proof (indexOfChar_bound _ _ _ Hi) as Hb.
  pose proof (indexOfChar_at _ _ _ Hi) as Hat.
  rewrite left_append_long, remove0_append_long by lia.
  set (l2 := afterText (left p s1) l1).
  set (s2 := remove0 p s1) in *.
  assert (Hq2 : quiet l2) by (unfold l2, afterText; destruct (isEmpty _); apply Hq).
  assert (Hne2 : s2 <> EmptyString) by (destruct s2; discriminate).
  assert (Hu2 : unmarked (s2 ++ c2)).
  { eapply unmarked_isSuffix; [|exact Hu].
    exists (left p s1). unfold s2.
    now rewrite <- append_assoc, left_remove0. }
  unfold innerLoop.
  pose proof (innerLoop_sim (S (String.length s2)) l2 s2 ltac:(lia)
                            Hq2 Hne2 Hu2) as Hsim.
  destruct (loop (innerBody input) (S (String.length s2)) l2 s2)
    as [l' s'|l' s'| | |] eqn:E; auto.
  { now apply loop_never_again in E. }
  destruct Hsim as [Hsim1 Hsim2]. split.
  - intros Hs'. destruct (Hsim1 Hs') as [Hp Hw]. split; [exact Hp|].
    now rewrite Hw by lia.
  - intros Hs' Hp. destruct (Hsim2 Hs' Hp) as (Hq' & Hat' & Hw).
    rewrite Hw by lia.
    destruct (pending l') as [|c rest] eqn:Epend; [discriminate|].
    injection Hat' as ->.
    cbn [append].
    pose proof (outerBody_text_then_escape input (resume l') EmptyString
                  (rest ++ c2) (proj1 Hq') (proj2 Hq') eq_refl) as Ho.
    cbn [append] in Ho. rewrite Ho.
    unfold afterText. cbn [isEmpty]. unfold innerLoop.
    rewrite <- (addRuns_resume l').
    rewrite (loop_addRuns (outputData l') (innerBody input)
               (innerBody_addRuns input (outputData l'))).
    destruct (loop (innerBody input) _ (resume l') _) as [| |h out [|]| |];
      reflexivity.
Qed.


Lemma skipStringArgument_lockstep (l : Locals) (s : string) :
  steady input l -> indexOfChar BEL s = None -> s <> EmptyString ->
  match skipStringArgument l s with
  | Again l1 s1 =>
      skipStringArgument l (s ++ c2) = Again l1 (s1 ++ c2)
      /\ s1 <> EmptyString
      /\ m_waitingForTerminator (handler l1) = false
      /\ pending l1 = pending l
  | Leave l' _ => pending l' = pending l \/ l' = setPending s l
  | _ => False
  end.
Proof.
  intros [Halt _] Hbel Hne. unfold skipStringArgument.
  destruct (m_waitingForTerminator (handler l)) eqn:Hw; [|now repeat split].
  destruct (indexOf (String ESC (String backslash "")) s) as [p|] eqn:Hst.
  - rewrite (indexOf_append_found _ s c2 p Hst).
    apply indexOf_bound in Hst. cbn [String.length] in Hst.
    rewrite remove0_append_long by (cbn [String.length]; lia).
    destruct (isEmpty (remove0 _ s)) eqn:He; [now left|].
    apply isEmpty_false in He.
    replace (isEmpty (remove0 (p + String.length
                                     (String ESC (String backslash "")))
                               s ++ c2))
      with false
      by (destruct (remove0 _ s); [contradiction|reflexivity]).
    now repeat split.
  - destruct Halt as [Halt|Halt]; rewrite Halt; cbn [isEmpty negb].
    + now right.
    + rewrite (indexOf_single_char BEL s Hbel). now right.
Qed.

Lemma outerBody_lockstep (l : Locals) (s : string) :
  pending l = EmptyString -> steady input l -> clean c2 s ->
  match outerBody input l s with
  | Again l' s' =>
      (s' <> EmptyString ->
       pending l' = EmptyString
       /\ outerBody input l (s ++ c2) = Again l' (s' ++ c2))
      /\ (s' = EmptyString -> pending l' <> EmptyString -> resumed input c2 l s l')
  | Leave l' _ => pending l' <> EmptyString -> resumed input c2 l s l'
  | Exit _ _ _ => False
  | _ => True
  end.
Proof.
  intros Hp Hst Hc. unfold resumed.
  rewrite (outerBody_unfold l s), (outerBody_unfold l (s ++ c2)).
  destruct (isEmpty s) eqn:Hs; [intros H; contradiction|].
  apply isEmpty_false in Hs.
  replace (isEmpty (s ++ c2)) with false
    by (destruct s; [contradiction|reflexivity]).
  rewrite Hp. cbn [isEmpty negb].
  pose proof (skipStringArgument_lockstep l s Hst (proj2 (proj2 Hc)) Hs)
    as Hk.
  pose proof (skipStringArgument_suffix l s) as Hsuf.
  destruct (skipStringArgument l s) as [l1 s1|l' s'| | |]; try contradiction.
  - destruct Hk as (Hk & Hne1 & Hw1 & Hp1). rewrite Hk.
    assert (Hq1 : quiet l1) by (split; [congruence|exact Hw1]).
    assert (Hu1 : unmarked (s1 ++ c2)).
    { cbn [stepSuffix] in Hsuf. destruct Hsuf as [pre ->].
      apply clean_unmarked in Hc. rewrite append_assoc in Hc.
      eapply unmarked_isSuffix; [|exact Hc]. now exists pre. }
    pose proof (afterSkip_lockstep l1 s1 Hq1 Hne1 Hu1) as Ha.
    destruct (afterSkip input l1 s1) as [l' s'|l' s'| | |]; auto.
    intros H. contradiction.
  - intros Hp'. destruct Hk as [Hk| ->]; [congruence|].
    change (pending (setPending s l)) with s.
    change (outputData (setPending s l)) with (outputData l).
    rewrite <- (outerBody_addRuns input (outputData l)).
    change (outputData l) with (outputData (setPending s l)) at 1.
    rewrite addRuns_resume, (clearPending_setPending s l Hp).
    rewrite (outerBody_unfold l (s ++ c2)).
    replace (isEmpty (s ++ c2)) with false
      by (destruct s; [contradiction|reflexivity]).
    rewrite Hp. reflexivity.
Qed.


Lemma resumed_loop (l : Locals) (s : string) (l' : Locals) (fuel2 : nat) :
  resumed input c2 l s l' ->
  (String.length (s ++ c2) < fuel2)%nat ->
  loop (outerBody input) fuel2 l (s ++ c2)
  = prefixRuns (outputData l')
               (loop (outerBody input)
                     (S (String.length (pending l' ++ c2)))
                     (resume l') (pending l' ++ c2)).
Proof.
  unfold resumed. intros Hr Hf. destruct fuel2 as [|f2]; [lia|].
  rewrite !loop_S.
  pose proof (outerBody_progress input l (s ++ c2)) as Hprog.
  rewrite Hr in *.
  pose proof (outerBody_progress input (resume l') (pending l' ++ c2))
    as Hprog'.
  destruct (outerBody input (resume l') (pending l' ++ c2))
    as [a b| |h out [|]| |]; try reflexivity.
  cbn [prefixRuns] in *.
  specialize (Hprog _ _ eq_refl). specialize (Hprog' _ _ eq_refl).
  rewrite outerLoop_addRuns. f_equal.
  destruct (loop_fuel (outerBody input) (outerBody_progress input)
                      (outerBody_no_fuel input)
                      (String.length (pending l' ++ c2)) a b Hprog')
    as [_ Hirr].
  apply Hirr. lia.
Qed.

Lemma outerLoop_sim (fuel : nat) (l : Locals) (s : string) :
  (String.length s < fuel)%nat ->
  pending l = EmptyString -> steady input l -> clean c2 s ->
  forall l' s',
    loop (outerBody input) fuel l s = Leave l' s' ->
    pending l' <> EmptyString ->
    forall fuel2,
      (String.length (s ++ c2) < fuel2)%nat ->
      loop (outerBody input) fuel2 l (s ++ c2)
      = prefixRuns (outputData l')
                   (loop (outerBody input)
                         (S (String.length (pending l' ++ c2)))
                         (resume l') (pending l' ++ c2)).
Proof.
  revert l s. induction fuel as [|fuel IH];
    intros l s Hf Hp Hst Hc l' s' Hrun Hp' fuel2 Hf2; [lia|].
  rewrite loop_S in Hrun.
  pose proof (outerBody_lockstep l s Hp Hst Hc) as Hlock.
  pose proof (outerBody_steady l s Hst) as Hst1.
  pose proof (outerBody_suffix l s) as Hsuf.
  pose proof (outerBody_shrinks input l s) as Hshr.
  destruct (outerBody input l s) as [l1 s1|l1 s1| | |] eqn:E;
    try discriminate.
  - destruct Hlock as [Hl1 Hl2]. cbn [stepSteady stepSuffix] in *.
    destruct s1 as [|a s1].
    + destruct fuel as [|fuel]; [lia|].
      rewrite loop_S in Hrun. cbn in Hrun. injection Hrun as <- <-.
      apply resumed_loop; auto.
    + destruct (Hl1 ltac:(discriminate)) as [Hp1 Hw].
      destruct fuel2 as [|f2]; [lia|]. rewrite loop_S, Hw.
      apply (IH l1 (String a s1)) with (s' := s'); auto.
      * lia.
      * eapply clean_isSuffix; eauto.
      * rewrite length_append in *. simpl in *. lia.
  - injection Hrun as <- <-. apply resumed_loop; auto.
Qed.


End Resume.

(** ** Feeding a string in two chunks *)

(** C2, as amended: let the first of two chunks, fed with the same
    baseline style, end inside an escape sequence or string argument, so
    that the call returns with text pending.  Provided the buffer of the
    whole string (pending text included) holds no erase marker ("2K" or
    "2J" in any case), the part fed first holds no bell character, and the
    handler's alternate terminator is unset or the bell, feeding the two
    chunks gives, by concatenating the two returned run lists, exactly what
    feeding the whole string in one call gives: the same runs, the same
    final handler state, and the same failure if the later call fails; no
    erase call is made on the way. *)
Theorem chunked_feed_resumes
        (h : Handler) (f : QTextCharFormat) (c1 c2 : string)
        (h1 : Handler) (out1 : list FormattedText) :
  parseText h (mkText c1 f) = Parsed h1 out1 None ->
  m_pendingText h1 <> EmptyString ->
  contains (toUpper (m_pendingText h ++ c1 ++ c2)) "2K" = false ->
  contains (toUpper (m_pendingText h ++ c1 ++ c2)) "2J" = false ->
  indexOfChar BEL (m_pendingText h ++ c1) = None ->
  (m_alternateTerminator h = EmptyString
   \/ m_alternateTerminator h = String BEL EmptyString) ->
  parseText h (mkText (c1 ++ c2) f)
  = withEarlierRuns out1 (parseText h1 (mkText c2 f))
  /\ forall (h2 : Handler) (out2 : list FormattedText)
            (call : option TextEditCall),
      parseText h1 (mkText c2 f) = Parsed h2 out2 call -> call = None.
Proof.
  intros Hrun Hpend H2K H2J Hbel Halt.
  unfold parseText in *. cbn [text format] in *.
  rewrite <- append_assoc in *.
  set (buf1 := m_pendingText h ++ c1) in *.
  set (l0 := mkLocals (withPending EmptyString h) []
                      (if m_previousFormatClosed h then f
                       else m_previousFormat h)) in *.
  assert (Hst0 : steady f l0) by (split; [exact Halt|reflexivity]).
  assert (Hc0 : clean c2 buf1) by (repeat split; assumption).
  pose proof (loop_steady f (outerBody f) (outerBody_steady f)
                          (S (String.length buf1)) l0 buf1 Hst0) as Hst'.
  destruct (loop (outerBody f) (S (String.length buf1)) l0 buf1)
    as [|l' s'| | |] eqn:Erun; try discriminate.
  injection Hrun as <- <-. cbn [stepSteady] in Hst'.
  pose proof (outerLoop_sim f c2 (S (String.length buf1)) l0 buf1
                            ltac:(lia) eq_refl Hst0 Hc0 l' s' Erun Hpend
                            (S (String.length (buf1 ++ c2))) ltac:(lia))
    as Hsim.
  pose proof (loop_noExit (outerBody f) (outerBody_suffix f)
                          (outerBody_noExit f)
                          (S (String.length (buf1 ++ c2))) l0 (buf1 ++ c2)
                          (conj H2K H2J)) as Hne.
  rewrite Hsim in Hne |- *.
  change (m_pendingText (handler l')) with (pending l').
  replace (mkLocals (withPending EmptyString (handler l')) []
                    (if m_previousFormatClosed (handler l') then f
                     else m_previousFormat (handler l')))
    with (resume l')
    by (unfold resume; now rewrite (proj2 Hst')).
  destruct (loop (outerBody f) (S (String.length (pending l' ++ c2)))
                 (resume l') (pending l' ++ c2))
    as [| |h2 out2 [|]| |]; cbn in Hne |- *; try contradiction;
    split; try reflexivity; intros; congruence.
Qed.

Lemma chunked_feed_resumes_witness :
  parseText idleHandler (mkText (("ab" ++ escape ++ "3") ++ "1mRED")
                                defaultFormat)
  = withEarlierRuns
      [mkText "ab" defaultFormat]
      (parseText (withPending (escape ++ "3") idleHandler)
                 (mkText "1mRED" defaultFormat)).
Proof.
  apply (chunked_feed_resumes idleHandler defaultFormat
           ("ab" ++ escape ++ "3") "1mRED"
           (withPending (escape ++ "3") idleHandler)
           [mkText "ab" defaultFormat]);
    [reflexivity | discriminate | reflexivity | reflexivity | reflexivity
     | left; reflexivity].
Defined.

(** C2 as stated fails.  Split between the '2' and the 'J' of ESC[2J, the
    text "A" in front of the sequence is returned by the first call, while
    the call on the whole string returns no run at all; and a string
    argument that holds a bell ends at the bell when the string terminator
    arrives in the next chunk, so "b" comes out, but ends at the string
    terminator when the string is fed whole. *)
Lemma chunked_feed_differs :
  parseText idleHandler (mkText ("A" ++ escape ++ "2J") defaultFormat)
  = Parsed (withPending escape idleHandler) [] (Some ClearScreen)
  /\ parseText idleHandler (mkText ("A" ++ escape ++ "2") defaultFormat)
     = Parsed (withPending (escape ++ "2") idleHandler)
              [mkText "A" defaultFormat] None
  /\ parseText (withPending (escape ++ "2") idleHandler)
               (mkText "J" defaultFormat)
     = Parsed (withPending escape idleHandler) [] (Some ClearScreen)
  /\ parseText idleHandler (mkText ("A" ++ escape ++ "2J") defaultFormat)
     <> withEarlierRuns
          [mkText "A" defaultFormat]
          (parseText (withPending (escape ++ "2") idleHandler)
                     (mkText "J" defaultFormat))
  /\ parseText idleHandler
               (mkText (String ESC "]a" ++ String BEL "b"
                        ++ String ESC (String backslash "c")) defaultFormat)
     = Parsed idleHandler [mkText "c" defaultFormat] None
  /\ parseText idleHandler
               (mkText (String ESC "]a" ++ String BEL "b" ++ String ESC "")
                       defaultFormat)
     = Parsed (withPending (String ESC "") idleHandler)
              [mkText "b" defaultFormat] None
  /\ parseText (withPending (String ESC "") idleHandler)
               (mkText (String backslash "c") defaultFormat)
     = Parsed idleHandler [mkText "c" defaultFormat] None.
Proof. repeat split. discriminate. Qed.

(** ** Literal text in front of an escape character *)

Lemma text_before_escape_one_run
      (h : Handler) (f : QTextCharFormat) (t rest : string) :
  m_pendingText h = EmptyString ->
  m_waitingForTerminator h = false ->
  t <> EmptyString ->
  indexOfChar ESC t = None ->
  parseText h (mkText (t ++ String ESC rest) f)
  = withRunsBefore
      [mkText t (if m_previousFormatClosed h then f else m_previousFormat h)]
      (parseText h (mkText (String ESC rest) f)).
Proof.
  intros Hp Hw Ht Hesc. unfold parseText. cbn [text format].
  rewrite Hp. cbn [append].
  set (cf := if m_previousFormatClosed h then f else m_previousFormat h).
  set (l0 := mkLocals (withPending EmptyString h) [] cf).
  assert (Hres : resumed f (String ESC rest) l0 t (emit t l0)).
  { unfold resumed.
    rewrite (outerBody_text_then_escape f l0 t rest eq_refl Hw Hesc).
    change (pending (emit t l0) ++ String ESC rest) with (String ESC rest).
    pose proof (outerBody_text_then_escape f (resume (emit t l0))
                  EmptyString rest eq_refl Hw eq_refl) as Ho.
    cbn [append] in Ho. rewrite Ho.
    unfold afterText. cbn [isEmpty].
    replace (isEmpty t) with false by (now destruct t).
    unfold innerLoop.
    change (emit t l0)
      with (addRuns (outputData (emit t l0)) (resume (emit t l0))) at 1.
    rewrite (loop_addRuns (outputData (emit t l0)) (innerBody f)
               (innerBody_addRuns f (outputData (emit t l0)))).
    destruct (loop (innerBody f) _ (resume (emit t l0)) _)
      as [| |h' out [|]| |]; reflexivity. }
  rewrite (resumed_loop f (String ESC rest) l0 t (emit t l0)
             (S (String.length (t ++ String ESC rest))) Hres ltac:(lia)).
  change (pending (emit t l0) ++ String ESC rest) with (String ESC rest).
  change (resume (emit t l0)) with l0.
  change (outputData (emit t l0)) with [mkText t cf].
  destruct (loop (outerBody f) (S (String.length (String ESC rest))) l0
                 (String ESC rest)) as [| |h' out [|]| |]; reflexivity.
Qed.

(** C7, as amended: every call returns, and every run it returns is not
    empty and is either free of escape characters or the single escape
    character of a sequence that was not recognised, so no run reaches
    across the start of an escape sequence.  Literal text in front of an
    escape character, fed to a handler with nothing pending that skips no
    string argument, comes back as exactly one run, ahead of what the text
    from the escape character on yields (a clear-screen return drops it
    with all other runs). *)
Theorem runs_never_cross_escape :
  (forall (h : Handler) (input : FormattedText),
      parseText h input <> OutOfFuel
      /\ forall (h' : Handler) (out : list FormattedText)
                (call : option TextEditCall),
          parseText h input = Parsed h' out call -> Forall literalRun out)
  /\ (forall (h : Handler) (f : QTextCharFormat) (t rest : string),
         m_pendingText h = EmptyString ->
         m_waitingForTerminator h = false ->
         t <> EmptyString ->
         indexOfChar ESC t = None ->
         parseText h (mkText (t ++ String ESC rest) f)
         = withRunsBefore
             [mkText t (if m_previousFormatClosed h then f
                        else m_previousFormat h)]
             (parseText h (mkText (String ESC rest) f))).
Proof.
  split; [|exact text_before_escape_one_run].
  intros h input. split; [apply parseText_returns|].
  intros h' out call. unfold parseText.
  pose proof (outerLoop_runs (format input)
                (S (String.length (m_pendingText h ++ text input)))
                (mkLocals (withPending EmptyString h) []
                   (if m_previousFormatClosed h then format input
                    else m_previousFormat h))
                (m_pendingText h ++ text input)
                (Forall_nil _)) as Hr.
  destruct (loop _ _ _ _); try discriminate; intros [= _ <- _]; exact Hr.
Qed.

Lemma runs_never_cross_escape_witness :
  Forall literalRun [mkText "ab" defaultFormat; mkText "cd" defaultFormat]
  /\ parseText idleHandler (mkText ("ab" ++ String ESC "[31mcd")
                                   defaultFormat)
     = withRunsBefore
         [mkText "ab" defaultFormat]
         (parseText idleHandler (mkText (String ESC "[31mcd") defaultFormat)).
Proof.
  destruct runs_never_cross_escape as [Hruns Hone].
  split.
  - apply (proj2 (Hruns idleHandler
                        (mkText ("ab" ++ escape ++ "Kcd") defaultFormat))
                 idleHandler
                 [mkText "ab" defaultFormat; mkText "cd" defaultFormat]
                 None).
    reflexivity.
  - apply (Hone idleHandler defaultFormat "ab" "[31mcd");
      [reflexivity | reflexivity | discriminate | reflexivity].
Defined.

(** C7 as stated fails: an escape character that starts no sequence is
    returned as a run of its own, followed by a second run of the same
    style for the text after it; and the text on the two sides of a dropped
    sequence comes back as two adjacent runs of one style. *)
Lemma adjacent_runs_share_style :
  parseText idleHandler (mkText (String ESC "Zabc") defaultFormat)
  = Parsed idleHandler
           [mkText (String ESC "") defaultFormat;
            mkText "Zabc" defaultFormat] None
  /\ parseText idleHandler (mkText ("ab" ++ escape ++ "Kcd") defaultFormat)
     = Parsed idleHandler
              [mkText "ab" defaultFormat; mkText "cd" defaultFormat] None
  /\ ~ (forall (h h' : Handler) (input : FormattedText)
               (a b : FormattedText) (before after : list FormattedText)
               (call : option TextEditCall),
           parseText h input
           = Parsed h' (before ++ a :: b :: after)%list call ->
           format a <> format b).
Proof.
  repeat split.
  intros H.
  apply (H idleHandler idleHandler
           (mkText (String ESC "Zabc") defaultFormat)
           (mkText (String ESC "") defaultFormat)
           (mkText "Zabc" defaultFormat) [] [] None); reflexivity.
Qed.

(** * Further properties of the decoder and the terminal *)

(** ** A pass of the inner body at the head of the text *)

Section HeadOfText.

Variable f : QTextCharFormat.

Lemma outerLoop_fuel (fuel1 fuel2 : nat) (l : Locals) (s : string) :
  (String.length s < fuel1)%nat -> (String.length s < fuel2)%nat ->
  loop (outerBody f) fuel1 l s = loop (outerBody f) fuel2 l s.
Proof.
  intros H1 H2.
  destruct (loop_fuel (outerBody f) (outerBody_progress f)
                      (outerBody_no_fuel f) fuel2 l s H2) as [_ E].
  now apply E.
Qed.

Lemma innerLoop_fuel (fuel1 fuel2 : nat) (l : Locals) (s : string) :
  (String.length s < fuel1)%nat -> (String.length s < fuel2)%nat ->
  loop (innerBody f) fuel1 l s = loop (innerBody f) fuel2 l s.
Proof.
  intros H1 H2.
  destruct (loop_fuel (innerBody f) (innerBody_progress f)
                      (innerBody_no_fuel f) fuel2 l s H2) as [_ E].
  now apply E.
Qed.

(** The outer body on a text that starts with the escape character. *)
Lemma outerBody_at_escape (l : Locals) (s : string) :
  quiet l -> at_ 0 s = Some ESC ->
  outerBody f l s
  = match innerLoop f l s with
    | Leave l3 s3 => Again l3 s3
    | r => r
    end.
Proof.
  intros [Hp Hw] H0. destruct s as [|c s]; [discriminate|].
  cbn in H0. injection H0 as ->.
  exact (outerBody_text_then_escape f l EmptyString s Hp Hw eq_refl).
Qed.

(** The outer body of a handler that skips no string argument, on a text
    that does not start with the escape character. *)
Lemma outerLoop_continue (fuel : nat) (l l' : Locals) (s s' : string) :
  (String.length s < fuel)%nat ->
  outerBody f l s = Again l' s' ->
  loop (outerBody f) fuel l s = loop (outerBody f) (S (String.length s')) l' s'.
Proof.
  intros Hf E. destruct fuel as [|fuel]; [lia|].
  rewrite loop_S, E. pose proof (outerBody_progress f _ _ _ _ E).
  apply outerLoop_fuel; lia.
Qed.

(** One pass of the inner body at the head of the text, seen from the
    outer loop: the outer loop carries on from where the pass stopped. *)
Lemma outerLoop_inner_step (fuel : nat) (l l' : Locals) (s s' : string) :
  (String.length s < fuel)%nat ->
  quiet l -> at_ 0 s = Some ESC ->
  innerBody f l s = Again l' s' \/ innerBody f l s = Leave l' s' ->
  loop (outerBody f) fuel l s
  = loop (outerBody f) (S (String.length s')) l' s'.
Proof.
  intros Hf Hq H0 Hstep.
  pose proof (innerBody_shrinks f l s) as Hsh.
  pose proof (innerBody_quiet f l s Hq) as Hq'.
  destruct Hstep as [E|E]; rewrite E in Hsh, Hq'.
  - (* the inner loop goes round again *)
    assert (Ho : outerBody f l s
                 = match innerLoop f l' s' with
                   | Leave l3 s3 => Again l3 s3
                   | r => r
                   end).
    { rewrite (outerBody_at_escape l s Hq H0). unfold innerLoop.
      rewrite loop_S, E.
      now rewrite (innerLoop_fuel (String.length s) (S (String.length s'))
                                  l' s' Hsh ltac:(lia)). }
    destruct s' as [|c s''].
    + destruct fuel as [|fuel]; [lia|]. rewrite loop_S, Ho.
      cbn. destruct fuel; [destruct s; simpl in *; lia|]. reflexivity.
    + destruct (Ascii.eqb ESC c) eqn:Ec.
      * apply Ascii.eqb_eq in Ec. subst c.
        rewrite <- (outerBody_at_escape l' (String ESC s'') Hq' eq_refl) in Ho.
        destruct fuel as [|fuel]; [lia|].
        rewrite !loop_S, Ho.
        destruct (outerBody f l' (String ESC s'')) as [a b| | | |] eqn:Eo;
          try reflexivity.
        pose proof (outerBody_progress f _ _ _ _ Eo).
        apply outerLoop_fuel; lia.
      * assert (Hi : innerLoop f l' (String c s'') = Leave l' (String c s'')).
        { unfold innerLoop. rewrite loop_S. unfold innerBody.
          now rewrite Ec. }
        rewrite Hi in Ho.
        apply (outerLoop_continue fuel l l' s (String c s'') Hf Ho).
  - (* the inner loop is left *)
    apply outerLoop_continue; [exact Hf|].
    rewrite (outerBody_at_escape l s Hq H0). unfold innerLoop.
    now rewrite loop_S, E.
Qed.

End HeadOfText.

Section HeadOfText2.

Variable f : QTextCharFormat.

Lemma parseText_outcome (h : Handler) (input : FormattedText) :
  parseText h input
  = outcome (loop (outerBody (format input))
                  (S (String.length (m_pendingText h ++ text input)))
                  (entry h (format input))
                  (m_pendingText h ++ text input)).
Proof. reflexivity. Qed.

Lemma outcome_prefixRuns (o : list FormattedText) (r : Step) :
  outcome (prefixRuns o r) = withRunsBefore o (outcome r).
Proof. destruct r as [| |h out [|]| |]; reflexivity. Qed.

Lemma withRunsBefore_nil (r : Outcome) : withRunsBefore [] r = r.
Proof. destruct r as [h out [[|]|]| |]; reflexivity. Qed.

Lemma withPending_same (h : Handler) :
  m_pendingText h = EmptyString -> withPending EmptyString h = h.
Proof. destruct h; cbn; intros ->; reflexivity. Qed.

(** The outer loop entered with runs already emitted gives what a call on
    the rest of the text gives, with those runs in front. *)
Lemma outcome_from (fuel : nat) (l : Locals) (s : string) :
  (String.length s < fuel)%nat ->
  pending l = EmptyString ->
  charFormat l = initialFormat (handler l) f ->
  outcome (loop (outerBody f) fuel l s)
  = withRunsBefore (outputData l) (parseText (handler l) (mkText s f)).
Proof.
  intros Hf Hp Hc. rewrite parseText_outcome. cbn [text format].
  change (m_pendingText (handler l)) with (pending l). rewrite Hp.
  cbn [append].
  rewrite <- outcome_prefixRuns, <- outerLoop_addRuns.
  replace (addRuns (outputData l) (entry (handler l) f)) with l.
  - f_equal. apply outerLoop_fuel; lia.
  - unfold addRuns, entry. rewrite <- Hc. cbn.
    rewrite app_nil_r. rewrite withPending_same by exact Hp.
    now destruct l.
Qed.

(** One pass of the inner body at the head of the text of a call. *)
Lemma parseText_head (h : Handler) (s s' : string) (l' : Locals) :
  m_pendingText h = EmptyString ->
  m_waitingForTerminator h = false ->
  at_ 0 s = Some ESC ->
  innerBody f (entry h f) s = Again l' s'
  \/ innerBody f (entry h f) s = Leave l' s' ->
  pending l' = EmptyString ->
  charFormat l' = initialFormat (handler l') f ->
  parseText h (mkText s f)
  = withRunsBefore (outputData l') (parseText (handler l') (mkText s' f)).
Proof.
  intros Hp Hw H0 Hstep Hp' Hc'.
  rewrite parseText_outcome. cbn [text format]. rewrite Hp. cbn [append].
  rewrite (outerLoop_inner_step f (S (String.length s)) (entry h f) l' s s'
             ltac:(lia) (conj eq_refl Hw) H0 Hstep).
  apply outcome_from; [lia | exact Hp' | exact Hc'].
Qed.

End HeadOfText2.

(** ** The parameters of a control sequence *)

Lemma scanNumbers_digits (d strNumber pend tail : string)
      (numbers : list string) :
  allDigits d = true ->
  scanNumbers strNumber numbers pend (d ++ tail)
  = scanNumbers (strNumber ++ d) numbers (pend ++ d) tail.
Proof.
  revert strNumber pend.
  induction d as [|c d IH]; intros strNumber pend Hd.
  - now rewrite !append_empty_r.
  - cbn in Hd. apply andb_true_iff in Hd as [Hc Hd].
    cbn [append scanNumbers]. rewrite Hc, IH by exact Hd.
    now rewrite !append_assoc.
Qed.

Lemma scanNumbers_parameters (numbers found : list string)
      (pend : string) (c : ascii) (rest : string) :
  Forall (fun n => isNumber n = true) numbers ->
  isDigit c = false -> c <> semicolon ->
  scanNumbers EmptyString found pend (parameters numbers ++ String c rest)
  = ((found ++ numbers)%list, pend ++ parameters numbers, String c rest).
Proof.
  intros Hn Hc Hsemi.
  assert (Hs : Ascii.eqb c semicolon = false)
    by (now apply Ascii.eqb_neq).
  revert found pend.
  induction Hn as [|n more Hnum Hmore IH]; intros found pend.
  - cbn [parameters append scanNumbers]. rewrite Hc. cbn.
    now rewrite app_nil_r, append_empty_r.
  - apply andb_true_iff in Hnum as [Hne Hd].
    assert (Hne' : isEmpty n = false) by (now destruct (isEmpty n)).
    destruct more as [|m more].
    + cbn [parameters]. rewrite scanNumbers_digits by exact Hd.
      cbn [append scanNumbers]. rewrite Hc, Hne', Hs. reflexivity.
    + change (parameters (n :: m :: more))
        with (n ++ String semicolon (parameters (m :: more))).
      rewrite append_assoc, scanNumbers_digits by exact Hd.
      cbn [append scanNumbers].
      change (isDigit semicolon) with false. cbv iota.
      rewrite Hne'. cbn [orb negb]. rewrite Ascii.eqb_refl. cbn [negb].
      rewrite IH. rewrite <- app_assoc, !append_assoc. reflexivity.
Qed.

Section Sequences.

Variable f : QTextCharFormat.

(** The inner body at an escape character that another character than
    the bracket follows. *)
Lemma innerBody_letter (l : Locals) (c : ascii) (rest : string) :
  Ascii.eqb c "[" = false ->
  innerBody f l (String ESC (String c rest))
  = escapeLetter l (String ESC (String c rest)).
Proof.
  intros Hb. unfold innerBody, escape. cbn [startsWith].
  rewrite Ascii.eqb_refl, (Ascii.eqb_sym "[" c), Hb. reflexivity.
Qed.

(** The inner body at the introducer ESC [ with text behind it. *)
Lemma innerBody_introducer (l : Locals) (c : ascii) (rest : string) :
  innerBody f l (escape ++ String c rest)
  = controlSequence f (appendPending escape l) (String c rest).
Proof.
  unfold innerBody, escape. cbn [append startsWith].
  rewrite !Ascii.eqb_refl. reflexivity.
Qed.

Variable h : Handler.
Hypothesis nothing_pending : m_pendingText h = EmptyString.
Hypothesis not_waiting : m_waitingForTerminator h = false.

Lemma ignored_not_bracket (c : ascii) :
  isIgnoredLetter c = true -> Ascii.eqb c "[" = false.
Proof.
  intros Hc. destruct (Ascii.eqb c "[") eqn:E; [|reflexivity].
  apply Ascii.eqb_eq in E. subst c. discriminate.
Qed.

(** ESC \, ESC N and ESC O are dropped. *)
Lemma two_character_sequence (c : ascii) (rest : string) :
  isIgnoredLetter c = true ->
  parseText h (mkText (String ESC (String c rest)) f)
  = parseText h (mkText rest f).
Proof.
  intros Hc.
  rewrite (parseText_head f h (String ESC (String c rest)) rest (entry h f)
             nothing_pending not_waiting eq_refl).
  - cbn [entry outputData handler]. rewrite withRunsBefore_nil.
    now rewrite withPending_same.
  - right. rewrite innerBody_letter by (now apply ignored_not_bracket).
    unfold escapeLetter. cbn [at_ get]. rewrite Hc. reflexivity.
  - reflexivity.
  - reflexivity.
Qed.

(** An escape character in front of a character that starts no sequence
    is returned as a run of its own. *)
Lemma unrecognised_escape (c : ascii) (rest : string) :
  Ascii.eqb c "[" = false -> isIgnoredLetter c = false ->
  Ascii.eqb c "]" = false -> isStringLetter c = false ->
  parseText h (mkText (String ESC (String c rest)) f)
  = withRunsBefore [mkText (String ESC EmptyString) (initialFormat h f)]
                   (parseText h (mkText (String c rest) f)).
Proof.
  intros Hb Hi Ho Hs.
  rewrite (parseText_head f h (String ESC (String c rest)) (String c rest)
             (emit (String ESC EmptyString) (entry h f))
             nothing_pending not_waiting eq_refl).
  - cbn [entry emit outputData handler charFormat app].
    now rewrite withPending_same.
  - left. rewrite innerBody_letter by exact Hb.
    unfold escapeLetter. cbn [at_ get]. rewrite Hi, Ho, Hs. reflexivity.
  - reflexivity.
  - reflexivity.
Qed.

(** A control sequence with numbers for parameters and a final character
    other than 'm' is dropped. *)
Lemma control_sequence_dropped (numbers : list string) (c : ascii)
      (rest : string) :
  Forall (fun n => isNumber n = true) numbers ->
  isDigit c = false -> c <> semicolon -> c <> "m"%char ->
  unmarked (parameters numbers ++ String c rest) ->
  parseText h (mkText (escape ++ parameters numbers ++ String c rest) f)
  = parseText h (mkText rest f).
Proof.
  intros Hn Hd Hsemi Hm [H2K H2J].
  assert (Hne : exists c' rest',
             parameters numbers ++ String c rest = String c' rest').
  { destruct (parameters numbers); cbn; eauto. }
  destruct Hne as (c' & rest' & Es).
  rewrite (parseText_head f h (escape ++ parameters numbers ++ String c rest)
             rest (entry h f) nothing_pending not_waiting eq_refl).
  - cbn [entry outputData handler]. rewrite withRunsBefore_nil.
    now rewrite withPending_same.
  - rewrite Es, innerBody_introducer, <- Es. unfold controlSequence.
    rewrite H2K, H2J.
    destruct (startsWith (parameters numbers ++ String c rest) eraseToEol)
      eqn:HK.
    + left. destruct numbers as [|n more].
      * reflexivity.
      * exfalso. inversion Hn as [|? ? Hnum _]; subst.
        apply andb_true_iff in Hnum as [Hne Hdig].
        destruct n as [|d n']; [discriminate|].
        cbn in Hdig. apply andb_true_iff in Hdig as [Hdig _].
        assert (Hk : Ascii.eqb "K" d = false).
        { destruct (Ascii.eqb "K" d) eqn:E; [|reflexivity].
          apply Ascii.eqb_eq in E. subst d. discriminate. }
        unfold eraseToEol in HK.
        destruct more; cbn [parameters append startsWith] in HK;
          rewrite Hk in HK; discriminate.
    + right. unfold pending.
      rewrite (scanNumbers_parameters numbers [] _ c rest Hn Hd Hsemi).
      cbn [isEmpty]. unfold colorTerminator. cbn [startsWith].
      replace (Ascii.eqb "m" c) with false
        by (symmetry; apply Ascii.eqb_neq; congruence).
      reflexivity.
  - reflexivity.
  - reflexivity.
Qed.

(** A colour sequence at the head of the text: the call carries on behind
    it from the handler the codes leave. *)
Lemma colour_sequence (numbers : list string) (rest : string)
      (h' : Handler) :
  Forall (fun n => isNumber n = true) numbers ->
  unmarked (parameters numbers ++ String "m" rest) ->
  sgr f numbers h = Some h' ->
  parseText h (mkText (escape ++ parameters numbers ++ String "m" rest) f)
  = parseText h' (mkText rest f).
Proof.
  intros Hn [H2K H2J] Hsgr. unfold sgr in Hsgr.
  destruct (applyCodes f numbers _) as [l5|] eqn:Hcodes; [|discriminate].
  injection Hsgr as <-.
  assert (Hne : exists c' rest',
             parameters numbers ++ String "m" rest = String c' rest').
  { destruct (parameters numbers); cbn; eauto. }
  destruct Hne as (c' & rest' & Es).
  destruct (applyCodes_frame f numbers _ l5 Hcodes) as (Hout & Hpend & _).
  assert (Hfmt : charFormat l5 = initialFormat (handler l5) f).
  { refine (applyCodes_preserves f
              (fun l => charFormat l = initialFormat (handler l) f)
              _ _ numbers _ l5 _ Hcodes).
    - intros; reflexivity.
    - intros; reflexivity.
    - destruct numbers; reflexivity. }
  rewrite (parseText_head f h (escape ++ parameters numbers ++ String "m" rest)
             rest l5 nothing_pending not_waiting eq_refl).
  - rewrite Hout. replace (outputData _) with (@nil FormattedText)
      by (destruct numbers; reflexivity).
    apply withRunsBefore_nil.
  - left. rewrite Es, innerBody_introducer, <- Es. unfold controlSequence.
    rewrite H2K, H2J.
    replace (startsWith (parameters numbers ++ String "m" rest) eraseToEol)
      with false.
    + unfold pending.
      rewrite (scanNumbers_parameters numbers [] _ "m" rest Hn eq_refl
                                      ltac:(discriminate)).
      cbn [isEmpty negb]. unfold colorTerminator. cbn [startsWith].
      cbn [Ascii.eqb Bool.eqb andb negb remove0 app].
      replace (startsWith rest "") with true by (now destruct rest).
      cbn [negb].
      match goal with
      | |- match applyCodes f numbers ?x with _ => _ end = _ =>
          replace x with
            (match numbers with
             | [] => resetFormat f (entry h f)
             | _ :: _ => entry h f
             end) by (destruct numbers; reflexivity)
      end.
      now rewrite Hcodes.
    + symmetry. destruct numbers as [|n more]; [reflexivity|].
      inversion Hn as [|? ? Hnum _]; subst.
      apply andb_true_iff in Hnum as [Hne Hdig].
      destruct n as [|d n']; [discriminate|].
      cbn in Hdig. apply andb_true_iff in Hdig as [Hdig _].
      assert (Hk : Ascii.eqb "K" d = false).
      { destruct (Ascii.eqb "K" d) eqn:E; [|reflexivity].
        apply Ascii.eqb_eq in E. subst d. discriminate. }
      unfold eraseToEol.
      destruct more; cbn [parameters append startsWith]; rewrite Hk;
        reflexivity.
  - unfold pending. rewrite Hpend. destruct numbers; reflexivity.
  - exact Hfmt.
Qed.

End Sequences.

(** ** Skipping a string argument *)

Section StringArguments.

Variable f : QTextCharFormat.

Lemma skipStringArgument_found (l : Locals) (s term : string) (p : nat) :
  m_waitingForTerminator (handler l) = true ->
  finds (m_alternateTerminator (handler l)) s term p ->
  skipStringArgument l s
  = (if isEmpty (remove0 (p + String.length term) s)
     then Leave (setWaiting false EmptyString l)
                (remove0 (p + String.length term) s)
     else Again (setWaiting false EmptyString l)
                (remove0 (p + String.length term) s))
  /\ (String.length (remove0 (p + String.length term) s)
      < String.length s)%nat.
Proof.
  intros Hw Hfind. unfold skipStringArgument. rewrite Hw.
  fold stringTerminator.
  destruct Hfind as [[Hst ->]|(Hst & Halt & Hp & ->)]; rewrite Hst.
  - split; [reflexivity|]. apply indexOf_bound in Hst.
    rewrite remove0_length. cbn in *. lia.
  - apply isEmpty_false in Halt as Halt'. rewrite Halt', Hp. cbn [negb].
    split; [reflexivity|]. apply indexOf_bound in Hp.
    rewrite remove0_length.
    destruct (m_alternateTerminator (handler l)); [congruence|].
    cbn in *. lia.
Qed.

(** The outer loop of a handler that waits for a terminator the text
    holds: it carries on behind the terminator. *)
Lemma outerLoop_terminator (fuel : nat) (l : Locals) (s term : string)
      (p : nat) :
  (String.length s < fuel)%nat ->
  pending l = EmptyString ->
  m_waitingForTerminator (handler l) = true ->
  finds (m_alternateTerminator (handler l)) s term p ->
  loop (outerBody f) fuel l s
  = loop (outerBody f)
         (S (String.length (remove0 (p + String.length term) s)))
         (setWaiting false EmptyString l)
         (remove0 (p + String.length term) s).
Proof.
  intros Hf Hp Hw Hfind.
  destruct (skipStringArgument_found l s term p Hw Hfind) as [Hskip Hlen].
  set (s' := remove0 (p + String.length term) s) in *.
  set (l' := setWaiting false EmptyString l) in *.
  assert (Hs : isEmpty s = false) by (destruct s; [cbn in Hlen; lia|easy]).
  destruct fuel as [|fuel]; [lia|].
  rewrite !loop_S, !outerBody_unfold, Hs, Hskip.
  change (pending l') with (pending l). rewrite Hp. cbn [isEmpty negb].
  destruct (isEmpty s') eqn:Es'; [reflexivity|].
  unfold skipStringArgument at 1. cbn [l' setWaiting handler withWaiting
    m_waitingForTerminator].
  fold l'.
  destruct (afterSkip f l' s') as [a b| | | |] eqn:Eo; try reflexivity.
  assert (Ho : outerBody f l' s' = Again a b).
  { rewrite outerBody_unfold, Es'. change (pending l') with (pending l).
    rewrite Hp. cbn [isEmpty negb]. unfold skipStringArgument.
    cbn [l' setWaiting handler withWaiting m_waitingForTerminator].
    fold l'. exact Eo. }
  pose proof (outerBody_progress f _ _ _ _ Ho).
  apply outerLoop_fuel; lia.
Qed.

Variable h : Handler.
Hypothesis waiting : m_waitingForTerminator h = true.

(** A call of a handler that waits for a terminator the buffer holds. *)
Lemma parseText_terminator (t term : string) (p : nat) :
  finds (m_alternateTerminator h) (m_pendingText h ++ t) term p ->
  parseText h (mkText t f)
  = parseText (afterTerminator h)
              (mkText (remove0 (p + String.length term)
                               (m_pendingText h ++ t)) f).
Proof.
  intros Hfind. rewrite !parseText_outcome. cbn [text format].
  rewrite (outerLoop_terminator (S (String.length (m_pendingText h ++ t)))
             (entry h f) (m_pendingText h ++ t) term p
             ltac:(lia) eq_refl waiting Hfind).
  reflexivity.
Qed.

(** A call of a handler that waits for a terminator the buffer does not
    hold. *)
Lemma parseText_no_terminator (t : string) :
  m_pendingText h ++ t <> EmptyString ->
  indexOf stringTerminator (m_pendingText h ++ t) = None ->
  m_alternateTerminator h = EmptyString
  \/ indexOf (m_alternateTerminator h) (m_pendingText h ++ t) = None ->
  parseText h (mkText t f)
  = Parsed (withPending (m_pendingText h ++ t) h) [] None.
Proof.
  intros Hne Hst Halt. rewrite parseText_outcome. cbn [text format].
  set (s := m_pendingText h ++ t) in *.
  rewrite loop_S, outerBody_unfold.
  apply isEmpty_false in Hne. rewrite Hne. cbn [entry pending handler
    withPending m_pendingText isEmpty negb].
  unfold skipStringArgument. cbn [entry handler withPending
    m_waitingForTerminator m_alternateTerminator].
  rewrite waiting. fold stringTerminator. rewrite Hst.
  destruct Halt as [Halt|Halt].
  - rewrite Halt. reflexivity.
  - rewrite Halt. now destruct (negb (isEmpty (m_alternateTerminator h))).
Qed.

End StringArguments.

Lemma indexOf_char (c : ascii) (s : string) :
  indexOf (String c EmptyString) s = indexOfChar c s.
Proof.
  induction s as [|b s IH]; [reflexivity|].
  cbn [indexOf indexOfChar startsWith].
  rewrite (Ascii.eqb_sym c b).
  destruct (Ascii.eqb b c); cbn.
  - now destruct s.
  - now rewrite IH.
Qed.

Lemma indexOf_terminator_first (a b : string) :
  indexOf stringTerminator a = None ->
  indexOf stringTerminator (a ++ stringTerminator ++ b) = Some (String.length a).
Proof.
  induction a as [|c a IH]; intros Ha.
  - reflexivity.
  - cbn [indexOf] in Ha.
    destruct (startsWith (String c a) stringTerminator) eqn:Es;
      [discriminate|].
    destruct (indexOf stringTerminator a) eqn:Ea; [discriminate|].
    cbn [append indexOf String.length].
    replace (startsWith (String c (a ++ stringTerminator ++ b))
                        stringTerminator) with false.
    + now rewrite IH.
    + symmetry. unfold stringTerminator in *. cbn [startsWith] in Es |- *.
      destruct (Ascii.eqb ESC c) eqn:Ec; [|reflexivity].
      cbn [andb] in Es |- *.
      destruct a as [|d a]; [reflexivity|].
      cbn [append]. cbn [andb] in Es.
      destruct (Ascii.eqb backslash d); [discriminate|reflexivity].
Qed.

Section StringSequences.

Variable f : QTextCharFormat.
Variable h : Handler.
Hypothesis nothing_pending : m_pendingText h = EmptyString.
Hypothesis not_waiting : m_waitingForTerminator h = false.

Lemma string_letter_not_bracket (c : ascii) :
  Ascii.eqb c "]" = true \/ isStringLetter c = true ->
  Ascii.eqb c "[" = false /\ isIgnoredLetter c = false.
Proof.
  intros Hc.
  destruct (Ascii.eqb c "[") eqn:E1.
  { apply Ascii.eqb_eq in E1. subst c. destruct Hc; discriminate. }
  destruct (isIgnoredLetter c) eqn:E2; [|easy].
  unfold isIgnoredLetter in E2.
  apply orb_true_iff in E2 as [E2|E2];
    [apply orb_true_iff in E2 as [E2|E2]|];
    apply Ascii.eqb_eq in E2; subst c; destruct Hc; discriminate.
Qed.

(** The handler that has read ESC and a letter that takes a string
    argument. *)
Lemma string_sequence_entered (c : ascii) (rest : string) :
  Ascii.eqb c "]" = true \/ isStringLetter c = true ->
  parseText h (mkText (String ESC (String c rest)) f)
  = parseText (withWaiting true
                 (if Ascii.eqb c "]" then String BEL EmptyString
                  else m_alternateTerminator h)
                 (withPending EmptyString h))
              (mkText rest f).
Proof.
  intros Hc. destruct (string_letter_not_bracket c Hc) as [Hb Hi].
  rewrite (parseText_head f h (String ESC (String c rest)) rest
             (setWaiting true
                (if Ascii.eqb c "]" then String BEL EmptyString
                 else m_alternateTerminator h) (entry h f))
             nothing_pending not_waiting eq_refl).
  - apply withRunsBefore_nil.
  - right. rewrite innerBody_letter by exact Hb.
    unfold escapeLetter. cbn [at_ get]. rewrite Hi.
    destruct (Ascii.eqb c "]") eqn:Eo; [reflexivity|].
    destruct Hc as [Hc|Hc]; [discriminate|]. now rewrite Hc.
  - reflexivity.
  - reflexivity.
Qed.

(** A string argument up to the string terminator is dropped. *)
Lemma string_sequence_skipped (c : ascii) (a b : string) :
  Ascii.eqb c "]" = true \/ isStringLetter c = true ->
  indexOf stringTerminator a = None ->
  parseText h (mkText (String ESC (String c (a ++ stringTerminator ++ b))) f)
  = parseText (afterTerminator h) (mkText b f).
Proof.
  intros Hc Ha. rewrite (string_sequence_entered c _ Hc).
  rewrite (parseText_terminator f
             (withWaiting true
                (if Ascii.eqb c "]" then String BEL EmptyString
                 else m_alternateTerminator h)
                (withPending EmptyString h))
             eq_refl (a ++ stringTerminator ++ b)
             stringTerminator (String.length a)).
  - cbn [m_pendingText withWaiting withPending append].
    replace (remove0 _ _) with b.
    + reflexivity.
    + rewrite <- (remove0_append (a ++ stringTerminator) b) at 1.
      rewrite length_append, append_assoc. reflexivity.
  - left. split; [|reflexivity].
    cbn [m_pendingText withWaiting withPending append].
    now apply indexOf_terminator_first.
Qed.

(** An operating system command, ESC ], ends at the bell when the text
    behind it holds no string terminator. *)
Lemma command_ends_at_bell (a b : string) :
  indexOfChar BEL a = None ->
  indexOf stringTerminator (a ++ String BEL b) = None ->
  parseText h (mkText (String ESC (String "]" (a ++ String BEL b))) f)
  = parseText (afterTerminator h) (mkText b f).
Proof.
  intros Ha Hst.
  rewrite (string_sequence_entered "]" _ (or_introl eq_refl)).
  cbn [Ascii.eqb Bool.eqb].
  rewrite (parseText_terminator f
             (withWaiting true (String BEL EmptyString)
                          (withPending EmptyString h))
             eq_refl (a ++ String BEL b)
             (String BEL EmptyString) (String.length a)).
  - cbn [m_pendingText withWaiting withPending append].
    replace (remove0 _ _) with b.
    + reflexivity.
    + rewrite <- (remove0_append (a ++ String BEL EmptyString) b) at 1.
      rewrite length_append, append_assoc. reflexivity.
  - right. cbn [m_pendingText m_alternateTerminator withWaiting withPending
                append].
    repeat split; [exact Hst | discriminate |].
    rewrite indexOf_char. now apply indexOfChar_append.
Qed.

End StringSequences.

(** ** The clear-screen return, and text without escape characters *)

(** At ESC [ with "2J" but no "2K" in the upper-cased rest of the text,
    the inner body returns through the clear-screen branch. *)
Lemma innerBody_clear_screen (f : QTextCharFormat) (l : Locals)
      (rest : string) :
  contains (toUpper rest) "2K" = false ->
  contains (toUpper rest) "2J" = true ->
  innerBody f l (escape ++ rest)
  = Exit (handler (appendPending escape l)) [] ClearScreen.
Proof.
  intros H2K H2J. destruct rest as [|c rest]; [discriminate|].
  rewrite innerBody_introducer. unfold controlSequence.
  now rewrite H2K, H2J.
Qed.

Lemma parseText_clear_screen (h : Handler) (input : FormattedText)
      (t rest : string) :
  m_waitingForTerminator h = false ->
  m_pendingText h ++ text input = t ++ escape ++ rest ->
  indexOfChar ESC t = None ->
  contains (toUpper rest) "2K" = false ->
  contains (toUpper rest) "2J" = true ->
  parseText h input = Parsed (withPending escape h) [] (Some ClearScreen).
Proof.
  intros Hw Hbuf Ht H2K H2J. unfold parseText. rewrite Hbuf.
  cbn [loop].
  change (escape ++ rest) with (String ESC (String "[" rest)).
  rewrite outerBody_text_then_escape; auto.
  unfold innerLoop. cbn [loop].
  change (String ESC (String "[" rest)) with (escape ++ rest).
  rewrite (innerBody_clear_screen _ _ _ H2K H2J).
  destruct h as [closed waiting alt prev pend].
  destruct t; reflexivity.
Qed.

Lemma enforceBlockLimit_single (m : Z) (b : string) :
  enforceBlockLimit m [b] = [b].
Proof.
  unfold enforceBlockLimit. cbn [List.length].
  destruct (0 <? m) eqn:E1; [|reflexivity].
  destruct (m <? Z.of_nat 1) eqn:E2; [|reflexivity].
  apply Z.ltb_lt in E1, E2. lia.
Qed.

Lemma insertText_nothing_cleared (e : QPlainTextEdit) :
  insertText EmptyString (clear e) = clear e.
Proof.
  unfold insertText, clear. cbn. now rewrite enforceBlockLimit_single.
Qed.


(** ** Reads outside the list of numbers *)

Section OutOfRange.

Lemma last_cons_five (c : string) (rest : list string) :
  toInt (last rest EmptyString) = 5 ->
  toInt (last (c :: rest) EmptyString) = 5.
Proof. destruct rest; [discriminate|auto]. Qed.

(** The loop over the colour codes reads past the end of the numbers only
    when the last number is a 5. *)
Lemma applyCodes_out_of_range (f : QTextCharFormat) (numbers : list string)
      (l : Locals) :
  applyCodes f numbers l = None -> toInt (last numbers EmptyString) = 5.
Proof.
  remember (List.length numbers) as n eqn:Hn.
  revert numbers Hn l.
  induction n as [n IH] using lt_wf_ind.
  intros numbers Hn l. destruct numbers as [|c rest]; [discriminate|].
  assert (Hrest : forall r l0,
             (List.length r <= List.length rest)%nat ->
             applyCodes f r l0 = None -> toInt (last r EmptyString) = 5).
  { intros r l0 Hr Hcall.
    apply (IH (List.length r)) in Hcall; auto. simpl in Hn. lia. }
  cbn [applyCodes].
  destruct ((30 <=? toUInt c) && (toUInt c <=? 37));
    [intros H; apply last_cons_five; eapply Hrest; eauto|].
  destruct ((40 <=? toUInt c) && (toUInt c <=? 47));
    [intros H; apply last_cons_five; eapply Hrest; eauto|].
  destruct (toUInt c =? 0);
    [intros H; apply last_cons_five; eapply Hrest; eauto|].
  destruct (toUInt c =? 1);
    [intros H; apply last_cons_five; eapply Hrest; eauto|].
  destruct (toUInt c =? 39);
    [intros H; apply last_cons_five; eapply Hrest; eauto|].
  destruct (toUInt c =? 49);
    [intros H; apply last_cons_five; eapply Hrest; eauto|].
  destruct ((toUInt c =? 38) || (toUInt c =? 48));
    [|intros H; apply last_cons_five; eapply Hrest; eauto].
  destruct rest as [|mode rest1]; [discriminate|].
  destruct (toInt mode =? 2).
  { destruct rest1 as [|r [|g [|b rest2]]]; try discriminate.
    intros H. do 5 apply last_cons_five.
    exact (Hrest rest2 _ ltac:(simpl; lia) H). }
  destruct (toInt mode =? 5) eqn:E5.
  { destruct rest1 as [|idx rest2].
    - intros _. apply Z.eqb_eq in E5. exact E5.
    - intros H. do 3 apply last_cons_five.
      exact (Hrest rest2 _ ltac:(simpl; lia) H). }
  intros H. do 2 apply last_cons_five.
  exact (Hrest rest1 _ ltac:(simpl; lia) H).
Qed.

Lemma digitsValue_last (s : string) (acc v : Z) :
  s <> EmptyString -> digitsValue acc s = Some v ->
  exists pre c, s = pre ++ String c EmptyString /\ isDigit c = true
                /\ v = (v / 10) * 10 + Z.of_nat (nat_of_ascii c - 48).
Proof.
  revert acc.
  induction s as [|c s IH]; intros acc Hne Hv; [congruence|].
  cbn [digitsValue] in Hv. destruct (isDigit c) eqn:Hc; [|discriminate].
  destruct s as [|d s].
  - exists EmptyString, c. split; [reflexivity|]. split; [exact Hc|].
    cbn in Hv. injection Hv as <-.
    unfold isDigit in Hc. apply andb_true_iff in Hc as [H1 H2].
    apply Nat.leb_le in H1, H2.
    set (k := Z.of_nat (nat_of_ascii c - 48)).
    assert (0 <= k <= 9) by (unfold k; lia).
    replace ((acc * 10 + k) / 10) with acc; [reflexivity|].
    apply Z.div_unique with k; lia.
  - destruct (IH _ ltac:(discriminate) Hv) as (pre & c' & E & Hc' & Hv').
    exists (String c pre), c'. cbn [append]. rewrite <- E. auto.
Qed.

Lemma toInt_five (n : string) :
  toInt n = 5 -> exists pre, n = pre ++ "5".
Proof.
  unfold toInt, parseDecimal. destruct (isEmpty n) eqn:En; [discriminate|].
  destruct (digitsValue 0 n) as [v|] eqn:Ev; [|discriminate].
  destruct (v <=? 2147483647); [|discriminate]. intros ->.
  apply isEmpty_false in En.
  destruct (digitsValue_last n 0 5 En Ev) as (pre & c & E & Hc & Hv).
  exists pre. rewrite E. do 2 f_equal.
  change (5 / 10) with 0 in Hv.
  unfold isDigit in Hc. apply andb_true_iff in Hc as [H1 H2].
  apply Nat.leb_le in H1, H2.
  assert (Hn : nat_of_ascii c = 53%nat) by lia.
  rewrite <- (ascii_nat_embedding c), Hn. reflexivity.
Qed.

Lemma startsWith_self (sub b : string) : startsWith (sub ++ b) sub = true.
Proof.
  induction sub as [|c sub IH]; [reflexivity|].
  cbn [append startsWith]. now rewrite Ascii.eqb_refl, IH.
Qed.

Lemma contains_infix (a sub b : string) : contains (a ++ sub ++ b) sub = true.
Proof.
  unfold contains.
  induction a as [|c a IH]; cbn [append].
  - pose proof (startsWith_self sub b) as H.
    destruct (sub ++ b); cbn [indexOf]; now rewrite H.
  - cbn [indexOf]. destruct (startsWith _ sub); [reflexivity|].
    now destruct (indexOf sub (a ++ sub ++ b)).
Qed.

Lemma contains_of_suffix (s' s sub : string) :
  isSuffix s' s -> contains s' sub = true -> contains s sub = true.
Proof.
  intros [pre ->] H. destruct (contains (pre ++ s') sub) eqn:E; [reflexivity|].
  apply contains_suffix in E. congruence.
Qed.

Lemma fiveBeforeTerminator_suffix (s' s : string) :
  isSuffix s' s -> fiveBeforeTerminator s' = true ->
  fiveBeforeTerminator s = true.
Proof.
  unfold fiveBeforeTerminator. intros Hs H.
  apply orb_true_iff in H as [H|H]; apply orb_true_iff; [left|right];
    now apply (contains_of_suffix s' s).
Qed.

(** Where the digit scan stops before the end of the text, either nothing
    was read, or the text read ends with the last number, or with the last
    number and a semicolon. *)
Lemma scanNumbers_last (s strNumber pend : string) (numbers : list string)
      numbers' pend' s' :
  scanNumbers strNumber numbers pend s = (numbers', pend', s') ->
  exists consumed,
    s = consumed ++ s'
    /\ (s' = EmptyString
        \/ (strNumber = EmptyString /\ consumed = EmptyString
            /\ numbers' = numbers)
        \/ (exists pre,
               strNumber ++ consumed = pre ++ last numbers' EmptyString)
        \/ (exists pre,
               strNumber ++ consumed
               = pre ++ last numbers' EmptyString ++ ";")).
Proof.
  revert strNumber pend numbers.
  induction s as [|c s IH]; intros strNumber pend numbers H.
  - cbn in H. injection H as <- <- <-. exists EmptyString. auto.
  - cbn [scanNumbers] in H. destruct (isDigit c) eqn:Hc.
    + destruct (IH _ _ _ H) as (consumed & -> & Hcases).
      exists (String c consumed). split; [reflexivity|].
      destruct Hcases as [He|[(Hs & _)|[(pre & E)|(pre & E)]]].
      * auto.
      * now destruct strNumber.
      * right; right; left. exists pre. rewrite <- E.
        now rewrite append_assoc.
      * right; right; right. exists pre. rewrite <- E.
        now rewrite append_assoc.
    + destruct (isEmpty strNumber) eqn:En.
      * cbn [orb] in H. injection H as <- <- <-. exists EmptyString.
        apply isEmpty_true in En. split; auto.
      * destruct (negb (Ascii.eqb c semicolon)) eqn:Es; cbn [orb] in H.
        -- injection H as <- <- <-. exists EmptyString.
           split; [reflexivity|]. right; right; left.
           exists EmptyString. rewrite last_last, append_empty_r.
           reflexivity.
        -- apply negb_false_iff, Ascii.eqb_eq in Es. subst c.
           destruct (IH _ _ _ H) as (consumed & -> & Hcases).
           exists (String semicolon consumed). split; [reflexivity|].
           destruct Hcases as [He|[(_ & -> & ->)|[(pre & E)|(pre & E)]]].
           ++ auto.
           ++ right; right; right. exists EmptyString.
              rewrite last_last. reflexivity.
           ++ right; right; left. exists (strNumber ++ ";" ++ pre).
              cbn [append] in E. rewrite E.
              now rewrite !append_assoc.
           ++ right; right; right. exists (strNumber ++ ";" ++ pre).
              cbn [append] in E. rewrite E.
              now rewrite !append_assoc.
Qed.

Section Loops.

Variable f : QTextCharFormat.

Lemma controlSequence_out_of_range (l1 : Locals) (s1 : string) :
  controlSequence f l1 s1 = Crash -> fiveBeforeTerminator s1 = true.
Proof.
  unfold controlSequence.
  destruct (contains (toUpper s1) "2K"); [discriminate|].
  destruct (contains (toUpper s1) "2J"); [discriminate|].
  destruct (startsWith s1 eraseToEol); [discriminate|].
  destruct (scanNumbers "" [] (pending l1) s1) as [[numbers pend] s2] eqn:Hscan.
  destruct (isEmpty s2) eqn:Es2; [discriminate|].
  destruct (negb (startsWith s2 colorTerminator)) eqn:Hm; [discriminate|].
  destruct (applyCodes f numbers _) as [l5|] eqn:Hcodes; [discriminate|].
  intros _.
  apply applyCodes_out_of_range, toInt_five in Hcodes as [pre5 E5].
  apply negb_false_iff in Hm.
  destruct s2 as [|m s3]; [discriminate|].
  unfold colorTerminator in Hm. cbn [startsWith] in Hm.
  apply andb_true_iff in Hm as [Hm _]. apply Ascii.eqb_eq in Hm. subst m.
  destruct (scanNumbers_last _ _ _ _ _ _ _ Hscan) as (consumed & -> & Hc).
  unfold fiveBeforeTerminator. apply orb_true_iff.
  destruct Hc as [He|[(_ & _ & ->)|[(pre & E)|(pre & E)]]].
  - discriminate.
  - destruct pre5; discriminate.
  - left. cbn [append] in E. rewrite E, E5.
    rewrite !append_assoc. rewrite <- append_assoc.
    apply (contains_infix (pre ++ pre5) "5m" s3).
  - right. cbn [append] in E. rewrite E, E5.
    rewrite !append_assoc. rewrite <- append_assoc.
    apply (contains_infix (pre ++ pre5) "5;m" s3).
Qed.

Lemma innerBody_out_of_range (l : Locals) (s : string) :
  innerBody f l s = Crash -> fiveBeforeTerminator s = true.
Proof.
  unfold innerBody. destruct s as [|c0 s0]; [discriminate|].
  destruct (negb (Ascii.eqb ESC c0)) eqn:Hesc; [discriminate|].
  destruct (startsWith escape (String c0 s0)) eqn:Hinc; [discriminate|].
  destruct (negb (startsWith (String c0 s0) escape)) eqn:Hcsi.
  - unfold escapeLetter. destruct s0 as [|c1 s1].
    + apply negb_false_iff, Ascii.eqb_eq in Hesc. subst c0. discriminate.
    + cbn [at_ get].
      destruct (isIgnoredLetter c1); [discriminate|].
      destruct (Ascii.eqb c1 "]"); [discriminate|].
      destruct (isStringLetter c1); discriminate.
  - intros H. apply controlSequence_out_of_range in H.
    apply (fiveBeforeTerminator_suffix _ _ (isSuffix_remove0 _ _) H).
Qed.

(** A loop reads out of range only on a text that holds the '5' and the
    'm', when its body does and hands on a suffix of its text. *)
Lemma loop_out_of_range (body : Locals -> string -> Step) :
  (forall l s, stepSuffix s (body l s)) ->
  (forall l s, body l s = Crash -> fiveBeforeTerminator s = true) ->
  forall fuel l s,
    loop body fuel l s = Crash -> fiveBeforeTerminator s = true.
Proof.
  intros Hsuf Hbody fuel.
  induction fuel as [|fuel IH]; intros l s; [discriminate|].
  rewrite loop_S. pose proof (Hsuf l s) as Hs. pose proof (Hbody l s) as Hb.
  destruct (body l s) as [l' s'| | | |]; try discriminate.
  - intros H. apply IH in H.
    exact (fiveBeforeTerminator_suffix _ _ Hs H).
  - auto.
Qed.

Lemma outerBody_out_of_range (l : Locals) (s : string) :
  outerBody f l s = Crash -> fiveBeforeTerminator s = true.
Proof.
  unfold outerBody. destruct (isEmpty s); [discriminate|].
  destruct (negb (isEmpty (pending l))); [discriminate|].
  pose proof (skipStringArgument_suffix l s) as Hskip.
  pose proof (skipStringArgument_shrinks l s) as Hsh.
  destruct (skipStringArgument l s) as [l1 s1| | | |]; try discriminate;
    try contradiction.
  cbn [stepSuffix] in Hskip.
  destruct (indexOfChar ESC s1) as [p|] eqn:Hp; [|discriminate].
  assert (Hat : at_ 0 (remove0 p s1) = Some ESC)
    by (now apply indexOfChar_at).
  assert (Hsuf : isSuffix (remove0 p s1) s)
    by (eapply isSuffix_trans; [apply isSuffix_remove0|exact Hskip]).
  destruct p as [|p].
  - cbn [remove0] in Hat. rewrite Hat. rewrite Ascii.eqb_refl. cbn [negb].
    unfold innerLoop.
    destruct (loop (innerBody f) _ l1 s1) eqn:Ein; try discriminate.
    intros _.
    apply (loop_out_of_range _ (innerBody_suffix f) innerBody_out_of_range)
      in Ein.
    exact (fiveBeforeTerminator_suffix _ _ Hskip Ein).
  - rewrite Hat. rewrite Ascii.eqb_refl. cbn [negb].
    unfold innerLoop.
    destruct (loop (innerBody f) _ _ (remove0 (S p) s1)) eqn:Ein;
      try discriminate.
    intros _.
    apply (loop_out_of_range _ (innerBody_suffix f) innerBody_out_of_range)
      in Ein.
    exact (fiveBeforeTerminator_suffix _ _ Hsuf Ein).
Qed.

End Loops.

Lemma parseText_out_of_range (h : Handler) (input : FormattedText) :
  parseText h input = IndexOutOfRange ->
  fiveBeforeTerminator (m_pendingText h ++ text input) = true.
Proof.
  rewrite parseText_outcome. intros H.
  destruct (loop _ _ _ _) eqn:E; try discriminate.
  exact (loop_out_of_range _ (outerBody_suffix _)
           (outerBody_out_of_range _) _ _ _ E).
Qed.

End OutOfRange.

(** ** Where the text of the runs comes from *)

Section Conservation.

Lemma Subsequence_refl (s : string) : Subsequence s s.
Proof. induction s; constructor; auto. Qed.

Lemma Subsequence_empty (s : string) : Subsequence EmptyString s.
Proof. induction s; constructor; auto. Qed.

Lemma Subsequence_append (t1 s1 t2 s2 : string) :
  Subsequence t1 s1 -> Subsequence t2 s2 ->
  Subsequence (t1 ++ t2) (s1 ++ s2).
Proof.
  intros H1 H2. induction H1; cbn [append]; try constructor; auto.
Qed.

Lemma Subsequence_more (t s x : string) :
  Subsequence t s -> Subsequence t (s ++ x).
Proof.
  intros H. rewrite <- (append_empty_r t).
  apply Subsequence_append; [exact H|apply Subsequence_empty].
Qed.

Lemma Subsequence_after (t s x : string) :
  Subsequence t s -> Subsequence t (x ++ s).
Proof.
  intros H. change t with ("" ++ t).
  apply Subsequence_append; [apply Subsequence_empty|exact H].
Qed.

Lemma Subsequence_left (n : nat) (s : string) : Subsequence (left n s) s.
Proof.
  rewrite <- (left_remove0 n s) at 2. apply Subsequence_more,
  Subsequence_refl.
Qed.

Lemma left_all (s : string) : left (String.length s) s = s.
Proof. induction s; cbn; congruence. Qed.

Lemma textOf_emit (t : string) (l : Locals) :
  textOf (outputData (emit t l)) = textOf (outputData l) ++ t.
Proof.
  unfold textOf, emit, QStr.concat. cbn [outputData].
  rewrite map_app, fold_left_app. reflexivity.
Qed.

Variable f : QTextCharFormat.

(** The runs a pass of the inner body leaves: the ones it found, with at
    most the lone escape character added. *)
Lemma innerBody_output (l : Locals) (s : string) :
  match innerBody f l s with
  | Again l' s' | Leave l' s' =>
      outputData l' = outputData l
      \/ (outputData l' = outputData (emit (left 1 s) l)
          /\ s' = remove0 1 s)
  | Exit _ out _ => out = outputData l \/ out = []
  | _ => True
  end.
Proof.
  inner_cases s; cbn; auto.
  apply applyCodes_frame in Hcodes as (Ho & _). left. rewrite Ho.
  destruct numbers; reflexivity.
Qed.

(** The buffer of the call. *)
Variable buffer : string.

(** The runs emitted so far are taken from the part of the buffer in
    front of the text that is left. *)
Let taken (l : Locals) (s : string) : Prop :=
  exists c, buffer = c ++ s /\ Subsequence (textOf (outputData l)) c.

Let fromBuffer (out : list FormattedText) : Prop :=
  Subsequence (textOf out) buffer.

Lemma taken_fromBuffer (l : Locals) (s : string) :
  taken l s -> fromBuffer (outputData l).
Proof. intros (c & -> & H). now apply Subsequence_more. Qed.

Lemma taken_suffix (l l' : Locals) (s s' : string) :
  taken l s -> isSuffix s' s -> outputData l' = outputData l -> taken l' s'.
Proof.
  intros (c & -> & H) [pre ->] Ho. exists (c ++ pre). rewrite Ho.
  split; [now rewrite append_assoc|now apply Subsequence_more].
Qed.

Lemma taken_emit (l : Locals) (s : string) (n : nat) :
  taken l s -> taken (emit (left n s) l) (remove0 n s).
Proof.
  intros (c & -> & H). exists (c ++ left n s). split.
  - now rewrite append_assoc, left_remove0.
  - rewrite textOf_emit.
    apply Subsequence_append; [exact H|apply Subsequence_refl].
Qed.

Lemma innerBody_taken (l : Locals) (s : string) :
  taken l s ->
  match innerBody f l s with
  | Again l' s' | Leave l' s' => taken l' s'
  | Exit _ out _ => fromBuffer out
  | _ => True
  end.
Proof.
  intros Ht. pose proof (innerBody_output l s) as Ho.
  pose proof (innerBody_suffix f l s) as Hs.
  destruct (innerBody f l s) as [l' s'|l' s'|h' out call| |]; auto.
  - destruct Ho as [Ho|[Ho ->]].
    + exact (taken_suffix l l' s s' Ht Hs Ho).
    + destruct (taken_emit l s 1 Ht) as (c & E & H).
      exists c. now rewrite Ho.
  - destruct Ho as [Ho|[Ho ->]].
    + exact (taken_suffix l l' s s' Ht Hs Ho).
    + destruct (taken_emit l s 1 Ht) as (c & E & H).
      exists c. now rewrite Ho.
  - destruct Ho as [->| ->].
    + exact (taken_fromBuffer l s Ht).
    + apply Subsequence_empty.
Qed.

Lemma innerLoop_taken (fuel : nat) (l : Locals) (s : string) :
  taken l s ->
  match loop (innerBody f) fuel l s with
  | Leave l' s' => taken l' s'
  | Exit _ out _ => fromBuffer out
  | _ => True
  end.
Proof.
  apply (loop_invariant (innerBody f) taken
           (fun r => match r with
                     | Leave l' s' => taken l' s'
                     | Exit _ out _ => fromBuffer out
                     | _ => True
                     end)); [| |exact I].
  - intros l0 s0 l' s' Ht E. pose proof (innerBody_taken l0 s0 Ht) as H.
    now rewrite E in H.
  - intros l0 s0 r Ht E. pose proof (innerBody_taken l0 s0 Ht) as H.
    rewrite E in H. destruct r; auto.
Qed.

Lemma outerBody_taken (l : Locals) (s : string) :
  taken l s ->
  match outerBody f l s with
  | Again l' s' => taken l' s'
  | Leave l' _ => fromBuffer (outputData l')
  | Exit _ out _ => fromBuffer out
  | _ => True
  end.
Proof.
  intros Ht. unfold outerBody.
  destruct (isEmpty s); [exact (taken_fromBuffer l s Ht)|].
  destruct (negb (isEmpty (pending l))); [exact (taken_fromBuffer l s Ht)|].
  pose proof (skipStringArgument_suffix l s) as Hsuf.
  pose proof (skipStringArgument_runs l s) as Hruns.
  pose proof (skipStringArgument_shrinks l s) as Hsh.
  destruct (skipStringArgument l s) as [l1 s1|l1 s1| | |];
    try contradiction; cbn [runsOf stepSuffix] in *.
  - assert (Ht1 : taken l1 s1) by exact (taken_suffix l l1 s s1 Ht Hsuf Hruns).
    destruct (indexOfChar ESC s1) as [p|] eqn:Hp.
    + assert (Ht2 : taken (afterText (left p s1) l1) (remove0 p s1)).
      { destruct p as [|p].
        - destruct s1; exact Ht1.
        - unfold afterText.
          replace (isEmpty (left (S p) s1)) with false.
          + now apply taken_emit.
          + apply indexOfChar_bound in Hp. now destruct s1. }
      replace (match p with
               | O => (l1, s1)
               | S _ => (emit (left p s1) l1, remove0 p s1)
               end)
        with (afterText (left p s1) l1, remove0 p s1).
      * destruct (at_ 0 (remove0 p s1)) as [c|]; [|exact I].
        destruct (negb (Ascii.eqb c ESC)); [exact (taken_fromBuffer _ _ Ht2)|].
        pose proof (innerLoop_taken (S (String.length (remove0 p s1))) _ _ Ht2)
          as Hin.
        unfold innerLoop.
        destruct (loop (innerBody f) _ _ _) eqn:E; auto.
        now apply loop_never_again in E.
      * destruct p as [|p]; [now destruct s1|].
        unfold afterText.
        replace (isEmpty (left (S p) s1)) with false; [reflexivity|].
        apply indexOfChar_bound in Hp. now destruct s1.
    + pose proof (taken_emit l1 s1 (String.length s1) Ht1) as H.
      rewrite left_all in H. exact (taken_fromBuffer _ _ H).
  - rewrite Hruns. exact (taken_fromBuffer l s Ht).
Qed.

Lemma outerLoop_taken (fuel : nat) (l : Locals) (s : string) :
  taken l s ->
  match loop (outerBody f) fuel l s with
  | Leave l' _ => fromBuffer (outputData l')
  | Exit _ out _ => fromBuffer out
  | _ => True
  end.
Proof.
  apply (loop_invariant (outerBody f) taken
           (fun r => match r with
                     | Leave l' _ => fromBuffer (outputData l')
                     | Exit _ out _ => fromBuffer out
                     | _ => True
                     end)); [| |exact I].
  - intros l0 s0 l' s' Ht E. pose proof (outerBody_taken l0 s0 Ht) as H.
    now rewrite E in H.
  - intros l0 s0 r Ht E. pose proof (outerBody_taken l0 s0 Ht) as H.
    rewrite E in H. destruct r; auto.
Qed.

End Conservation.

Lemma parseText_subsequence (h h' : Handler) (input : FormattedText)
      (out : list FormattedText) (call : option TextEditCall) :
  parseText h input = Parsed h' out call ->
  Subsequence (textOf out) (m_pendingText h ++ text input).
Proof.
  rewrite parseText_outcome.
  pose proof (outerLoop_taken (format input) (m_pendingText h ++ text input)
                (S (String.length (m_pendingText h ++ text input)))
                (entry h (format input)) (m_pendingText h ++ text input))
    as H.
  destruct (loop _ _ _ _); try discriminate; intros [= _ <- _]; apply H;
    exists EmptyString; (split; [reflexivity|constructor]).
Qed.

(** ** The shape of the pending text *)

Section PendingShape.

Lemma allParameters_append (a b : string) :
  allParameters (a ++ b) = allParameters a && allParameters b.
Proof.
  induction a as [|c a IH]; [reflexivity|].
  cbn [append allParameters]. now rewrite IH, andb_assoc.
Qed.

Lemma scanNumbers_reads (s strNumber pend : string) (numbers : list string)
      numbers' pend' s' :
  scanNumbers strNumber numbers pend s = (numbers', pend', s') ->
  exists consumed,
    pend' = pend ++ consumed /\ allParameters consumed = true.
Proof.
  revert strNumber pend numbers.
  induction s as [|c s IH]; intros strNumber pend numbers H.
  - cbn in H. injection H as <- <- <-. exists EmptyString.
    now rewrite append_empty_r.
  - cbn [scanNumbers] in H. destruct (isDigit c) eqn:Hc.
    + destruct (IH _ _ _ H) as (consumed & -> & Hall).
      exists (String c consumed). rewrite append_assoc.
      split; [reflexivity|]. cbn [allParameters]. now rewrite Hc, Hall.
    + destruct (isEmpty strNumber || negb (Ascii.eqb c semicolon)) eqn:Es.
      * injection H as <- <- <-. exists EmptyString.
        now rewrite append_empty_r.
      * apply orb_false_iff in Es as [_ Es].
        apply negb_false_iff in Es.
        destruct (IH _ _ _ H) as (consumed & -> & Hall).
        exists (String c consumed). rewrite append_assoc.
        split; [reflexivity|]. cbn [allParameters].
        now rewrite Es, Hall, orb_true_r.
Qed.

Variable f : QTextCharFormat.

Let shaped (l : Locals) : Prop := holdsPartialSequence (handler l).

Lemma quiet_shaped (l : Locals) : quiet l -> shaped l.
Proof. intros [Hp _] _. unfold pending in Hp. now rewrite Hp. Qed.

Lemma innerBody_shaped (l : Locals) (s : string) :
  quiet l ->
  match innerBody f l s with
  | Leave l' _ => shaped l'
  | _ => True
  end.
Proof.
  intros Hq. pose proof Hq as [Hp Hw].
  inner_cases s; auto; try exact (quiet_shaped l Hq).
  - intros _. unfold appendPending, pending. cbn. unfold pending in Hp.
    rewrite Hp. cbn [append]. unfold partialSequence. now rewrite Hinc.
  - intros Hw'. discriminate.
  - intros Hw'. discriminate.
  - intros _. unfold pending in Hscan.
    destruct (scanNumbers_reads _ _ _ _ _ _ _ Hscan) as (consumed & -> & Ha).
    apply negb_false_iff in Hcsi. apply startsWith_left in Hcsi.
    cbn [setPending withPending handler m_pendingText appendPending].
    unfold pending. unfold pending in Hp. rewrite Hp, Hcsi. cbn [append].
    unfold partialSequence. apply orb_true_iff. right.
    change (String ESC (String "[" consumed)) with (escape ++ consumed).
    now rewrite startsWith_self, remove0_append.
  - intros _. reflexivity.
Qed.

Lemma innerLoop_shaped (fuel : nat) (l : Locals) (s : string) :
  quiet l ->
  match loop (innerBody f) fuel l s with
  | Leave l' _ => shaped l'
  | _ => True
  end.
Proof.
  intros Hq.
  apply (loop_invariant (innerBody f) (fun x _ => quiet x)
           (fun r => match r with Leave l' _ => shaped l' | _ => True end));
    auto.
  - intros l0 s0 l' s' H0 E.
    pose proof (innerBody_quiet f l0 s0 H0) as H. now rewrite E in H.
  - intros l0 s0 r H0 E.
    pose proof (innerBody_shaped l0 s0 H0) as H. rewrite E in H.
    now destruct r.
Qed.

Lemma introducer_shaped (h : Handler) :
  m_pendingText h = escape -> holdsPartialSequence h.
Proof. intros E _. now rewrite E. Qed.

Lemma skipStringArgument_shaped (l : Locals) (s : string) :
  pending l = EmptyString ->
  match skipStringArgument l s with
  | Leave l' _ => shaped l'
  | _ => True
  end.
Proof.
  intros Hp. unfold skipStringArgument.
  destruct (m_waitingForTerminator (handler l)) eqn:Hw; [|exact I].
  assert (Hfound : forall p t,
             match (if isEmpty (remove0 (p + String.length t) s)
                    then Leave (setWaiting false EmptyString l)
                               (remove0 (p + String.length t) s)
                    else Again (setWaiting false EmptyString l)
                               (remove0 (p + String.length t) s)) with
             | Leave l' _ => shaped l'
             | _ => True
             end).
  { intros p t. destruct (isEmpty _); [|exact I].
    intros _. cbn. unfold pending in Hp. now rewrite Hp. }
  assert (Hnone : shaped (setPending s l)).
  { intros Hw'. cbn in Hw'. congruence. }
  destruct (indexOf _ s) as [p|]; [apply Hfound|].
  destruct (negb (isEmpty _)); [|exact Hnone].
  destruct (indexOf _ s) as [p|]; [apply Hfound|exact Hnone].
Qed.

Lemma outerBody_shaped (l : Locals) (s : string) :
  shaped l ->
  match outerBody f l s with
  | Again l' _ | Leave l' _ => shaped l'
  | Exit h _ _ => holdsPartialSequence h
  | _ => True
  end.
Proof.
  intros Hs. unfold outerBody.
  destruct (isEmpty s); [exact Hs|].
  destruct (negb (isEmpty (pending l))) eqn:Hp; [exact Hs|].
  apply negb_false_iff, isEmpty_true in Hp.
  pose proof (skipStringArgument_quiet l s Hp) as Hq.
  pose proof (skipStringArgument_shaped l s Hp) as Hl.
  destruct (skipStringArgument l s) as [l1 s1|l1 s1| | |];
    try contradiction; auto.
  destruct (indexOfChar ESC s1) as [p|].
  - assert (Hq2 : quiet (fst match p with
                             | O => (l1, s1)
                             | S _ => (emit (left p s1) l1, remove0 p s1)
                             end)) by (destruct p; exact Hq).
    destruct (match p with
              | O => (l1, s1)
              | S _ => (emit (left p s1) l1, remove0 p s1)
              end) as [l2 s2].
    cbn [fst] in Hq2.
    destruct (at_ 0 s2) as [c|]; [|exact I].
    destruct (negb (Ascii.eqb c ESC)); [exact (quiet_shaped l2 Hq2)|].
    pose proof (innerLoop_shaped (S (String.length s2)) l2 s2 Hq2) as Hin.
    pose proof (innerLoop_quiet f (S (String.length s2)) l2 s2 Hq2) as Hex.
    unfold innerLoop.
    destruct (loop (innerBody f) _ l2 s2) eqn:E; auto.
    + now apply loop_never_again in E.
    + apply introducer_shaped. apply Hex.
  - exact (quiet_shaped (emit s1 l1) Hq).
Qed.

Lemma outerLoop_shaped (fuel : nat) (l : Locals) (s : string) :
  shaped l ->
  match loop (outerBody f) fuel l s with
  | Leave l' _ => shaped l'
  | Exit h _ _ => holdsPartialSequence h
  | _ => True
  end.
Proof.
  intros Hs.
  apply (loop_invariant (outerBody f) (fun x _ => shaped x)
           (fun r => match r with
                     | Leave l' _ => shaped l'
                     | Exit h _ _ => holdsPartialSequence h
                     | _ => True
                     end)); auto.
  - intros l0 s0 l' s' H0 E.
    pose proof (outerBody_shaped l0 s0 H0) as H. now rewrite E in H.
  - intros l0 s0 r H0 E.
    pose proof (outerBody_shaped l0 s0 H0) as H. rewrite E in H.
    now destruct r.
Qed.

End PendingShape.

Lemma parseText_partial_sequence (h h' : Handler) (input : FormattedText)
      (out : list FormattedText) (call : option TextEditCall) :
  parseText h input = Parsed h' out call -> holdsPartialSequence h'.
Proof.
  rewrite parseText_outcome.
  pose proof (outerLoop_shaped (format input)
                (S (String.length (m_pendingText h ++ text input)))
                (entry h (format input)) (m_pendingText h ++ text input))
    as H.
  destruct (loop _ _ _ _); try discriminate; intros [= <- _ _]; apply H;
    intros _; reflexivity.
Qed.

(** ** The scroll bar policy, and the palette beyond 255 *)

Lemma Qceiling_le (x : Q) (k : Z) :
  Qceiling x <= k <-> (x <= inject_Z k)%Q.
Proof.
  split; intros H.
  - apply Qle_trans with (inject_Z (Qceiling x)); [apply Qle_ceiling|].
    now rewrite <- Zle_Qle.
  - pose proof (Qceiling_lt x) as Hlt.
    assert (Hk : (inject_Z (Qceiling x - 1) < inject_Z k)%Q)
      by (eapply Qlt_le_trans; eauto).
    rewrite <- Zlt_Qlt in Hk. lia.
Qed.

Lemma scrollbar_shown_iff (autoscroll : bool) (ratio : Q) (lineCount : Z) :
  (-2147483648 <= Qceiling ratio <= 2147483647) ->
  (updateScrollbarVisibility autoscroll ratio lineCount
   = Some ScrollBarAlwaysOn
   <-> autoscroll = false /\ (ratio <= inject_Z (lineCount - 1))%Q)
  /\ (updateScrollbarVisibility autoscroll ratio lineCount
      = Some ScrollBarAlwaysOff
      <-> autoscroll = true \/ (inject_Z (lineCount - 1) < ratio)%Q).
Proof.
  intros Hr. unfold updateScrollbarVisibility, qCeil. cbv zeta.
  replace ((-2147483648 <=? Qceiling ratio) && (Qceiling ratio <=? 2147483647))
    with true by (symmetry; apply andb_true_iff; split; apply Z.leb_le; lia).
  pose proof (Qceiling_le ratio (lineCount - 1)) as Hc.
  destruct autoscroll; cbn [orb].
  - split; split; try discriminate; auto. intros [? _]. discriminate.
  - destruct (lineCount <=? Qceiling ratio) eqn:E.
    + apply Z.leb_le in E. split; split; try discriminate; auto.
      * intros [_ H]. apply Hc in H. lia.
      * intros _. right. apply Qnot_le_lt. intros H. apply Hc in H. lia.
    + apply Z.leb_gt in E. split; split; try discriminate; auto.
      * intros _. split; [reflexivity|]. apply Hc. lia.
      * intros [H|H]; [discriminate|]. exfalso.
        apply (Qlt_not_le _ _ H). apply Hc. lia.
Qed.

(** The value [scrollToBottom] asks for. *)
Lemma scrollToBottom_value
      (height : double) (fontHeight lineCount visibleLines : Z) :
  qRound (ddiv height (ofInt fontHeight)) = Some visibleLines ->
  0 <= lineCount < 2147483647 ->
  (visibleLines <= 0 -> scrollToBottom height fontHeight lineCount = Some [])
  /\ (0 < visibleLines ->
      exists v,
        scrollToBottom height fontHeight lineCount
        = Some [SetMinimum 0; SetMaximum lineCount; SetValue v]
        /\ (v = 0 \/ 3 <= v <= lineCount + 1)
        /\ (lineCount < v <-> visibleLines = 1 /\ 1 < lineCount)).
Proof.
  intros Hq Hlc.
  destruct (scrollToBottom_cases height fontHeight lineCount visibleLines Hq)
    as (Hnone & Hmore & Hfits).
  split; [exact Hnone|]. intros Hv.
  destruct (Z.lt_ge_cases visibleLines lineCount) as [Hl|Hl].
  - exists (lineCount - visibleLines + 2).
    split; [apply Hmore; lia|]. split; [right; lia|lia].
  - exists 0. split; [apply Hfits; lia|]. split; [now left|lia].
Qed.

Lemma paletteColor_above_255 (index : Z) :
  256 <= index <= 390451804 -> paletteColor index = InvalidColor.
Proof.
  intros H. unfold paletteColor.
  replace (index <? 8) with false by (symmetry; apply Z.ltb_ge; lia).
  replace (index <? 16) with false by (symmetry; apply Z.ltb_ge; lia).
  replace (index <? 232) with false by (symmetry; apply Z.ltb_ge; lia).
  cbv zeta. unfold wrapU32. rewrite Z.mod_small by lia.
  unfold asInt32, mkColor, inByte.
  destruct ((index - 232) * 11 <? 2147483648) eqn:E.
  - replace ((index - 232) * 11 <=? 255) with false
      by (symmetry; apply Z.leb_gt; lia).
    now rewrite andb_false_r.
  - apply Z.ltb_ge in E.
    replace (0 <=? (index - 232) * 11 - 4294967296) with false
      by (symmetry; apply Z.leb_gt; lia).
    reflexivity.
Qed.

(** ** Handlers between calls *)

Section AtRest.

Lemma withPending_own (h : Handler) : withPending (m_pendingText h) h = h.
Proof. now destruct h. Qed.

(** An empty chunk changes nothing in a settled handler. *)
Lemma settled_empty_chunk (h : Handler) (f : QTextCharFormat) :
  settled h -> parseText h (mkText EmptyString f) = Parsed h [] None.
Proof.
  intros [Hp|[(Hw & Hs)|[(Hw & ds & numbers & Hp & Hne & [H2K H2J] & HK & Hscan)
                        |(Hw & Hst & Halt)]]].
  - unfold parseText. cbn [text format]. rewrite Hp. cbn.
    now rewrite withPending_same.
  - pose proof (startsWith_left _ _ Hs) as Hl.
    pose proof (startsWith_length _ _ Hs) as Hlen.
    destruct h as [closed waiting alt prev pend]. cbn in *. subst waiting.
    destruct pend as [|a [|b [|c pend]]]; cbn in Hlen; try lia.
    + reflexivity.
    + cbn in Hl. injection Hl as <-. reflexivity.
    + cbn in Hl. injection Hl as <- <-. reflexivity.
  - rewrite parseText_outcome. cbn [text format].
    rewrite append_empty_r, Hp.
    destruct ds as [|c ds]; [congruence|].
    change (String.length (escape ++ String c ds))
      with (S (S (S (String.length ds)))).
    rewrite loop_S.
    rewrite (outerBody_at_escape f (entry h f) (escape ++ String c ds)
               (conj eq_refl Hw) eq_refl).
    unfold innerLoop. rewrite loop_S, innerBody_introducer.
    unfold controlSequence. rewrite H2K, H2J, HK.
    change (pending (appendPending escape (entry h f))) with escape.
    rewrite Hscan. cbn [isEmpty]. rewrite loop_S.
    cbn [outerBody isEmpty outcome handler setPending appendPending
         outputData entry withPending].
    f_equal. rewrite <- Hp. destruct h; reflexivity.
  - destruct (m_pendingText h) as [|c p] eqn:Hp.
    + unfold parseText. cbn [text format]. rewrite Hp. cbn.
      now rewrite withPending_same.
    + rewrite (parseText_no_terminator f h Hw EmptyString);
        rewrite ?append_empty_r, ?Hp; try assumption; try discriminate.
      rewrite <- Hp. now rewrite withPending_own.
Qed.

Variable f : QTextCharFormat.

Lemma quiet_settled (l : Locals) : quiet l -> settled (handler l).
Proof. intros [Hp _]. now left. Qed.

Lemma innerBody_settled (l : Locals) (s : string) :
  quiet l ->
  match innerBody f l s with
  | Leave l' _ => settled (handler l')
  | _ => True
  end.
Proof.
  intros Hq. pose proof Hq as [Hp Hw]. unfold pending in Hp.
  inner_cases s; auto; try exact (quiet_settled l Hq).
  - right. left. unfold appendPending, setPending, pending.
    cbn [handler withPending m_pendingText m_waitingForTerminator].
    rewrite Hp. cbn [append]. auto.
  - left. exact Hp.
  - left. exact Hp.
  - apply negb_false_iff in Hcsi. pose proof (startsWith_left _ _ Hcsi) as Hl.
    unfold appendPending, setPending, pending in Hscan.
    cbn [handler withPending m_pendingText] in Hscan.
    rewrite Hp, Hl in Hscan. cbn [append] in Hscan.
    apply isEmpty_true in Hs2. subst s2.
    destruct (scanNumbers_suffix _ _ _ _ _ _ _ Hscan) as [Hpend _].
    rewrite append_empty_r in Hpend. subst pend.
    unfold appendPending, setPending, pending.
    cbn [handler withPending m_pendingText m_waitingForTerminator].
    destruct (remove0 (String.length escape) (String c0 s0)) as [|c1 s1].
    + right. left. split; [exact Hw|]. reflexivity.
    + right. right. left. split; [exact Hw|].
      exists (String c1 s1), numbers. cbn [m_pendingText].
      repeat split; try assumption; try discriminate.
  - left. reflexivity.
Qed.

Lemma innerLoop_settled (fuel : nat) (l : Locals) (s : string) :
  quiet l ->
  match loop (innerBody f) fuel l s with
  | Leave l' _ => settled (handler l')
  | _ => True
  end.
Proof.
  intros Hq.
  apply (loop_invariant (innerBody f) (fun x _ => quiet x)
           (fun r => match r with
                     | Leave l' _ => settled (handler l')
                     | _ => True
                     end));
    auto.
  - intros l0 s0 l' s' H0 E.
    pose proof (innerBody_quiet f l0 s0 H0) as H. now rewrite E in H.
  - intros l0 s0 r H0 E.
    pose proof (innerBody_settled l0 s0 H0) as H. rewrite E in H.
    now destruct r.
Qed.

Lemma skipStringArgument_settled (l : Locals) (s : string) :
  pending l = EmptyString ->
  match skipStringArgument l s with
  | Leave l' _ => settled (handler l')
  | _ => True
  end.
Proof.
  intros Hp. unfold pending in Hp. unfold skipStringArgument.
  destruct (m_waitingForTerminator (handler l)) eqn:Hw; [|exact I].
  fold stringTerminator.
  assert (Hfound : forall p t,
             match (if isEmpty (remove0 (p + String.length t) s)
                    then Leave (setWaiting false EmptyString l)
                               (remove0 (p + String.length t) s)
                    else Again (setWaiting false EmptyString l)
                               (remove0 (p + String.length t) s)) with
             | Leave l' _ => settled (handler l')
             | _ => True
             end).
  { intros p t. destruct (isEmpty _); [|exact I]. now left. }
  destruct (indexOf stringTerminator s) as [p|] eqn:Hst; [apply Hfound|].
  destruct (negb (isEmpty (m_alternateTerminator (handler l)))) eqn:Ha.
  - destruct (indexOf (m_alternateTerminator (handler l)) s) as [p|] eqn:Hi;
      [apply Hfound|].
    right. right. right. cbn. auto.
  - apply negb_false_iff, isEmpty_true in Ha.
    right. right. right. cbn. auto.
Qed.

Lemma outerBody_settled (l : Locals) (s : string) :
  settled (handler l) ->
  match outerBody f l s with
  | Again l' _ | Leave l' _ => settled (handler l')
  | Exit h _ _ => settled h
  | _ => True
  end.
Proof.
  intros Hs. unfold outerBody.
  destruct (isEmpty s); [exact Hs|].
  destruct (negb (isEmpty (pending l))) eqn:Hp; [exact Hs|].
  apply negb_false_iff, isEmpty_true in Hp.
  pose proof (skipStringArgument_quiet l s Hp) as Hq.
  pose proof (skipStringArgument_settled l s Hp) as Hl.
  destruct (skipStringArgument l s) as [l1 s1|l1 s1| | |];
    try contradiction; auto.
  destruct (indexOfChar ESC s1) as [p|].
  - assert (Hq2 : quiet (fst match p with
                             | O => (l1, s1)
                             | S _ => (emit (left p s1) l1, remove0 p s1)
                             end)) by (destruct p; exact Hq).
    destruct (match p with
              | O => (l1, s1)
              | S _ => (emit (left p s1) l1, remove0 p s1)
              end) as [l2 s2].
    cbn [fst] in Hq2.
    destruct (at_ 0 s2) as [c|]; [|exact I].
    destruct (negb (Ascii.eqb c ESC)); [exact (quiet_settled l2 Hq2)|].
    pose proof (innerLoop_settled (S (String.length s2)) l2 s2 Hq2) as Hin.
    pose proof (innerLoop_quiet f (S (String.length s2)) l2 s2 Hq2) as Hex.
    unfold innerLoop.
    destruct (loop (innerBody f) _ l2 s2) eqn:E; auto.
    + now apply loop_never_again in E.
    + destruct Hex as [Hpe Hwe]. right. left. rewrite Hpe. auto.
  - exact (quiet_settled (emit s1 l1) Hq).
Qed.

Lemma outerLoop_settled (fuel : nat) (l : Locals) (s : string) :
  settled (handler l) ->
  match loop (outerBody f) fuel l s with
  | Leave l' _ => settled (handler l')
  | Exit h _ _ => settled h
  | _ => True
  end.
Proof.
  intros Hs.
  apply (loop_invariant (outerBody f) (fun x _ => settled (handler x))
           (fun r => match r with
                     | Leave l' _ => settled (handler l')
                     | Exit h _ _ => settled h
                     | _ => True
                     end)); auto.
  - intros l0 s0 l' s' H0 E.
    pose proof (outerBody_settled l0 s0 H0) as H. now rewrite E in H.
  - intros l0 s0 r H0 E.
    pose proof (outerBody_settled l0 s0 H0) as H. rewrite E in H.
    now destruct r.
Qed.

End AtRest.

Lemma parseText_settled (h h' : Handler) (input : FormattedText)
      (out : list FormattedText) (call : option TextEditCall) :
  parseText h input = Parsed h' out call -> settled h'.
Proof.
  rewrite parseText_outcome.
  pose proof (outerLoop_settled (format input)
                (S (String.length (m_pendingText h ++ text input)))
                (entry h (format input)) (m_pendingText h ++ text input))
    as H.
  destruct (loop _ _ _ _); try discriminate; intros [= <- _ _]; apply H;
    now left.
Qed.

(** ** Reads out of range *)

(** X1: a call reads outside the list of numbers only when its buffer
    (the pending text and the chunk) holds a '5' in front of an 'm', next
    to it or with one semicolon between them.  On every other buffer the
    call returns its runs: the character read at line 677 behind a lone
    escape character and the one the assertion of line 664 reads are
    always there, and the loops end. *)
Theorem out_of_range_needs_five_before_m
        (h : Handler) (input : FormattedText) :
  fiveBeforeTerminator (m_pendingText h ++ text input) = false ->
  exists h' out call, parseText h input = Parsed h' out call.
Proof.
  intros H. destruct (parseText h input) as [h' out call| |] eqn:E.
  - eauto.
  - apply parseText_out_of_range in E. congruence.
  - now apply parseText_returns in E.
Qed.

Lemma out_of_range_needs_five_before_m_witness :
  exists h' out call,
    parseText idleHandler (mkText (escape ++ "38;5;1mX") defaultFormat)
    = Parsed h' out call.
Proof.
  apply (out_of_range_needs_five_before_m
           idleHandler (mkText (escape ++ "38;5;1mX") defaultFormat)).
  reflexivity.
Defined.

(** ** No text is made up *)

(** X2: the text of the runs a call returns, joined in order, is the
    buffer of the call with characters left out: the decoder adds no
    character and changes no order.  So is the string
    [vt100Processing] hands to the document. *)
Theorem output_taken_from_buffer :
  (forall (h h' : Handler) (input : FormattedText)
          (out : list FormattedText) (call : option TextEditCall),
      parseText h input = Parsed h' out call ->
      Subsequence (textOf out) (m_pendingText h ++ text input))
  /\ (forall (data cleanLine : string) (t t' : Terminal),
         vt100Processing data t = Some (cleanLine, t') ->
         Subsequence cleanLine
                     (m_pendingText (m_escapeCodeHandler t) ++ data)).
Proof.
  split.
  - exact parseText_subsequence.
  - intros data cleanLine t t'. unfold vt100Processing.
    destruct (parseText _ _) as [h out call| |] eqn:E; try discriminate.
    intros [= <- _].
    exact (parseText_subsequence _ _ _ _ _ E).
Qed.

Lemma output_taken_from_buffer_witness :
  Subsequence "abcd" ("ab" ++ escape ++ "31mcd").
Proof.
  apply (proj1 output_taken_from_buffer idleHandler
           (setFormatScope (setForeground (Some (Rgb 170 0 0)) defaultFormat)
                           idleHandler)
           (mkText ("ab" ++ escape ++ "31mcd") defaultFormat)
           [mkText "ab" defaultFormat;
            mkText "cd" (setForeground (Some (Rgb 170 0 0)) defaultFormat)]
           None).
  reflexivity.
Defined.

(** ** What stays pending between calls *)

(** X3: when a call has returned and the handler skips no string
    argument, the pending text is the start of a control sequence:
    nothing, the escape character, or ESC [ followed by decimal digits
    and semicolons.  Literal text is never kept back. *)
Theorem pending_text_is_partial_sequence
        (h h' : Handler) (input : FormattedText)
        (out : list FormattedText) (call : option TextEditCall) :
  parseText h input = Parsed h' out call ->
  m_waitingForTerminator h' = false ->
  partialSequence (m_pendingText h') = true.
Proof. intros E. exact (parseText_partial_sequence h h' input out call E). Qed.

Lemma pending_text_is_partial_sequence_witness :
  partialSequence (escape ++ "3;") = true.
Proof.
  apply (pending_text_is_partial_sequence
           idleHandler (withPending (escape ++ "3;") idleHandler)
           (mkText ("ab" ++ escape ++ "3;") defaultFormat)
           [mkText "ab" defaultFormat] None);
    reflexivity.
Defined.

(** X4: after any call that returned, a call on an empty chunk returns no
    run, makes no call on the text edit and leaves every member of the
    handler as it is, whatever the baseline format. *)
Theorem empty_chunk_changes_nothing
        (h h1 : Handler) (input : FormattedText)
        (out : list FormattedText) (call : option TextEditCall)
        (f : QTextCharFormat) :
  parseText h input = Parsed h1 out call ->
  parseText h1 (mkText EmptyString f) = Parsed h1 [] None.
Proof.
  intros E. apply settled_empty_chunk.
  exact (parseText_settled h h1 input out call E).
Qed.

Lemma empty_chunk_changes_nothing_witness :
  parseText (withPending (escape ++ "3;4") idleHandler)
            (mkText EmptyString defaultFormat)
  = Parsed (withPending (escape ++ "3;4") idleHandler) [] None.
Proof.
  apply (empty_chunk_changes_nothing
           idleHandler (withPending (escape ++ "3;4") idleHandler)
           (mkText ("ab" ++ escape ++ "3;4") defaultFormat)
           [mkText "ab" defaultFormat] None defaultFormat).
  reflexivity.
Defined.

(** ** String arguments *)

(** X5: while the handler skips a string argument and its buffer holds
    neither the string terminator ESC \ nor the alternate terminator (if
    one is set), a call returns no run and keeps the whole buffer as
    pending text; nothing else in the handler changes, so the pending
    text grows with every chunk until a terminator arrives. *)
Theorem string_argument_keeps_buffer (h : Handler) (input : FormattedText) :
  m_waitingForTerminator h = true ->
  m_pendingText h ++ text input <> EmptyString ->
  indexOf stringTerminator (m_pendingText h ++ text input) = None ->
  m_alternateTerminator h = EmptyString
  \/ indexOf (m_alternateTerminator h) (m_pendingText h ++ text input)
     = None ->
  parseText h input
  = Parsed (withPending (m_pendingText h ++ text input) h) [] None.
Proof.
  destruct input as [t f]. intros Hw. cbn [text].
  exact (parseText_no_terminator f h Hw t).
Qed.

Lemma string_argument_keeps_buffer_witness :
  parseText (mkHandler true true (String BEL "") defaultFormat "title")
            (mkText " and more" defaultFormat)
  = Parsed (mkHandler true true (String BEL "") defaultFormat
                      "title and more") [] None.
Proof.
  apply (string_argument_keeps_buffer
           (mkHandler true true (String BEL "") defaultFormat "title")
           (mkText " and more" defaultFormat));
    [reflexivity | discriminate | reflexivity | right; reflexivity].
Defined.

(** X6: a handler that skips a string argument carries on behind the
    first string terminator ESC \ of its buffer, wherever the alternate
    terminator occurs; only when the buffer holds no ESC \ and an
    alternate terminator is set does it carry on behind the first
    alternate terminator.  The call is then the call of a handler that
    skips nothing, with no alternate terminator and nothing pending, on
    the text behind the terminator. *)
Theorem string_argument_ends_at_terminator
        (h : Handler) (input : FormattedText) (p : nat) :
  m_waitingForTerminator h = true ->
  (indexOf stringTerminator (m_pendingText h ++ text input) = Some p ->
   parseText h input
   = parseText (afterTerminator h)
               (mkText (remove0 (p + 2) (m_pendingText h ++ text input))
                       (format input)))
  /\ (indexOf stringTerminator (m_pendingText h ++ text input) = None ->
      m_alternateTerminator h <> EmptyString ->
      indexOf (m_alternateTerminator h) (m_pendingText h ++ text input)
      = Some p ->
      parseText h input
      = parseText (afterTerminator h)
                  (mkText (remove0
                             (p + String.length (m_alternateTerminator h))
                             (m_pendingText h ++ text input))
                          (format input))).
Proof.
  destruct input as [t f]. intros Hw. cbn [text format]. split.
  - intros Hst.
    apply (parseText_terminator f h Hw t stringTerminator p).
    left. auto.
  - intros Hst Halt Hp.
    apply (parseText_terminator f h Hw t (m_alternateTerminator h) p).
    right. auto.
Qed.

Lemma string_argument_ends_at_terminator_witness :
  parseText (mkHandler true true (String BEL "") defaultFormat "")
            (mkText ("a" ++ String BEL "b" ++ stringTerminator ++ "c")
                    defaultFormat)
  = parseText idleHandler (mkText "c" defaultFormat).
Proof.
  apply (proj1 (string_argument_ends_at_terminator
                  (mkHandler true true (String BEL "") defaultFormat "")
                  (mkText ("a" ++ String BEL "b" ++ stringTerminator ++ "c")
                          defaultFormat)
                  3 eq_refl)).
  reflexivity.
Defined.

(** ** Sequences at the head of the text *)

(** X7: fed to a handler with nothing pending that skips nothing, ESC
    followed by one of ] P X ^ _ and a string argument that ends with the
    string terminator ESC \ is dropped whole: the call returns what the
    text behind the terminator yields. *)
Theorem string_sequence_is_skipped
        (h : Handler) (f : QTextCharFormat) (c : ascii) (a b : string) :
  m_pendingText h = EmptyString ->
  m_waitingForTerminator h = false ->
  Ascii.eqb c "]" = true \/ isStringLetter c = true ->
  indexOf stringTerminator a = None ->
  parseText h (mkText (String ESC (String c (a ++ stringTerminator ++ b))) f)
  = parseText (afterTerminator h) (mkText b f).
Proof. intros Hp Hw. exact (string_sequence_skipped f h Hp Hw c a b). Qed.

Lemma string_sequence_is_skipped_witness :
  parseText idleHandler
            (mkText (String ESC (String "P" ("1$r" ++ stringTerminator
                                                   ++ "text")))
                    defaultFormat)
  = parseText idleHandler (mkText "text" defaultFormat).
Proof.
  apply (string_sequence_is_skipped idleHandler defaultFormat "P"
           "1$r" "text");
    [reflexivity | reflexivity | right; reflexivity | reflexivity].
Defined.

(** X8: an operating system command, ESC ] with its argument, ends at the
    first bell character when no string terminator ESC \ follows anywhere
    in the buffer: the call returns what the text behind the bell
    yields. *)
Theorem command_ends_at_first_bell
        (h : Handler) (f : QTextCharFormat) (a b : string) :
  m_pendingText h = EmptyString ->
  m_waitingForTerminator h = false ->
  indexOfChar BEL a = None ->
  indexOf stringTerminator (a ++ String BEL b) = None ->
  parseText h (mkText (String ESC (String "]" (a ++ String BEL b))) f)
  = parseText (afterTerminator h) (mkText b f).
Proof. intros Hp Hw. exact (command_ends_at_bell f h Hp Hw a b). Qed.

Lemma command_ends_at_first_bell_witness :
  parseText idleHandler
            (mkText (String ESC (String "]" ("0;title" ++ String BEL "text")))
                    defaultFormat)
  = parseText idleHandler (mkText "text" defaultFormat).
Proof.
  apply (command_ends_at_first_bell idleHandler defaultFormat
           "0;title" "text"); reflexivity.
Defined.

(** X9: the two-character sequences ESC \, ESC N and ESC O are dropped:
    a handler with nothing pending that skips nothing returns for them
    and the text behind them what it returns for that text alone. *)
Theorem two_character_sequence_is_dropped
        (h : Handler) (f : QTextCharFormat) (c : ascii) (rest : string) :
  m_pendingText h = EmptyString ->
  m_waitingForTerminator h = false ->
  isIgnoredLetter c = true ->
  parseText h (mkText (String ESC (String c rest)) f)
  = parseText h (mkText rest f).
Proof. intros Hp Hw. exact (two_character_sequence f h Hp Hw c rest). Qed.

Lemma two_character_sequence_is_dropped_witness :
  parseText idleHandler (mkText (String ESC "Oabc") defaultFormat)
  = parseText idleHandler (mkText "abc" defaultFormat).
Proof.
  apply (two_character_sequence_is_dropped idleHandler defaultFormat
           "O" "abc"); reflexivity.
Defined.

(** X10: an escape character in front of a character that starts no
    sequence (not one of [ \ N O ] P X ^ _) is not removed: it is
    returned as a run of its own, in the current format, ahead of what
    the text behind it yields (a clear-screen return in that text drops
    the run again). *)
Theorem unrecognised_escape_is_returned
        (h : Handler) (f : QTextCharFormat) (c : ascii) (rest : string) :
  m_pendingText h = EmptyString ->
  m_waitingForTerminator h = false ->
  Ascii.eqb c "[" = false -> isIgnoredLetter c = false ->
  Ascii.eqb c "]" = false -> isStringLetter c = false ->
  parseText h (mkText (String ESC (String c rest)) f)
  = withRunsBefore [mkText (String ESC EmptyString) (initialFormat h f)]
                   (parseText h (mkText (String c rest) f)).
Proof. intros Hp Hw. exact (unrecognised_escape f h Hp Hw c rest). Qed.

Lemma unrecognised_escape_is_returned_witness :
  parseText idleHandler (mkText (String ESC "7abc") defaultFormat)
  = withRunsBefore [mkText (String ESC EmptyString) defaultFormat]
                   (parseText idleHandler (mkText "7abc" defaultFormat)).
Proof.
  apply (unrecognised_escape_is_returned idleHandler defaultFormat
           "7" "abc"); reflexivity.
Defined.

(** X11: a control sequence ESC [ with numbers separated by semicolons
    (or no number) and a final character that is no digit, no semicolon
    and not 'm' is dropped without any effect on the handler, provided
    the text from the parameters on holds no erase marker ("2K" or "2J"
    in any case).  Only that one final character goes: of ESC [ ? 2 5 l
    the text "25l" is left as literal text. *)
Theorem control_sequence_is_dropped
        (h : Handler) (f : QTextCharFormat) (numbers : list string)
        (c : ascii) (rest : string) :
  m_pendingText h = EmptyString ->
  m_waitingForTerminator h = false ->
  Forall (fun n => isNumber n = true) numbers ->
  isDigit c = false -> c <> semicolon -> c <> "m"%char ->
  unmarked (parameters numbers ++ String c rest) ->
  parseText h (mkText (escape ++ parameters numbers ++ String c rest) f)
  = parseText h (mkText rest f).
Proof.
  intros Hp Hw. exact (control_sequence_dropped f h Hp Hw numbers c rest).
Qed.

Lemma control_sequence_is_dropped_witness :
  parseText idleHandler (mkText (escape ++ "12;40Habc") defaultFormat)
  = parseText idleHandler (mkText "abc" defaultFormat)
  /\ parseText idleHandler (mkText (escape ++ "?25l") defaultFormat)
     = parseText idleHandler (mkText "25l" defaultFormat).
Proof.
  split.
  - apply (control_sequence_is_dropped idleHandler defaultFormat
             ["12"; "40"] "H" "abc");
      try reflexivity; try discriminate.
    + repeat constructor.
    + split; reflexivity.
  - apply (control_sequence_is_dropped idleHandler defaultFormat
             [] "?" "25l");
      try reflexivity; try discriminate.
    + constructor.
    + split; reflexivity.
Defined.

(** X12: a colour sequence ESC [ n1 ; ... ; nk m at the head of the text
    of a handler with nothing pending that skips nothing: when the loop
    over the numbers ends in range, the call returns what a call on the
    text behind the sequence returns from the handler the codes leave
    (the format scope open on the restyled format, or closed after a
    reset), provided the text from the parameters on holds no erase
    marker. *)
Theorem colour_sequence_restyles
        (h h' : Handler) (f : QTextCharFormat) (numbers : list string)
        (rest : string) :
  m_pendingText h = EmptyString ->
  m_waitingForTerminator h = false ->
  Forall (fun n => isNumber n = true) numbers ->
  unmarked (parameters numbers ++ String "m" rest) ->
  sgr f numbers h = Some h' ->
  parseText h (mkText (escape ++ parameters numbers ++ String "m" rest) f)
  = parseText h' (mkText rest f).
Proof.
  intros Hp Hw. exact (colour_sequence f h Hp Hw numbers rest h').
Qed.

Lemma colour_sequence_restyles_witness :
  parseText idleHandler (mkText (escape ++ "1;44mabc") defaultFormat)
  = parseText (setFormatScope
                 (setBackground (Some (Rgb 0 0 170)) (setBold defaultFormat))
                 idleHandler)
              (mkText "abc" defaultFormat).
Proof.
  apply (colour_sequence_restyles idleHandler _ defaultFormat
           ["1"; "44"] "abc");
    try reflexivity.
  - repeat constructor.
  - split; reflexivity.
Defined.

(** Case analysis on the comparisons of the colour codes. *)
Ltac code_tests :=
  repeat match goal with
         | |- context [?a <=? ?b] => destruct (Z.leb_spec a b); try lia
         | |- context [?a =? ?b] => destruct (Z.eqb_spec a b); try lia
         end;
  cbn [andb orb].

Section SingleCodes.

Variable f : QTextCharFormat.
Variable h : Handler.
Hypothesis nothing_pending : m_pendingText h = EmptyString.

(** The handler a single code leaves that restyles the format. *)
Lemma sgr_restyle (g : QTextCharFormat -> QTextCharFormat)
      (numbers : list string) :
  applyCodes f numbers (entry h f) = Some (restyle g (entry h f)) ->
  numbers <> [] ->
  sgr f numbers h = Some (setFormatScope (g (initialFormat h f)) h).
Proof.
  intros H Hne. unfold sgr. destruct numbers; [congruence|].
  rewrite H. cbn. now rewrite withPending_same.
Qed.

Lemma sgr_nothing (numbers : list string) :
  applyCodes f numbers (entry h f) = Some (entry h f) ->
  numbers <> [] ->
  sgr f numbers h = Some h.
Proof.
  intros H Hne. unfold sgr. destruct numbers; [congruence|].
  rewrite H. cbn. now rewrite withPending_same.
Qed.

End SingleCodes.

(** X13: the single codes of a colour sequence ESC [ n m, read by their
    value (so "01" is 1): 40 to 47 set the background to the ANSI colour
    n - 40, 1 sets the bold weight, 39 and 49 set the foreground and the
    background to those of the baseline format of the call; each leaves
    the other attributes alone and opens the format scope on the restyled
    format, from which the call goes on.  Every other value outside
    30..38 and 48 (4 for underline, 7 for inverse, 90 to 97, ...) leaves
    the handler as it is: the sequence is dropped. *)
Theorem single_colour_codes
        (h : Handler) (f : QTextCharFormat) (n rest : string) :
  m_pendingText h = EmptyString ->
  m_waitingForTerminator h = false ->
  isNumber n = true ->
  unmarked (n ++ String "m" rest) ->
  let sequence := mkText (escape ++ n ++ String "m" rest) f in
  let current := initialFormat h f in
  (40 <= toUInt n <= 47 ->
   exists f' h',
     parseText h sequence = parseText h' (mkText rest f)
     /\ backgroundSet (Some (ansiColor (toUInt n - 40))) current f'
     /\ scopeOpenOn f' h h')
  /\ (toUInt n = 1 ->
      exists f' h',
        parseText h sequence = parseText h' (mkText rest f)
        /\ boldSet current f' /\ scopeOpenOn f' h h')
  /\ (toUInt n = 39 ->
      exists f' h',
        parseText h sequence = parseText h' (mkText rest f)
        /\ foregroundSet (foreground f) current f' /\ scopeOpenOn f' h h')
  /\ (toUInt n = 49 ->
      exists f' h',
        parseText h sequence = parseText h' (mkText rest f)
        /\ backgroundSet (background f) current f' /\ scopeOpenOn f' h h')
  /\ (2 <= toUInt n <= 29 \/ 50 <= toUInt n ->
      parseText h sequence = parseText h (mkText rest f)).
Proof.
  intros Hp Hw Hn Hu sequence current.
  assert (Hall : Forall (fun x => isNumber x = true) [n])
    by (constructor; [exact Hn|constructor]).
  pose proof (fun h' => colour_sequence f h Hp Hw [n] rest h' Hall Hu)
    as Hseq.
  cbn [parameters] in Hseq.
  assert (Hset : forall g : QTextCharFormat -> QTextCharFormat,
             applyCodes f [n] (entry h f) = Some (restyle g (entry h f)) ->
             parseText h sequence
             = parseText (setFormatScope (g current) h) (mkText rest f)).
  { intros g Hg. apply Hseq. apply (sgr_restyle f h Hp g [n] Hg).
    discriminate. }
  split; [|split; [|split; [|split]]]; intros Hc.
  - exists (setBackground (Some (ansiColor (toUInt n - 40))) current),
      (setFormatScope
         (setBackground (Some (ansiColor (toUInt n - 40))) current) h).
    split; [|split; repeat split].
    apply Hset. cbn [applyCodes]. code_tests. reflexivity.
  - exists (setBold current), (setFormatScope (setBold current) h).
    split; [|split; repeat split].
    apply Hset. cbn [applyCodes]. code_tests. reflexivity.
  - exists (setForeground (foreground f) current),
      (setFormatScope (setForeground (foreground f) current) h).
    split; [|split; repeat split].
    apply Hset. cbn [applyCodes]. code_tests. reflexivity.
  - exists (setBackground (background f) current),
      (setFormatScope (setBackground (background f) current) h).
    split; [|split; repeat split].
    apply Hset. cbn [applyCodes]. code_tests. reflexivity.
  - apply Hseq. apply (sgr_nothing f h Hp).
    + cbn [applyCodes]. code_tests; reflexivity.
    + discriminate.
Qed.

Lemma single_colour_codes_witness :
  exists f' h',
    parseText idleHandler (mkText (escape ++ "44mabc") defaultFormat)
    = parseText h' (mkText "abc" defaultFormat)
    /\ backgroundSet (Some (ansiColor (toUInt "44" - 40)))
                     (initialFormat idleHandler defaultFormat) f'
    /\ scopeOpenOn f' idleHandler h'.
Proof.
  apply (single_colour_codes idleHandler defaultFormat "44" "abc");
    [reflexivity | reflexivity | reflexivity | split; reflexivity
     | vm_compute; split; discriminate].
Defined.

(** X14: the direct-colour selector.  ESC [ sel ; mode ; r ; g ; b m with
    sel of value 38 (48) and mode of value 2 sets the foreground
    (background) to [QColor(r, g, b)], which is the invalid colour when a
    component is above 255, leaves the other attributes alone and opens
    the format scope.  With fewer than three numbers behind the mode
    nothing is set and the numbers that are there are passed over: the
    sequence is dropped. *)
Theorem direct_colour_sequence
        (h : Handler) (f : QTextCharFormat) (sel mode : string)
        (more : list string) (rest : string) :
  m_pendingText h = EmptyString ->
  m_waitingForTerminator h = false ->
  Forall (fun n => isNumber n = true) (sel :: mode :: more) ->
  unmarked (parameters (sel :: mode :: more) ++ String "m" rest) ->
  toInt mode = 2 ->
  let sequence :=
    mkText (escape ++ parameters (sel :: mode :: more) ++ String "m" rest)
           f in
  let current := initialFormat h f in
  (forall r g b,
      more = [r; g; b] -> toUInt sel = 38 ->
      exists f' h',
        parseText h sequence = parseText h' (mkText rest f)
        /\ foregroundSet (Some (mkColor (toInt r) (toInt g) (toInt b)))
                         current f'
        /\ scopeOpenOn f' h h')
  /\ (forall r g b,
         more = [r; g; b] -> toUInt sel = 48 ->
         exists f' h',
           parseText h sequence = parseText h' (mkText rest f)
           /\ backgroundSet (Some (mkColor (toInt r) (toInt g) (toInt b)))
                            current f'
           /\ scopeOpenOn f' h h')
  /\ ((List.length more < 3)%nat -> toUInt sel = 38 \/ toUInt sel = 48 ->
      parseText h sequence = parseText h (mkText rest f)).
Proof.
  intros Hp Hw Hall Hu Hmode sequence current.
  pose proof (fun h' => colour_sequence f h Hp Hw (sel :: mode :: more) rest
                          h' Hall Hu) as Hseq.
  split; [|split].
  - intros r g b -> Hsel.
    exists (setForeground (Some (mkColor (toInt r) (toInt g) (toInt b)))
                          current),
      (setFormatScope
         (setForeground (Some (mkColor (toInt r) (toInt g) (toInt b)))
                        current) h).
    split; [|split; repeat split].
    apply Hseq.
    apply (sgr_restyle f h Hp
             (setForeground (Some (mkColor (toInt r) (toInt g) (toInt b)))));
      [|discriminate].
    cbn [applyCodes]. rewrite Hsel, Hmode. reflexivity.
  - intros r g b -> Hsel.
    exists (setBackground (Some (mkColor (toInt r) (toInt g) (toInt b)))
                          current),
      (setFormatScope
         (setBackground (Some (mkColor (toInt r) (toInt g) (toInt b)))
                        current) h).
    split; [|split; repeat split].
    apply Hseq.
    apply (sgr_restyle f h Hp
             (setBackground (Some (mkColor (toInt r) (toInt g) (toInt b)))));
      [|discriminate].
    cbn [applyCodes]. rewrite Hsel, Hmode. reflexivity.
  - intros Hlen Hsel. apply Hseq. apply (sgr_nothing f h Hp); [|discriminate].
    cbn [applyCodes]. rewrite Hmode.
    destruct Hsel as [-> | ->];
      destruct more as [|r [|g [|b more]]]; cbn in Hlen; try lia;
        reflexivity.
Qed.

Lemma direct_colour_sequence_witness :
  exists f' h',
    parseText idleHandler (mkText (escape ++ "38;2;255;128;0mabc")
                                  defaultFormat)
    = parseText h' (mkText "abc" defaultFormat)
    /\ foregroundSet (Some (mkColor (toInt "255") (toInt "128") (toInt "0")))
                     (initialFormat idleHandler defaultFormat) f'
    /\ scopeOpenOn f' idleHandler h'.
Proof.
  apply (proj1 (direct_colour_sequence idleHandler defaultFormat "38" "2"
                  ["255"; "128"; "0"] "abc"
                  eq_refl eq_refl
                  ltac:(repeat constructor) (conj eq_refl eq_refl) eq_refl)
               "255" "128" "0");
    reflexivity.
Defined.

(** X15: the index of the 256-colour selector is not checked against
    255.  An index from 256 to 390451804 gives the invalid colour, since
    the grey level (index - 232) * 11 is above 255 or, read as an [int],
    negative; the selector sets it as foreground all the same.  At
    390451805 the unsigned product has wrapped round to 7, a valid
    grey. *)
Theorem palette_index_above_255 :
  (forall index : Z,
      256 <= index <= 390451804 -> paletteColor index = InvalidColor)
  /\ paletteColor 390451805 = Rgb 7 7 7
  /\ (forall (f : QTextCharFormat) (sel mode idx : string)
             (rest : list string) (l : Locals),
         toUInt sel = 38 -> toInt mode = 5 ->
         256 <= toUInt idx <= 390451804 ->
         exists l',
           applyCodes f (sel :: mode :: idx :: rest) l
           = applyCodes f rest l'
           /\ foregroundSet (Some InvalidColor) (charFormat l)
                            (charFormat l')
           /\ scopeOpenOn (charFormat l') (handler l) (handler l')
           /\ outputData l' = outputData l).
Proof.
  split; [exact paletteColor_above_255|]. split; [reflexivity|].
  intros f sel mode idx rest l Hsel Hmode Hidx.
  exists (restyle (setForeground (Some InvalidColor)) l).
  split; [|split; [|split]]; try (repeat split).
  cbn [applyCodes]. rewrite Hsel, Hmode. cbn.
  now rewrite (paletteColor_above_255 _ Hidx).
Qed.

Lemma palette_index_above_255_witness :
  paletteColor 256 = InvalidColor
  /\ exists l',
      applyCodes defaultFormat ["38"; "5"; "300"]
                 (mkLocals idleHandler [] defaultFormat)
      = applyCodes defaultFormat [] l'
      /\ foregroundSet (Some InvalidColor) defaultFormat (charFormat l')
      /\ scopeOpenOn (charFormat l') idleHandler (handler l')
      /\ outputData l' = [].
Proof.
  destruct palette_index_above_255 as (Hcolour & _ & Hcodes).
  split.
  - apply (Hcolour 256). lia.
  - apply (Hcodes defaultFormat "38" "5" "300" []
                  (mkLocals idleHandler [] defaultFormat));
      [reflexivity | reflexivity | vm_compute; split; discriminate].
Defined.

(** ** Clearing the screen *)

(** X16: when a call reaches ESC [ and the upper-cased text behind it
    holds "2J" but not "2K", wherever in the rest of the buffer, the call
    clears the text edit and returns no run at all: the text in front of
    the sequence is dropped with the text behind it, and the handler
    keeps the introducer pending.  [addText] with VT-100 processing then
    leaves a document of one empty block. *)
Theorem clear_screen_discards_chunk :
  (forall (h : Handler) (input : FormattedText) (t rest : string),
      m_waitingForTerminator h = false ->
      m_pendingText h ++ text input = t ++ escape ++ rest ->
      indexOfChar ESC t = None ->
      contains (toUpper rest) "2K" = false ->
      contains (toUpper rest) "2J" = true ->
      parseText h input
      = Parsed (withPending escape h) [] (Some ClearScreen))
  /\ (forall (term : Terminal) (txt t rest : string),
         m_waitingForTerminator (m_escapeCodeHandler term) = false ->
         m_pendingText (m_escapeCodeHandler term) ++ txt
         = t ++ escape ++ rest ->
         indexOfChar ESC t = None ->
         contains (toUpper rest) "2K" = false ->
         contains (toUpper rest) "2J" = true ->
         addText txt true term
         = Some (mkTerminal
                   (clear (m_textEdit term))
                   (endFormatScope
                      (withPending escape (m_escapeCodeHandler term))))).
Proof.
  split; [exact parseText_clear_screen|].
  intros term txt t rest Hw Hbuf Ht H2K H2J.
  unfold addText, vt100Processing.
  rewrite (parseText_clear_screen (m_escapeCodeHandler term)
             (mkText txt defaultFormat) t rest Hw Hbuf Ht H2K H2J).
  cbn [applyCall map QStr.concat fold_left m_textEdit m_escapeCodeHandler].
  now rewrite insertText_nothing_cleared.
Qed.

Lemma clear_screen_discards_chunk_witness :
  addText ("old" ++ escape ++ "2Jnew") true
          (mkTerminal (mkEdit ["a"; "b"] 0 (mkCursor (O, O) (O, O)))
                      idleHandler)
  = Some (mkTerminal (mkEdit [""] 0 (mkCursor (O, O) (O, O)))
                     (withPending escape idleHandler)).
Proof.
  apply (proj2 clear_screen_discards_chunk
               (mkTerminal (mkEdit ["a"; "b"] 0 (mkCursor (O, O) (O, O)))
                           idleHandler)
               ("old" ++ escape ++ "2Jnew") "old" "2Jnew");
    reflexivity.
Defined.

(** ** Text without escape characters *)



(** ** The scroll bar *)

(** X18: [updateScrollbarVisibility] shows the vertical scroll bar
    exactly when autoscroll is off and the height of the item is at most
    [lineCount - 1] font heights; with autoscroll on, or with a height
    above that, it hides the bar.  ([ratio] is the quotient of the two
    heights; its ceiling has to be an [int].) *)
Theorem scrollbar_shown_iff_lines_exceed_height
        (autoscroll : bool) (ratio : Q) (lineCount : Z) :
  (-2147483648 <= Qceiling ratio <= 2147483647) ->
  (updateScrollbarVisibility autoscroll ratio lineCount
   = Some ScrollBarAlwaysOn
   <-> autoscroll = false /\ (ratio <= inject_Z (lineCount - 1))%Q)
  /\ (updateScrollbarVisibility autoscroll ratio lineCount
      = Some ScrollBarAlwaysOff
      <-> autoscroll = true \/ (inject_Z (lineCount - 1) < ratio)%Q).
Proof. exact (scrollbar_shown_iff autoscroll ratio lineCount). Qed.

Lemma scrollbar_shown_iff_lines_exceed_height_witness :
  updateScrollbarVisibility false (9 # 2) 6 = Some ScrollBarAlwaysOn
  <-> false = false /\ (9 # 2 <= inject_Z (6 - 1))%Q.
Proof.
  apply (proj1 (scrollbar_shown_iff_lines_exceed_height false (9 # 2) 6
                  ltac:(vm_compute; split; discriminate))).
Defined.

(** X19: when [scrollToBottom] finds a visible line, it sets the range of
    the bar to 0..lineCount and asks for the value 0 or for a value from
    3 to lineCount + 1.  The value is above the maximum just set exactly
    when one line is visible and the document has more than one block;
    with no visible line the bar is not touched.  ([visibleLines] is what
    [qRound] gives on the quotient of the heights, taken in [double];
    the block count is an [int] below its greatest value.) *)
Theorem scrollToBottom_value_bounds
        (height : double) (fontHeight lineCount visibleLines : Z) :
  qRound (ddiv height (ofInt fontHeight)) = Some visibleLines ->
  0 <= lineCount < 2147483647 ->
  (visibleLines <= 0 -> scrollToBottom height fontHeight lineCount = Some [])
  /\ (0 < visibleLines ->
      exists v,
        scrollToBottom height fontHeight lineCount
        = Some [SetMinimum 0; SetMaximum lineCount; SetValue v]
        /\ (v = 0 \/ 3 <= v <= lineCount + 1)
        /\ (lineCount < v <-> visibleLines = 1 /\ 1 < lineCount)).
Proof.
  exact (scrollToBottom_value height fontHeight lineCount visibleLines).
Qed.

Lemma scrollToBottom_value_bounds_witness :
  exists v,
    scrollToBottom (ofInt 20) 20 5
    = Some [SetMinimum 0; SetMaximum 5; SetValue v]
    /\ (v = 0 \/ 3 <= v <= 5 + 1)
    /\ (5 < v <-> 1 = 1 /\ 1 < 5).
Proof.
  apply (proj2 (scrollToBottom_value_bounds (ofInt 20) 20 5 1
                  eq_refl ltac:(lia))).
  reflexivity.
Defined.

(** ** Formats have no part in the text *)

Section Formats.

Lemma Exit_inj h out call h' out' call' :
  Exit h out call = Exit h' out' call' ->
  h = h' /\ out = out' /\ call = call'.
Proof. intros [= -> -> ->]. auto. Qed.

Lemma plainLocals_twice (l : Locals) :
  plainLocals (plainLocals l) = plainLocals l.
Proof.
  unfold plainLocals. cbn. f_equal. rewrite map_map.
  apply map_ext. reflexivity.
Qed.

Lemma plainLocals_emit (t : string) (l : Locals) :
  plainLocals (emit t l) = plainLocals (emit t (plainLocals l)).
Proof.
  unfold plainLocals, emit. cbn. f_equal.
  rewrite !map_app, map_map. cbn. f_equal.
Qed.

(** Whether the loop over the codes stays in range depends on the numbers
    alone. *)
Lemma applyCodes_range (f f' : QTextCharFormat) (numbers : list string)
      (l l' : Locals) :
  applyCodes f numbers l = None -> applyCodes f' numbers l' = None.
Proof.
  remember (List.length numbers) as n eqn:Hn.
  revert numbers Hn l l'.
  induction n as [n IH] using lt_wf_ind.
  intros numbers Hn l l'. destruct numbers as [|c rest]; [discriminate|].
  assert (Hrest : forall r l0 l0',
             (List.length r <= List.length rest)%nat ->
             applyCodes f r l0 = None -> applyCodes f' r l0' = None).
  { intros r l0 l0' Hr. apply (IH (List.length r)); auto. simpl in Hn. lia. }
  cbn [applyCodes].
  destruct ((30 <=? toUInt c) && (toUInt c <=? 37)); [apply Hrest; auto|].
  destruct ((40 <=? toUInt c) && (toUInt c <=? 47)); [apply Hrest; auto|].
  destruct (toUInt c =? 0); [apply Hrest; auto|].
  destruct (toUInt c =? 1); [apply Hrest; auto|].
  destruct (toUInt c =? 39); [apply Hrest; auto|].
  destruct (toUInt c =? 49); [apply Hrest; auto|].
  destruct ((toUInt c =? 38) || (toUInt c =? 48)); [|apply Hrest; auto].
  destruct rest as [|mode rest1]; [discriminate|].
  destruct (toInt mode =? 2).
  { destruct rest1 as [|r [|g0 [|b rest2]]]; try discriminate.
    apply Hrest. simpl. lia. }
  destruct (toInt mode =? 5).
  { destruct rest1 as [|idx rest2]; [reflexivity|].
    apply Hrest. simpl. lia. }
  apply Hrest. simpl. lia.
Qed.

(** The colour codes change formats only. *)
Lemma applyCodes_plain (f : QTextCharFormat) (numbers : list string)
      (l l' : Locals) :
  applyCodes f numbers l = Some l' -> plainLocals l' = plainLocals l.
Proof.
  apply (applyCodes_preserves f (fun x => plainLocals x = plainLocals l));
    auto.
Qed.

Lemma applyCodes_plainStep (f f' : QTextCharFormat) (numbers : list string)
      (l l' : Locals) (s : string) :
  plainLocals l = plainLocals l' ->
  plainStep match applyCodes f numbers l with
            | Some l5 => Again l5 s
            | None => Crash
            end
  = plainStep match applyCodes f' numbers l' with
              | Some l5 => Again l5 s
              | None => Crash
              end.
Proof.
  intros Hl.
  destruct (applyCodes f numbers l) as [l5|] eqn:E;
    destruct (applyCodes f' numbers l') as [l5'|] eqn:E'.
  - cbn. apply applyCodes_plain in E, E'. congruence.
  - apply (applyCodes_range f' f numbers l' l) in E'. congruence.
  - apply (applyCodes_range f f' numbers l l') in E. congruence.
  - reflexivity.
Qed.

Variable f0 : QTextCharFormat.

Lemma innerBody_plain (f : QTextCharFormat) (l : Locals) (s : string) :
  plainStep (innerBody f l s) = plainStep (innerBody f0 (plainLocals l) s).
Proof.
  unfold innerBody, escapeLetter, controlSequence.
  destruct s as [|c0 s0]; [now cbn; rewrite plainLocals_twice|].
  destruct (negb (Ascii.eqb ESC c0)); [now cbn; rewrite plainLocals_twice|].
  destruct (startsWith escape (String c0 s0)).
  { cbn. unfold plainLocals. cbn. now rewrite map_map. }
  destruct (negb (startsWith (String c0 s0) escape)).
  - destruct (at_ 1 (String c0 s0)) as [c1|]; [|reflexivity].
    destruct (isIgnoredLetter c1); [now cbn; rewrite plainLocals_twice|].
    destruct (Ascii.eqb c1 "]").
    { cbn. unfold plainLocals. cbn. now rewrite map_map. }
    destruct (isStringLetter c1).
    { cbn. unfold plainLocals. cbn. now rewrite map_map. }
    cbn [plainStep]. f_equal.
    rewrite plainLocals_emit. symmetry. rewrite plainLocals_emit.
    f_equal. f_equal. unfold plainLocals. cbn. now rewrite map_map.
  - destruct (contains _ "2K").
    { cbn. unfold plainHandler. cbn. now rewrite map_map. }
    destruct (contains _ "2J"); [reflexivity|].
    destruct (startsWith _ eraseToEol).
    { cbn. unfold plainLocals. cbn. now rewrite map_map. }
    change (pending (appendPending (left (String.length escape)
                                         (String c0 s0)) (plainLocals l)))
      with (pending (appendPending (left (String.length escape)
                                         (String c0 s0)) l)).
    destruct (scanNumbers _ _ _ _) as [[numbers pend] s2].
    destruct (isEmpty s2).
    { cbn. unfold plainLocals. cbn. now rewrite map_map. }
    destruct (negb (startsWith s2 colorTerminator)).
    { cbn. unfold plainLocals. cbn. now rewrite map_map. }
    apply applyCodes_plainStep.
    destruct numbers; unfold plainLocals; cbn; now rewrite map_map.
Qed.

(** A loop whose body forgets the formats of its locals does so too. *)
Lemma loop_plain (body : QTextCharFormat -> Locals -> string -> Step) :
  (forall f l s,
      plainStep (body f l s) = plainStep (body f0 (plainLocals l) s)) ->
  forall fuel f l s,
    plainStep (loop (body f) fuel l s)
    = plainStep (loop (body f0) fuel (plainLocals l) s).
Proof.
  intros Hbody fuel.
  induction fuel as [|fuel IH]; intros f l s; [reflexivity|].
  rewrite !loop_S. pose proof (Hbody f l s) as H.
  destruct (body f l s) as [l1 s1|l1 s1|h1 out1 c1| |];
    destruct (body f0 (plainLocals l) s) as [l2 s2|l2 s2|h2 out2 c2| |];
    try discriminate; try exact H.
  cbn [plainStep] in H. apply Again_inj in H as [Hl Hs]. subst s2.
  rewrite (IH f l1 s1), (IH f0 l2 s1). now rewrite Hl.
Qed.

Lemma skipStringArgument_plain (l : Locals) (s : string) :
  plainStep (skipStringArgument l s)
  = plainStep (skipStringArgument (plainLocals l) s).
Proof.
  unfold skipStringArgument.
  cbn [plainLocals handler plainHandler m_waitingForTerminator
       m_alternateTerminator].
  destruct (m_waitingForTerminator (handler l));
    [|now cbn; rewrite plainLocals_twice].
  assert (Hfound : forall p t,
             plainStep
               (if isEmpty (remove0 (p + String.length t) s)
                then Leave (setWaiting false EmptyString l)
                           (remove0 (p + String.length t) s)
                else Again (setWaiting false EmptyString l)
                           (remove0 (p + String.length t) s))
             = plainStep
                 (if isEmpty (remove0 (p + String.length t) s)
                  then Leave (setWaiting false EmptyString (plainLocals l))
                             (remove0 (p + String.length t) s)
                  else Again (setWaiting false EmptyString (plainLocals l))
                             (remove0 (p + String.length t) s))).
  { intros p t. destruct (isEmpty _); cbn; unfold plainLocals; cbn;
      now rewrite map_map. }
  assert (Hnone : plainStep (Leave (setPending s l) s)
                  = plainStep (Leave (setPending s (plainLocals l)) s)).
  { cbn. unfold plainLocals. cbn. now rewrite map_map. }
  destruct (indexOf _ s) as [p|]; [apply Hfound|].
  destruct (negb (isEmpty _)); [|exact Hnone].
  destruct (indexOf (m_alternateTerminator (handler l)) s) as [p|];
    [apply Hfound|exact Hnone].
Qed.

Lemma outerBody_plain (f : QTextCharFormat) (l : Locals) (s : string) :
  plainStep (outerBody f l s) = plainStep (outerBody f0 (plainLocals l) s).
Proof.
  unfold outerBody.
  destruct (isEmpty s); [now cbn; rewrite plainLocals_twice|].
  change (pending (plainLocals l)) with (pending l).
  destruct (negb (isEmpty (pending l)));
    [now cbn; rewrite plainLocals_twice|].
  pose proof (skipStringArgument_plain l s) as Hskip.
  destruct (skipStringArgument l s) as [l1 s1|l1 s1|h1 out1 c1| |];
    destruct (skipStringArgument (plainLocals l) s)
      as [l2 s2|l2 s2|h2 out2 c2| |];
    try discriminate; try exact Hskip.
  cbn [plainStep] in Hskip. apply Again_inj in Hskip as [Hl Hs]. subst s2.
  symmetry in Hl.
  destruct (indexOfChar ESC s1) as [escapePos|].
  - assert (H : exists l3 l4 s3,
               match escapePos with
               | O => (l1, s1)
               | S _ => (emit (left escapePos s1) l1, remove0 escapePos s1)
               end = (l3, s3)
               /\ match escapePos with
                  | O => (l2, s1)
                  | S _ => (emit (left escapePos s1) l2,
                            remove0 escapePos s1)
                  end = (l4, s3)
               /\ plainLocals l3 = plainLocals l4).
    { destruct escapePos; do 3 eexists; repeat split; auto.
      rewrite plainLocals_emit. symmetry. rewrite plainLocals_emit.
      now rewrite Hl. }
    destruct H as (l3 & l4 & s3 & -> & -> & Hl34).
    destruct (at_ 0 s3); [|reflexivity].
    destruct (negb _); [cbn; now rewrite Hl34|].
    unfold innerLoop.
    pose proof (loop_plain innerBody innerBody_plain
                           (S (String.length s3)) f l3 s3) as H3.
    pose proof (loop_plain innerBody innerBody_plain
                           (S (String.length s3)) f0 l4 s3) as H4.
    rewrite <- Hl34 in H4. rewrite <- H4 in H3. clear H4.
    destruct (loop (innerBody f) _ l3 s3);
      destruct (loop (innerBody f0) _ l4 s3);
      try discriminate; try exact H3.
    cbn [plainStep] in H3 |- *. apply Leave_inj in H3 as [E1 E2].
    now rewrite E1, E2.
  - cbn [plainStep]. f_equal.
    rewrite plainLocals_emit. symmetry. rewrite plainLocals_emit.
    now rewrite Hl.
Qed.

End Formats.

Lemma parseText_plain_view (h1 h2 : Handler) (f1 f2 : QTextCharFormat)
      (t : string) :
  plainHandler h1 = plainHandler h2 ->
  plainOutcome (parseText h1 (mkText t f1))
  = plainOutcome (parseText h2 (mkText t f2)).
Proof.
  intros Hh. rewrite !parseText_outcome. cbn [text format].
  assert (Hp : m_pendingText h1 = m_pendingText h2)
    by (now injection Hh).
  rewrite <- Hp.
  set (s := m_pendingText h1 ++ t).
  pose proof (loop_plain f2 outerBody (outerBody_plain f2)
                         (S (String.length s)) f1 (entry h1 f1) s) as H1.
  pose proof (loop_plain f2 outerBody (outerBody_plain f2)
                         (S (String.length s)) f2 (entry h2 f2) s) as H2.
  replace (plainLocals (entry h2 f2)) with (plainLocals (entry h1 f1)) in H2.
  - rewrite <- H2 in H1. clear H2.
    destruct (loop (outerBody f1) _ _ s) as [|l s0|h out call| |];
      destruct (loop (outerBody f2) _ _ s) as [|l' s0'|h' out' call'| |];
      try discriminate; try reflexivity;
      cbn [plainStep outcome plainOutcome] in H1 |- *.
    + apply Leave_inj in H1 as [E _].
      assert (Eh : plainHandler (handler l') = plainHandler (handler l))
        by exact (f_equal handler E).
      assert (Eo : map plainRun (outputData l')
                   = map plainRun (outputData l))
        by exact (f_equal outputData E).
      now rewrite Eh, Eo.
    + apply Exit_inj in H1 as (-> & -> & ->). reflexivity.
  - unfold plainLocals, entry. cbn. f_equal.
    unfold plainHandler in *. cbn. injection Hh as -> -> _. reflexivity.
Qed.

Lemma Parsed_inj h out call h' out' call' :
  Parsed h out call = Parsed h' out' call' ->
  h = h' /\ out = out' /\ call = call'.
Proof. intros [= -> -> ->]. auto. Qed.

Lemma textOf_plainRun (out : list FormattedText) :
  map text (map plainRun out) = map text out.
Proof. rewrite map_map. apply map_ext. reflexivity. Qed.

(** Calls with the same texts, pending text and call on the text edit
    give the same document. *)
Lemma addText_plain_view (e : QPlainTextEdit) (h1 h2 : Handler)
      (t1 t2 : string) :
  plainOutcome (parseText h1 (mkText t1 defaultFormat))
  = plainOutcome (parseText h2 (mkText t2 defaultFormat)) ->
  sameDocument (addText t1 true (mkTerminal e h1))
               (addText t2 true (mkTerminal e h2)).
Proof.
  intros H. unfold addText, vt100Processing.
  cbn [m_escapeCodeHandler m_textEdit].
  destruct (parseText h1 _) as [a out1 c1| |];
    destruct (parseText h2 _) as [b out2 c2| |];
    try discriminate; try exact I.
  cbn [plainOutcome] in H. apply Parsed_inj in H as (Hh & Ho & Hc).
  subst c2. cbn [sameDocument m_textEdit m_escapeCodeHandler].
  rewrite <- (textOf_plainRun out1), <- (textOf_plainRun out2), Ho.
  split; [reflexivity|].
  change (plainHandler (endFormatScope a)) with (plainHandler a).
  change (plainHandler (endFormatScope b)) with (plainHandler b).
  exact Hh.
Qed.

Lemma sgr_plain (f : QTextCharFormat) (numbers : list string)
      (h h' : Handler) :
  m_pendingText h = EmptyString ->
  sgr f numbers h = Some h' -> plainHandler h' = plainHandler h.
Proof.
  intros Hp. unfold sgr.
  destruct (applyCodes f numbers _) as [l5|] eqn:E; [|discriminate].
  intros [= <-]. apply applyCodes_plain in E.
  apply (f_equal handler) in E.
  change (plainHandler (handler l5)
          = plainHandler (handler match numbers with
                                  | [] => resetFormat f (entry h f)
                                  | _ :: _ => entry h f
                                  end)) in E.
  rewrite E. unfold plainHandler. destruct numbers; cbn; now rewrite Hp.
Qed.

(** ** Formats and text *)

(** X20: the formats play no part in what a call does to the text.  Two
    handlers that agree on the pending text, on whether a string argument
    is skipped and on the alternate terminator give, on the same chunk
    with any two baseline formats, runs with the same texts, the same
    call on the text edit, handlers that again agree on these three
    members, and the same failure if the call reads out of range. *)
Theorem formats_do_not_change_text
        (h1 h2 : Handler) (f1 f2 : QTextCharFormat) (t : string) :
  m_pendingText h1 = m_pendingText h2 ->
  m_waitingForTerminator h1 = m_waitingForTerminator h2 ->
  m_alternateTerminator h1 = m_alternateTerminator h2 ->
  plainOutcome (parseText h1 (mkText t f1))
  = plainOutcome (parseText h2 (mkText t f2)).
Proof.
  intros Hp Hw Ha. apply parseText_plain_view.
  unfold plainHandler. now rewrite Hp, Hw, Ha.
Qed.

Lemma formats_do_not_change_text_witness :
  plainOutcome
    (parseText (setFormatScope (setBold defaultFormat) idleHandler)
               (mkText ("ab" ++ escape ++ "31mcd")
                       (setForeground (Some (Rgb 1 2 3)) defaultFormat)))
  = plainOutcome
      (parseText idleHandler
                 (mkText ("ab" ++ escape ++ "31mcd") defaultFormat)).
Proof.
  apply (formats_do_not_change_text
           (setFormatScope (setBold defaultFormat) idleHandler) idleHandler
           (setForeground (Some (Rgb 1 2 3)) defaultFormat) defaultFormat
           ("ab" ++ escape ++ "31mcd"));
    reflexivity.
Defined.

(** X21: in the terminal a colour sequence shows no effect.  For a
    handler with nothing pending that skips nothing, [addText] with
    VT-100 processing on a colour sequence ESC [ n1 ; ... ; nk m (whose
    codes are read in range) followed by [rest] leaves the document that
    [addText] on [rest] alone leaves, and handlers that differ in their
    formats at most; if one of the two fails, so does the other. *)
Theorem colour_sequence_leaves_document_alone
        (term : Terminal) (numbers : list string) (rest : string)
        (h' : Handler) :
  m_pendingText (m_escapeCodeHandler term) = EmptyString ->
  m_waitingForTerminator (m_escapeCodeHandler term) = false ->
  Forall (fun n => isNumber n = true) numbers ->
  unmarked (parameters numbers ++ String "m" rest) ->
  sgr defaultFormat numbers (m_escapeCodeHandler term) = Some h' ->
  sameDocument
    (addText (escape ++ parameters numbers ++ String "m" rest) true term)
    (addText rest true term).
Proof.
  destruct term as [e h]. cbn [m_escapeCodeHandler].
  intros Hp Hw Hn Hu Hsgr.
  apply addText_plain_view.
  rewrite (colour_sequence defaultFormat h Hp Hw numbers rest h' Hn Hu Hsgr).
  apply parseText_plain_view. exact (sgr_plain _ _ _ _ Hp Hsgr).
Qed.

Lemma colour_sequence_leaves_document_alone_witness :
  sameDocument
    (addText (escape ++ "1;31mabc") true
             (mkTerminal (mkEdit ["x"] 0 (mkCursor (O, O) (O, O)))
                         idleHandler))
    (addText "abc" true
             (mkTerminal (mkEdit ["x"] 0 (mkCursor (O, O) (O, O)))
                         idleHandler)).
Proof.
  apply (colour_sequence_leaves_document_alone
           (mkTerminal (mkEdit ["x"] 0 (mkCursor (O, O) (O, O))) idleHandler)
           ["1"; "31"] "abc"
           (setFormatScope
              (setForeground (Some (Rgb 170 0 0)) (setBold defaultFormat))
              idleHandler));
    try reflexivity.
  - repeat constructor.
  - split; reflexivity.
Defined.

(** ** Loops that agree on the text *)

Section Chunks.

Variable f : QTextCharFormat.

Lemma textOf_app (a b : list FormattedText) :
  textOf (a ++ b) = textOf a ++ textOf b.
Proof.
  unfold textOf, QStr.concat. rewrite map_app, fold_left_app.
  now rewrite concat_from.
Qed.

Lemma sameTextStep_refl (fuel : nat) (l : Locals) (s : string) :
  (String.length s < fuel)%nat ->
  sameTextStep (loop (outerBody f) fuel l s) (loop (outerBody f) fuel l s).
Proof.
  intros Hf.
  destruct (loop_fuel (outerBody f) (outerBody_progress f)
                      (outerBody_no_fuel f) fuel l s Hf) as [Hnf _].
  destruct (loop (outerBody f) fuel l s) eqn:E; cbn; auto.
  - now apply loop_never_again in E.
Qed.

Lemma sameTextStep_prefix (o1 o2 : list FormattedText) (r : Step) :
  textOf o1 = textOf o2 ->
  sameTextStep r r ->
  sameTextStep (prefixRuns o1 r) (prefixRuns o2 r).
Proof.
  intros Ho Hr.
  destruct r as [| |h out [|]| |];
    cbn [sameTextStep prefixRuns addRuns handler outputData] in *; auto.
  - split; [reflexivity|]. now rewrite !textOf_app, Ho.
  - repeat split. now rewrite !textOf_app, Ho.
Qed.

(** The outer loop from locals with nothing pending: the runs emitted so
    far stand in front of what the loop adds. *)
Lemma outerLoop_split (fuel : nat) (l : Locals) (s : string) :
  pending l = EmptyString ->
  loop (outerBody f) fuel l s
  = prefixRuns (outputData l) (loop (outerBody f) fuel (resume l) s).
Proof.
  intros Hp. rewrite <- outerLoop_addRuns, addRuns_resume.
  f_equal. unfold clearPending, setPending. unfold pending in Hp.
  destruct l as [h o c]. cbn in *. now rewrite withPending_same.
Qed.

Lemma outerLoop_same_body (l l' : Locals) (s s' : string) (fuel fuel' : nat) :
  outerBody f l s = outerBody f l' s' ->
  (String.length s' <= String.length s)%nat ->
  (String.length s < fuel)%nat -> (String.length s' < fuel')%nat ->
  loop (outerBody f) fuel l s = loop (outerBody f) fuel' l' s'.
Proof.
  intros Hb Hlen Hf Hf'.
  destruct fuel as [|fuel]; [lia|]. destruct fuel' as [|fuel']; [lia|].
  rewrite !loop_S, Hb.
  destruct (outerBody f l' s') as [a b| | | |] eqn:E; try reflexivity.
  pose proof (outerBody_progress f _ _ _ _ E).
  apply outerLoop_fuel; lia.
Qed.

(** Literal text in front of an escape character, seen from the loop. *)
Lemma outerLoop_literal (fuel fuel' : nat) (l : Locals) (t rest : string) :
  quiet l -> indexOfChar ESC t = None ->
  (String.length (t ++ String ESC rest) < fuel)%nat ->
  (String.length (String ESC rest) < fuel')%nat ->
  loop (outerBody f) fuel l (t ++ String ESC rest)
  = loop (outerBody f) fuel' (afterText t l) (String ESC rest).
Proof.
  intros [Hp Hw] Ht Hf Hf'.
  apply outerLoop_same_body; try assumption.
  - rewrite (outerBody_text_then_escape f l t rest Hp Hw Ht).
    symmetry. apply outerBody_at_escape; [|reflexivity].
    unfold afterText. destruct (isEmpty t); split; assumption.
  - rewrite length_append. lia.
Qed.

(** Text without an escape character, seen from the loop. *)
Lemma outerLoop_plain (fuel : nat) (l : Locals) (s : string) :
  quiet l -> indexOfChar ESC s = None -> (0 < fuel)%nat ->
  loop (outerBody f) fuel l s = Leave (afterText s l) s.
Proof.
  intros [Hp Hw] Hs Hf. destruct fuel as [|fuel]; [lia|].
  rewrite loop_S. unfold outerBody, afterText.
  destruct (isEmpty s) eqn:Es; [reflexivity|].
  rewrite Hp. cbn [isEmpty negb]. unfold skipStringArgument.
  now rewrite Hw, Hs.
Qed.

Lemma afterText_frame (t : string) (l : Locals) :
  handler (afterText t l) = handler l
  /\ charFormat (afterText t l) = charFormat l
  /\ textOf (outputData (afterText t l)) = textOf (outputData l) ++ t.
Proof.
  unfold afterText. destruct (isEmpty t) eqn:E.
  - apply isEmpty_true in E. subst t. now rewrite append_empty_r.
  - repeat split. apply textOf_emit.
Qed.

Lemma afterText_quiet (t : string) (l : Locals) :
  quiet l -> quiet (afterText t l).
Proof. unfold afterText. destruct (isEmpty t); auto. Qed.

Lemma indexOfChar_split (c : ascii) (x : string) (p : nat) :
  indexOfChar c x = Some p -> x = left p x ++ String c (remove0 (S p) x).
Proof.
  revert p. induction x as [|b x IH]; intros p H; [discriminate|].
  cbn [indexOfChar] in H. destruct (Ascii.eqb b c) eqn:E.
  - injection H as <-. apply Ascii.eqb_eq in E. now subst.
  - destruct (indexOfChar c x) as [q|]; [|discriminate].
    injection H as <-. cbn [left remove0 append]. f_equal.
    now apply IH.
Qed.

Lemma indexOfChar_append_none (c : ascii) (a b : string) :
  indexOfChar c a = None -> indexOfChar c b = None ->
  indexOfChar c (a ++ b) = None.
Proof.
  intros Ha Hb. induction a as [|x a IH]; [exact Hb|].
  cbn [append indexOfChar] in *. destruct (Ascii.eqb x c); [discriminate|].
  destruct (indexOfChar c a); [discriminate|]. now rewrite IH.
Qed.

(** Locals that differ in how the text of the runs is cut give loops
    that end alike. *)
Lemma outerLoop_same_text (fuel : nat) (l l' : Locals) (s : string) :
  (String.length s < fuel)%nat ->
  pending l = EmptyString ->
  handler l = handler l' -> charFormat l = charFormat l' ->
  textOf (outputData l) = textOf (outputData l') ->
  sameTextStep (loop (outerBody f) fuel l s) (loop (outerBody f) fuel l' s).
Proof.
  intros Hf Hp Hh Hc Ho.
  rewrite (outerLoop_split fuel l s Hp).
  rewrite (outerLoop_split fuel l' s)
    by (unfold pending in *; now rewrite <- Hh).
  replace (resume l') with (resume l)
    by (unfold resume; now rewrite Hh, Hc).
  apply sameTextStep_prefix; [exact Ho|now apply sameTextStep_refl].
Qed.

(** Literal text in front of any text: the loop ends as the loop on the
    text behind it does once the literal text is emitted, the cut of the
    runs apart. *)
Lemma outerLoop_literal_prefix (fuel fuel' : nat) (l : Locals)
      (t x : string) :
  quiet l -> indexOfChar ESC t = None ->
  (String.length (t ++ x) < fuel)%nat -> (String.length x < fuel')%nat ->
  sameTextStep (loop (outerBody f) fuel l (t ++ x))
               (loop (outerBody f) fuel' (afterText t l) x).
Proof.
  intros Hq Ht Hf Hf'.
  destruct (afterText_frame t l) as (Hh1 & Hc1 & Ho1).
  destruct (indexOfChar ESC x) as [p|] eqn:Hx.
  - pose proof (indexOfChar_split _ _ _ Hx) as Ex.
    pose proof (indexOfChar_left _ _ _ Hx) as Ht2.
    set (t2 := left p x) in *. set (rest := remove0 (S p) x) in *.
    rewrite Ex, <- append_assoc.
    rewrite (outerLoop_literal fuel (S (String.length (String ESC rest)))
               l (t ++ t2) rest Hq
               (indexOfChar_append_none _ _ _ Ht Ht2))
      by (rewrite ?append_assoc, <- ?Ex; lia).
    rewrite (outerLoop_literal fuel' (S (String.length (String ESC rest)))
               (afterText t l) t2 rest (afterText_quiet t l Hq) Ht2)
      by (rewrite <- ?Ex; lia).
    destruct (afterText_frame (t ++ t2) l) as (Hh & Hc & Ho).
    destruct (afterText_frame t2 (afterText t l)) as (Hh' & Hc' & Ho').
    apply outerLoop_same_text; [lia | | congruence | congruence |].
    + destruct Hq as [Hp _]. unfold pending in *. now rewrite Hh.
    + rewrite Ho, Ho', Ho1. now rewrite append_assoc.
  - rewrite (outerLoop_plain fuel l (t ++ x) Hq
               (indexOfChar_append_none _ _ _ Ht Hx)) by lia.
    rewrite (outerLoop_plain fuel' (afterText t l) x
               (afterText_quiet t l Hq) Hx) by lia.
    destruct (afterText_frame (t ++ x) l) as (Hh & Hc & Ho).
    destruct (afterText_frame x (afterText t l)) as (Hh' & Hc' & Ho').
    cbn [sameTextStep]. split; [congruence|].
    rewrite Ho, Ho', Ho1. now rewrite append_assoc.
Qed.

End Chunks.

(** ** One turn of the outer loop *)

Section ChunkSteps.

Variable f : QTextCharFormat.

Lemma outerLoop_any_fuel (fuel : nat) (l : Locals) (s : string) :
  (String.length s < fuel)%nat ->
  loop (outerBody f) fuel l s = outerLoop f l s.
Proof. intros H. apply outerLoop_fuel; [exact H|lia]. Qed.

Lemma outerLoop_step_inner (l l' : Locals) (s s' : string) :
  quiet l -> at_ 0 s = Some ESC ->
  innerBody f l s = Again l' s' \/ innerBody f l s = Leave l' s' ->
  outerLoop f l s = outerLoop f l' s'.
Proof.
  intros Hq H0 Hs.
  exact (outerLoop_inner_step f (S (String.length s)) l l' s s'
           ltac:(lia) Hq H0 Hs).
Qed.

Lemma outerLoop_step_crash (l : Locals) (s : string) :
  quiet l -> at_ 0 s = Some ESC -> innerBody f l s = Crash ->
  outerLoop f l s = Crash.
Proof.
  intros Hq H0 E. unfold outerLoop.
  rewrite loop_S, (outerBody_at_escape f l s Hq H0).
  unfold innerLoop. now rewrite loop_S, E.
Qed.

Lemma outerLoop_step_literal (l : Locals) (t rest : string) :
  quiet l -> indexOfChar ESC t = None ->
  outerLoop f l (t ++ String ESC rest)
  = outerLoop f (afterText t l) (String ESC rest).
Proof. intros Hq Ht. apply outerLoop_literal; auto. Qed.

Lemma outerLoop_step_plain (l : Locals) (s : string) :
  quiet l -> indexOfChar ESC s = None ->
  outerLoop f l s = Leave (afterText s l) s.
Proof. intros Hq Hs. apply outerLoop_plain; auto. lia. Qed.

Lemma outerLoop_step_terminator (l : Locals) (s term : string) (p : nat) :
  pending l = EmptyString ->
  m_waitingForTerminator (handler l) = true ->
  finds (m_alternateTerminator (handler l)) s term p ->
  outerLoop f l s
  = outerLoop f (setWaiting false EmptyString l)
              (remove0 (p + String.length term) s).
Proof.
  intros Hp Hw Hfind.
  exact (outerLoop_terminator f (S (String.length s)) l s term p
           ltac:(lia) Hp Hw Hfind).
Qed.

Lemma outerLoop_step_buffer (l : Locals) (s : string) :
  pending l = EmptyString ->
  m_waitingForTerminator (handler l) = true ->
  s <> EmptyString ->
  indexOf stringTerminator s = None ->
  m_alternateTerminator (handler l) = EmptyString
  \/ indexOf (m_alternateTerminator (handler l)) s = None ->
  outerLoop f l s = Leave (setPending s l) s.
Proof.
  intros Hp Hw Hne Hst Halt. unfold outerLoop.
  rewrite loop_S, outerBody_unfold.
  apply isEmpty_false in Hne. rewrite Hne, Hp. cbn [isEmpty negb].
  unfold skipStringArgument. rewrite Hw. fold stringTerminator.
  rewrite Hst. destruct Halt as [Halt|Halt]; rewrite Halt.
  - reflexivity.
  - now destruct (negb (isEmpty (m_alternateTerminator (handler l)))).
Qed.

Lemma outerLoop_step_empty (l : Locals) : outerLoop f l "" = Leave l "".
Proof. reflexivity. Qed.

Lemma outerLoop_runs_in_front (l : Locals) (s : string) :
  pending l = EmptyString ->
  outerLoop f l s = prefixRuns (outputData l) (outerLoop f (resume l) s).
Proof. intros Hp. now apply outerLoop_split. Qed.

Lemma outerLoop_literal_first (l : Locals) (t x : string) :
  quiet l -> indexOfChar ESC t = None ->
  sameTextStep (outerLoop f l (t ++ x)) (outerLoop f (afterText t l) x).
Proof. intros Hq Ht. apply outerLoop_literal_prefix; auto. Qed.

Lemma outerLoop_ends_alike (l : Locals) (s : string) :
  sameTextStep (outerLoop f l s) (outerLoop f l s).
Proof. apply sameTextStep_refl. lia. Qed.

End ChunkSteps.

(** ** A chunk behind the text of a call *)

Section ChunkInvariance.

Variable f : QTextCharFormat.
Variable c2 : string.

Lemma steady_afterText (t : string) (l : Locals) :
  steady f l -> steady f (afterText t l).
Proof. unfold afterText. destruct (isEmpty t); auto. Qed.

(** What the second of two calls starts from when the first kept its
    whole buffer pending. *)
Lemma kept_buffer_resumes (l : Locals) (s : string) :
  pending l = EmptyString ->
  sameTextStep
    (outerLoop f l (s ++ c2))
    (prefixRuns (outputData (setPending s l))
                (outerLoop f (resume (setPending s l))
                           (pending (setPending s l) ++ c2))).
Proof.
  intros Hp.
  change (resume (setPending s l)) with (resume l).
  change (pending (setPending s l)) with s.
  change (outputData (setPending s l)) with (outputData l).
  rewrite <- (outerLoop_runs_in_front f l (s ++ c2) Hp).
  apply outerLoop_ends_alike.
Qed.

Lemma outerLoop_chunks (n : nat) :
  forall (s : string) (l : Locals),
    (String.length s <= n)%nat ->
    pending l = EmptyString -> steady f l -> clean c2 s ->
    forall l1 s1,
      outerLoop f l s = Leave l1 s1 ->
      sameTextStep
        (outerLoop f l (s ++ c2))
        (prefixRuns (outputData l1)
                    (outerLoop f (resume l1) (pending l1 ++ c2))).
Proof.
  induction n as [n IH] using lt_wf_ind.
  intros s l Hn Hp Hst Hclean l1 s1 Hrun.
  assert (Hsmaller : forall s' l',
             (String.length s' < String.length s)%nat ->
             pending l' = EmptyString -> steady f l' -> clean c2 s' ->
             outerLoop f l s = outerLoop f l' s' ->
             outerLoop f l (s ++ c2) = outerLoop f l' (s' ++ c2) ->
             sameTextStep
               (outerLoop f l (s ++ c2))
               (prefixRuns (outputData l1)
                           (outerLoop f (resume l1) (pending l1 ++ c2)))).
  { intros s' l' Hlen Hp' Hst' Hc' E1 E2. rewrite E2.
    apply (IH (String.length s') ltac:(lia) s' l' (Nat.le_refl _)
              Hp' Hst' Hc' l1 s1).
    now rewrite <- E1. }
  pose proof Hclean as (H2K & H2J & Hbel).
  destruct (m_waitingForTerminator (handler l)) eqn:Hw.
  - (* a string argument is skipped *)
    destruct s as [|c0 s0].
    + cbn in Hrun. apply Leave_inj in Hrun as [-> _].
      cbn [append]. rewrite Hp. cbn [append].
      rewrite <- (outerLoop_runs_in_front f l c2 Hp).
      apply outerLoop_ends_alike.
    + set (s := String c0 s0) in *.
      destruct (indexOf stringTerminator s) as [p|] eqn:Hterm.
      * pose proof (indexOf_bound _ _ _ Hterm) as Hb.
        cbn [String.length stringTerminator] in Hb.
        apply (Hsmaller (remove0 (p + 2) s) (setWaiting false EmptyString l)).
        -- rewrite remove0_length. subst s. cbn [String.length] in *. lia.
        -- exact Hp.
        -- destruct Hst as [_ Hc]. split; [now left|exact Hc].
        -- now apply clean_remove0.
        -- apply (outerLoop_step_terminator f l s stringTerminator p Hp Hw).
           left. auto.
        -- rewrite <- (remove0_append_long (p + 2) s c2) by lia.
           apply (outerLoop_step_terminator f l (s ++ c2) stringTerminator
                    p Hp Hw).
           left. split; [|reflexivity]. now apply indexOf_append_found.
      * assert (Hkeep : outerLoop f l s = Leave (setPending s l) s).
        { apply outerLoop_step_buffer; auto; [discriminate|].
          destruct Hst as [[Ha|Ha] _]; [now left|right].
          rewrite Ha. now apply indexOf_single_char. }
        rewrite Hkeep in Hrun. apply Leave_inj in Hrun as [-> _].
        now apply kept_buffer_resumes.
  - (* no string argument is skipped *)
    assert (Hq : quiet l) by (split; assumption).
    destruct (indexOfChar ESC s) as [p|] eqn:Hesc.
    + pose proof (indexOfChar_split _ _ _ Hesc) as Es.
      pose proof (indexOfChar_left _ _ _ Hesc) as Ht.
      destruct p as [|p].
      * (* the text starts with the escape character *)
        assert (H0 : at_ 0 s = Some ESC) by (rewrite Es; reflexivity).
        assert (H0' : at_ 0 (s ++ c2) = Some ESC)
          by (now apply at_append).
        pose proof (innerBody_lockstep f c2 l s Hq H2K H2J) as Hlock.
        pose proof (innerBody_quiet f l s Hq) as Hquiet.
        pose proof (innerBody_steady f l s Hst) as Hsteady.
        pose proof (innerBody_suffix f l s) as Hsuf.
        pose proof (innerBody_shrinks f l s) as Hshr.
        destruct (innerBody f l s) as [l' s'|l' s'|h' o' c'| |] eqn:E.
        -- apply (Hsmaller s' l').
           ++ exact Hshr.
           ++ apply Hquiet.
           ++ exact Hsteady.
           ++ exact (clean_isSuffix c2 _ _ Hsuf Hclean).
           ++ apply outerLoop_step_inner; auto.
           ++ apply outerLoop_step_inner; auto.
        -- destruct Hlock as [[Hp' Hl]|(-> & _ & ->)].
           ++ apply (Hsmaller s' l').
              ** apply Hshr. exact H0.
              ** exact Hp'.
              ** exact Hsteady.
              ** exact (clean_isSuffix c2 _ _ Hsuf Hclean).
              ** apply outerLoop_step_inner; auto.
              ** apply outerLoop_step_inner; auto.
                 right. apply Hl. rewrite Es. discriminate.
           ++ rewrite (outerLoop_step_inner f l (setPending s l) s
                         EmptyString Hq H0 (or_intror E)) in Hrun.
              cbn in Hrun. apply Leave_inj in Hrun as [-> _].
              now apply kept_buffer_resumes.
        -- contradiction.
        -- rewrite (outerLoop_step_crash f l s Hq H0 E) in Hrun.
           discriminate.
        -- contradiction.
      * (* literal text in front of the escape character *)
        assert (Hne : left (S p) s <> EmptyString).
        { apply left_nonempty. destruct s; discriminate. }
        remember (left (S p) s) as t eqn:Et.
        remember (remove0 (S (S p)) s) as rest eqn:Er.
        clear Et Er Hesc. subst s.
        apply (Hsmaller (String ESC rest) (afterText t l)).
        -- rewrite length_append.
           destruct t; [congruence|]. cbn [String.length]. lia.
        -- apply afterText_quiet. exact Hq.
        -- now apply steady_afterText.
        -- now apply (clean_suffix c2 t).
        -- now apply outerLoop_step_literal.
        -- rewrite append_assoc. cbn [append].
           now apply outerLoop_step_literal.
    + (* no escape character at all *)
      rewrite (outerLoop_step_plain f l s Hq Hesc) in Hrun.
      apply Leave_inj in Hrun as [-> _].
      destruct (afterText_quiet s l Hq) as [Hp' _].
      rewrite Hp'. cbn [append].
      rewrite <- (outerLoop_runs_in_front f (afterText s l) c2 Hp').
      now apply outerLoop_literal_first.
Qed.

End ChunkInvariance.

(** ** Two calls against one *)

Lemma parseText_chunks
      (h : Handler) (f : QTextCharFormat) (c1 c2 : string)
      (h1 : Handler) (out1 : list FormattedText) :
  parseText h (mkText c1 f) = Parsed h1 out1 None ->
  contains (toUpper (m_pendingText h ++ c1 ++ c2)) "2K" = false ->
  contains (toUpper (m_pendingText h ++ c1 ++ c2)) "2J" = false ->
  indexOfChar BEL (m_pendingText h ++ c1) = None ->
  (m_alternateTerminator h = EmptyString
   \/ m_alternateTerminator h = String BEL EmptyString) ->
  sameText (parseText h (mkText (c1 ++ c2) f))
           (withEarlierRuns out1 (parseText h1 (mkText c2 f))).
Proof.
  intros Hrun H2K H2J Hbel Halt.
  rewrite !parseText_outcome in *. cbn [text format] in *.
  rewrite <- append_assoc in *.
  set (buf1 := m_pendingText h ++ c1) in *.
  assert (Hst0 : steady f (entry h f)) by (split; [exact Halt|reflexivity]).
  assert (Hc0 : clean c2 buf1) by (repeat split; assumption).
  pose proof (loop_steady f (outerBody f) (outerBody_steady f)
                          (S (String.length buf1)) (entry h f) buf1 Hst0)
    as Hst'.
  fold (outerLoop f (entry h f) buf1) in Hrun, Hst'.
  fold (outerLoop f (entry h f) (buf1 ++ c2)).
  destruct (outerLoop f (entry h f) buf1) as [|l' s'| | |] eqn:Erun;
    try discriminate.
  cbn [outcome] in Hrun. apply Parsed_inj in Hrun as (<- & <- & _).
  cbn [stepSteady] in Hst'.
  pose proof (outerLoop_chunks f c2 (String.length buf1) buf1 (entry h f)
                (Nat.le_refl _) eq_refl Hst0 Hc0 l' s' Erun) as Hsim.
  pose proof (loop_noExit (outerBody f) (outerBody_suffix f)
                          (outerBody_noExit f)
                          (S (String.length (buf1 ++ c2))) (entry h f)
                          (buf1 ++ c2) (conj H2K H2J)) as Hne.
  fold (outerLoop f (entry h f) (buf1 ++ c2)) in Hne.
  replace (entry (handler l') f) with (resume l')
    by (unfold resume, entry, initialFormat; now rewrite (proj2 Hst')).
  change (m_pendingText (handler l')) with (pending l').
  fold (outerLoop f (resume l') (pending l' ++ c2)).
  destruct (outerLoop f (entry h f) (buf1 ++ c2)) as [|la sa|ha oa ca| |];
    destruct (outerLoop f (resume l') (pending l' ++ c2))
      as [|lb sb|hb ob [|]| |];
    cbn in Hsim, Hne |- *; try contradiction; auto.
  destruct Hsim as [Hh Ho]. repeat split; assumption.
Qed.

(** ** Chunks of a stream *)

(** X22: cutting the text into two chunks does not change the text that
    comes out.  Let the first call return; provided the buffer of the
    whole text (pending text included) holds no erase marker ("2K" or
    "2J" in any case), the part fed first holds no bell character and the
    alternate terminator of the handler is unset or the bell, the call on
    the whole text and the two calls in a row end with the same handler,
    make no call on the text edit and return runs with the same joined
    text, or fail alike; the runs may be cut differently. *)
Theorem chunks_give_same_text
        (h : Handler) (f : QTextCharFormat) (c1 c2 : string)
        (h1 : Handler) (out1 : list FormattedText) :
  parseText h (mkText c1 f) = Parsed h1 out1 None ->
  contains (toUpper (m_pendingText h ++ c1 ++ c2)) "2K" = false ->
  contains (toUpper (m_pendingText h ++ c1 ++ c2)) "2J" = false ->
  indexOfChar BEL (m_pendingText h ++ c1) = None ->
  (m_alternateTerminator h = EmptyString
   \/ m_alternateTerminator h = String BEL EmptyString) ->
  sameText (parseText h (mkText (c1 ++ c2) f))
           (withEarlierRuns out1 (parseText h1 (mkText c2 f))).
Proof. exact (parseText_chunks h f c1 c2 h1 out1). Qed.

Lemma chunks_give_same_text_witness :
  sameText
    (parseText idleHandler (mkText ("ab" ++ "cd" ++ escape ++ "1mx")
                                   defaultFormat))
    (withEarlierRuns
       [mkText "ab" defaultFormat]
       (parseText idleHandler (mkText ("cd" ++ escape ++ "1mx")
                                      defaultFormat))).
Proof.
  apply (chunks_give_same_text idleHandler defaultFormat
           "ab" ("cd" ++ escape ++ "1mx") idleHandler
           [mkText "ab" defaultFormat]);
    [reflexivity | reflexivity | reflexivity | reflexivity
     | left; reflexivity].
Defined.

(** ** The unread end of the buffer *)

Section UnreadEnd.

Variable f : QTextCharFormat.

Lemma account_dropped (l l' : Locals) (s s' : string) :
  pending l' = EmptyString ->
  outputData l' = outputData l ->
  isSuffix s' s ->
  (pending l' = EmptyString \/ s' = EmptyString)
  /\ exists c e,
      s = c ++ pending l' ++ s'
      /\ textOf (outputData l') = textOf (outputData l) ++ e
      /\ Subsequence e c.
Proof.
  intros Hp Ho [pre ->]. split; [now left|].
  exists pre, EmptyString. rewrite Hp, Ho, append_empty_r.
  repeat split. apply Subsequence_empty.
Qed.

(** What a pass of the inner body does with its text: a part is read,
    of which the added runs are taken; the rest is pending or left. *)
Lemma innerBody_account (l : Locals) (s : string) :
  quiet l ->
  match innerBody f l s with
  | Again l' s' | Leave l' s' =>
      (pending l' = EmptyString \/ s' = EmptyString)
      /\ exists c e,
          s = c ++ pending l' ++ s'
          /\ textOf (outputData l') = textOf (outputData l) ++ e
          /\ Subsequence e c
  | _ => True
  end.
Proof.
  intros [Hp Hw].
  inner_cases s; auto.
  - apply account_dropped; auto. apply isSuffix_refl.
  - apply account_dropped; auto. apply isSuffix_refl.
  - split; [now right|]. exists EmptyString, EmptyString.
    unfold appendPending, setPending, pending in *.
    cbn [handler withPending m_pendingText outputData]. rewrite Hp.
    cbn [append]. rewrite !append_empty_r.
    repeat split. constructor.
  - apply account_dropped; auto. apply isSuffix_remove0.
  - apply account_dropped; auto. apply isSuffix_remove0.
  - apply account_dropped; auto. apply isSuffix_remove0.
  - split; [now left|].
    exists (left 1 (String c0 s0)), (left 1 (String c0 s0)).
    split; [reflexivity|]. split; [|apply Subsequence_refl].
    exact (textOf_emit _ (clearPending l)).
  - apply account_dropped; auto.
    eapply isSuffix_trans; apply isSuffix_remove0.
  - apply isEmpty_true in Hs2. subst s2. split; [now right|].
    exists EmptyString, EmptyString.
    destruct (scanNumbers_suffix _ _ _ _ _ _ _ Hscan) as [Hpend _].
    unfold appendPending, setPending, pending in *.
    cbn [handler withPending m_pendingText outputData] in *.
    rewrite Hp in Hpend. cbn [append] in Hpend.
    rewrite left_remove0 in Hpend. rewrite Hpend.
    rewrite !append_empty_r. repeat split. constructor.
  - apply account_dropped; auto.
    destruct (scanNumbers_split _ _ _ _ _ _ _ Hscan) as (consumed & E & _).
    eapply isSuffix_trans; [apply isSuffix_remove0|].
    eapply isSuffix_trans; [|apply isSuffix_remove0].
    exists consumed. exact E.
  - destruct (applyCodes_frame f numbers _ l5 Hcodes) as (Ho & Hpe & _).
    apply account_dropped.
    + unfold pending. rewrite Hpe. now destruct numbers.
    + rewrite Ho. now destruct numbers.
    + destruct (scanNumbers_split _ _ _ _ _ _ _ Hscan) as (consumed & E & _).
      eapply isSuffix_trans; [apply isSuffix_remove0|].
      eapply isSuffix_trans; [|apply isSuffix_remove0].
      exists consumed. exact E.
Qed.

(** The buffer of the call. *)
Variable buffer : string.

(** The runs emitted so far are taken from the part of the buffer in
    front of the pending text and the text that is left. *)
Let kept (l : Locals) (s : string) : Prop :=
  exists c, buffer = c ++ pending l ++ s
            /\ Subsequence (textOf (outputData l)) c.

(** The same when the loop has ended. *)
Let ended (l : Locals) : Prop :=
  exists c, buffer = c ++ pending l
            /\ Subsequence (textOf (outputData l)) c.

Lemma kept_ended (l : Locals) (s : string) :
  kept l s -> pending l = EmptyString \/ s = EmptyString -> ended l.
Proof.
  intros (c & E & H) [Hp|Hs].
  - exists (c ++ s). rewrite Hp in *. cbn [append] in E.
    rewrite append_empty_r. split; [exact E|now apply Subsequence_more].
  - subst s. exists c. now rewrite append_empty_r in E.
Qed.

Lemma kept_read (l l' : Locals) (s s' : string) :
  kept l s -> pending l = EmptyString -> pending l' = EmptyString ->
  outputData l' = outputData l -> isSuffix s' s -> kept l' s'.
Proof.
  intros (c & E & H) Hp Hp' Ho [pre ->]. exists (c ++ pre).
  rewrite Hp', Ho. rewrite Hp in E. cbn [append] in *.
  split; [now rewrite append_assoc|now apply Subsequence_more].
Qed.

Lemma kept_emit (l : Locals) (s : string) (n : nat) :
  kept l s -> pending l = EmptyString ->
  kept (emit (left n s) l) (remove0 n s).
Proof.
  intros (c & E & H) Hp. exists (c ++ left n s).
  change (pending (emit (left n s) l)) with (pending l).
  rewrite Hp in *. cbn [append] in *. split.
  - now rewrite append_assoc, left_remove0.
  - rewrite textOf_emit.
    apply Subsequence_append; [exact H|apply Subsequence_refl].
Qed.

Lemma innerBody_kept (l : Locals) (s : string) :
  quiet l -> kept l s ->
  match innerBody f l s with
  | Again l' s' | Leave l' s' =>
      kept l' s' /\ (pending l' = EmptyString \/ s' = EmptyString)
  | _ => True
  end.
Proof.
  intros Hq (c0 & E & H). pose proof (innerBody_account l s Hq) as Ha.
  destruct Hq as [Hp _]. rewrite Hp in E. cbn [append] in E.
  destruct (innerBody f l s) as [l' s'|l' s'| | |]; auto;
    destruct Ha as (Hor & c & e & Es & Eo & Hsub);
    (split; [|exact Hor]); exists (c0 ++ c); rewrite Eo;
    (split; [rewrite E, Es; now rewrite append_assoc
            |now apply Subsequence_append]).
Qed.

Lemma innerLoop_kept (fuel : nat) (l : Locals) (s : string) :
  quiet l -> kept l s ->
  match loop (innerBody f) fuel l s with
  | Leave l' s' =>
      kept l' s' /\ (pending l' = EmptyString \/ s' = EmptyString)
  | _ => True
  end.
Proof.
  intros Hq Hk.
  apply (loop_invariant (innerBody f) (fun x y => quiet x /\ kept x y)
           (fun r => match r with
                     | Leave l' s' =>
                         kept l' s'
                         /\ (pending l' = EmptyString \/ s' = EmptyString)
                     | _ => True
                     end)); auto.
  - intros l0 s0 l' s' [H0 H1] E.
    pose proof (innerBody_quiet f l0 s0 H0) as Hq'.
    pose proof (innerBody_kept l0 s0 H0 H1) as Hk'.
    rewrite E in Hq', Hk'. split; [exact Hq'|apply Hk'].
  - intros l0 s0 r [H0 H1] E.
    pose proof (innerBody_kept l0 s0 H0 H1) as Hk'. rewrite E in Hk'.
    now destruct r.
Qed.

Lemma skipStringArgument_kept (l : Locals) (s : string) :
  pending l = EmptyString -> kept l s ->
  match skipStringArgument l s with
  | Again l' s' => kept l' s'
  | Leave l' _ => ended l'
  | _ => True
  end.
Proof.
  intros Hp Hk. unfold skipStringArgument.
  destruct (m_waitingForTerminator (handler l)); [|exact Hk].
  assert (Hfound : forall p t,
             match (if isEmpty (remove0 (p + String.length t) s)
                    then Leave (setWaiting false EmptyString l)
                               (remove0 (p + String.length t) s)
                    else Again (setWaiting false EmptyString l)
                               (remove0 (p + String.length t) s)) with
             | Again l' s' => kept l' s'
             | Leave l' _ => ended l'
             | _ => True
             end).
  { intros p t.
    assert (Hk' : kept (setWaiting false EmptyString l)
                       (remove0 (p + String.length t) s)).
    { apply (kept_read l _ s); auto. apply isSuffix_remove0. }
    destruct (isEmpty _) eqn:E; [|exact Hk'].
    apply (kept_ended _ _ Hk'). now left. }
  assert (Hnone : ended (setPending s l)).
  { destruct Hk as (c & E & H). exists c. rewrite Hp in E. now split. }
  destruct (indexOf _ s) as [p|]; [apply Hfound|].
  destruct (negb (isEmpty _)); [|exact Hnone].
  destruct (indexOf (m_alternateTerminator (handler l)) s) as [p|];
    [apply Hfound|exact Hnone].
Qed.

Lemma outerBody_kept (l : Locals) (s : string) :
  kept l s -> pending l = EmptyString \/ s = EmptyString ->
  match outerBody f l s with
  | Again l' s' =>
      kept l' s' /\ (pending l' = EmptyString \/ s' = EmptyString)
  | Leave l' _ => ended l'
  | _ => True
  end.
Proof.
  intros Hk Hor. unfold outerBody.
  destruct (isEmpty s) eqn:Es.
  { apply (kept_ended l s Hk). right. now apply isEmpty_true. }
  destruct Hor as [Hp|Hs]; [|subst s; discriminate].
  rewrite Hp. cbn [isEmpty negb].
  pose proof (skipStringArgument_kept l s Hp Hk) as Hskip.
  pose proof (skipStringArgument_quiet l s Hp) as Hq.
  destruct (skipStringArgument l s) as [l1 s1|l1 s1| | |]; auto.
  destruct (indexOfChar ESC s1) as [p|].
  - assert (H2 : exists l2 s2,
               match p with
               | O => (l1, s1)
               | S _ => (emit (left p s1) l1, remove0 p s1)
               end = (l2, s2)
               /\ quiet l2 /\ kept l2 s2).
    { destruct p; do 2 eexists; (split; [reflexivity|]); split; auto.
      apply kept_emit; [exact Hskip|apply Hq]. }
    destruct H2 as (l2 & s2 & -> & Hq2 & Hk2).
    destruct (at_ 0 s2); [|exact I].
    destruct (negb _).
    + apply (kept_ended l2 s2 Hk2). left. apply Hq2.
    + pose proof (innerLoop_kept (S (String.length s2)) l2 s2 Hq2 Hk2) as Hin.
      unfold innerLoop.
      destruct (loop (innerBody f) _ l2 s2) eqn:E; auto.
      now apply loop_never_again in E.
  - pose proof (kept_emit l1 s1 (String.length s1) Hskip (proj1 Hq)) as H.
    rewrite left_all in H. apply (kept_ended _ _ H). left. exact (proj1 Hq).
Qed.

Lemma outerLoop_kept (fuel : nat) (l : Locals) (s : string) :
  kept l s -> pending l = EmptyString \/ s = EmptyString ->
  match loop (outerBody f) fuel l s with
  | Leave l' _ => ended l'
  | _ => True
  end.
Proof.
  intros Hk Hor.
  apply (loop_invariant (outerBody f)
           (fun x y => kept x y
                       /\ (pending x = EmptyString \/ y = EmptyString))
           (fun r => match r with Leave l' _ => ended l' | _ => True end));
    auto.
  - intros l0 s0 l' s' [H0 H1] E.
    pose proof (outerBody_kept l0 s0 H0 H1) as H. now rewrite E in H.
  - intros l0 s0 r [H0 H1] E.
    pose proof (outerBody_kept l0 s0 H0 H1) as H. rewrite E in H.
    now destruct r.
Qed.

End UnreadEnd.

(** X25: when a call returns without a call on the text edit, the text
    it keeps pending is the unread end of its buffer, and the runs it
    returns are taken, in order, from the part in front of that end: no
    character is both written out and kept for the next call.  A call
    that returns to erase the line or to clear the screen keeps ESC [
    pending instead, whatever its buffer ends with. *)
Theorem pending_text_is_unread_end (h h' : Handler) (input : FormattedText)
        (out : list FormattedText) (call : option TextEditCall) :
  parseText h input = Parsed h' out call ->
  match call with
  | None =>
      exists read,
        m_pendingText h ++ text input = read ++ m_pendingText h'
        /\ Subsequence (textOf out) read
  | Some _ => m_pendingText h' = escape
  end.
Proof.
  rewrite parseText_outcome.
  pose proof (outerLoop_kept (format input) (m_pendingText h ++ text input)
                (S (String.length (m_pendingText h ++ text input)))
                (entry h (format input)) (m_pendingText h ++ text input))
    as H.
  pose proof (outerLoop_quiet (format input)
                (S (String.length (m_pendingText h ++ text input)))
                (entry h (format input)) (m_pendingText h ++ text input))
    as Hq.
  destruct (loop _ _ _ _); try discriminate; intros [= <- <- <-].
  - apply H; [|now left].
    exists EmptyString. split; [reflexivity|constructor].
  - apply Hq.
Qed.

Lemma pending_text_is_unread_end_witness :
  exists read,
    (escape ++ "3") ++ "1mcd" ++ escape ++ "4" = read ++ escape ++ "4"
    /\ Subsequence "cd" read.
Proof.
  apply (pending_text_is_unread_end
           (withPending (escape ++ "3") idleHandler)
           (setFormatScope (setForeground (Some (Rgb 170 0 0)) defaultFormat)
                           (withPending (escape ++ "4") idleHandler))
           (mkText ("1mcd" ++ escape ++ "4") defaultFormat)
           [mkText "cd" (setForeground (Some (Rgb 170 0 0)) defaultFormat)]
           None).
  reflexivity.
Defined.
